(** * Directory Scanner CLI (Day 4): a shallow embedding and its properties

    The program is the Node.js script whose text is kept in
    [foundation-javascript-cli/day-09-logger-tool/README.md] (from the
    shebang line on).  Its functions are embedded below under their own
    names.  The host library (strings, numbers, [path], [RegExp]) is
    modelled in module [JS]; the script itself in module [Scanner].

    Modelling conventions:
    - a JavaScript string is a [string] of ASCII characters (case mapping
      and white space are the ASCII ones);
    - a JavaScript number is a [JS.number]: NaN, an infinity, or the exact
      rational value of a finite double ([-0] is not distinguished from 0);
    - an absolute path is the list of its segments, so [path.join] adds a
      segment and [path.relative] drops the common prefix;
    - the directory tree is a finite [fsnode]; what [readdirSync] and
      [statSync] answer is read off the tree, [readFileSync] is a function of
      the path;
    - console text is abstracted to events; the lines of the file list, of
      the CSV output and of the extension table are rendered in module
      [Rendering]. *)

From Stdlib Require Import ZArith QArith Qround Qabs Lqa Bool List String Ascii Lia Arith.
From Stdlib Require Import DecimalN Permutation Sorted.
From Stdlib Require Import DecimalString.
Import ListNotations.

Set Implicit Arguments.

Module JS.

Local Open Scope string_scope.
Local Open Scope list_scope.

(** ** Characters and strings *)

Definition code (c : ascii) : N := N_of_ascii c.

Definition between (lo hi : N) (c : ascii) : bool :=
  (lo <=? code c)%N && (code c <=? hi)%N.

Definition isDigit : ascii -> bool := between 48 57.
Definition isUpper : ascii -> bool := between 65 90.
Definition isLower : ascii -> bool := between 97 122.

Definition toUpperChar (c : ascii) : ascii :=
  if isLower c then ascii_of_N (code c - 32) else c.

Definition toLowerChar (c : ascii) : ascii :=
  if isUpper c then ascii_of_N (code c + 32) else c.

Fixpoint mapString (f : ascii -> ascii) (s : string) : string :=
  match s with
  | EmptyString => EmptyString
  | String c s' => String (f c) (mapString f s')
  end.

(** [String.prototype.toLowerCase] and [toUpperCase]. *)
Definition toLowerCase : string -> string := mapString toLowerChar.
Definition toUpperCase : string -> string := mapString toUpperChar.

(** [s.startsWith(p)]. *)
Definition startsWith (s p : string) : bool := String.prefix p s.

(** [s.includes(t)]: [t] occurs in [s] as a contiguous substring. *)
Fixpoint includes (s t : string) : bool :=
  String.prefix t s ||
  match s with
  | EmptyString => false
  | String _ s' => includes s' t
  end.

(** White space and line terminators, as [trim] and [Number] see them. *)
Definition isWhiteSpace (c : ascii) : bool :=
  between 9 13 c || (code c =? 32)%N.

Fixpoint trimStart (s : string) : string :=
  match s with
  | String c s' => if isWhiteSpace c then trimStart s' else s
  | EmptyString => EmptyString
  end.

Fixpoint trimEnd (s : string) : string :=
  match s with
  | EmptyString => EmptyString
  | String c s' =>
      match trimEnd s' with
      | EmptyString => if isWhiteSpace c then EmptyString else String c EmptyString
      | t => String c t
      end
  end.

Definition trim (s : string) : string := trimEnd (trimStart s).

(** [s.split(sep)] for a one-character separator. *)
Fixpoint split (sep : ascii) (s : string) : list string :=
  match s with
  | EmptyString => [EmptyString]
  | String c s' =>
      if Ascii.eqb c sep then EmptyString :: split sep s'
      else match split sep s' with
           | h :: t => String c h :: t
           | [] => [String c EmptyString]
           end
  end.

(** [s.replace(/c/g, r)] for a single literal character [c]. *)
Fixpoint replaceAll (c : ascii) (r : string) (s : string) : string :=
  match s with
  | EmptyString => EmptyString
  | String a s' =>
      if Ascii.eqb a c then r ++ replaceAll c r s'
      else String a (replaceAll c r s')
  end.

(** The longest prefix of characters satisfying [p], and the rest. *)
Fixpoint span (p : ascii -> bool) (s : string) : string * string :=
  match s with
  | String c s' =>
      if p c then let (a, b) := span p s' in (String c a, b)
      else (EmptyString, s)
  | EmptyString => (EmptyString, EmptyString)
  end.

(** [s] without its first character, when that character is [c]. *)
Definition afterChar (c : ascii) (s : string) : option string :=
  match s with
  | String a t => if Ascii.eqb a c then Some t else None
  | EmptyString => None
  end.

(** Truthiness of a possibly missing string: [null], [undefined] and the
    empty string are falsy. *)
Definition truthy (s : option string) : bool :=
  match s with
  | None => false
  | Some EmptyString => false
  | Some _ => true
  end.

(** ** Numbers *)

Inductive number : Type :=
| NaN
| Infinity (negative : bool)
| Finite (q : Q).

Definition ofZ (z : Z) : number := Finite (inject_Z z).
Definition ofNat (n : nat) : number := ofZ (Z.of_nat n).

Definition isNaN (x : number) : bool :=
  match x with NaN => true | _ => false end.

(** [x < y]; any comparison with NaN is false. *)
Definition lt (x y : number) : bool :=
  match x, y with
  | NaN, _ | _, NaN => false
  | Infinity true, Infinity true => false
  | Infinity true, _ => true
  | _, Infinity true => false
  | Infinity false, _ => false
  | _, Infinity false => true
  | Finite a, Finite b => match (a ?= b)%Q with Lt => true | _ => false end
  end.

(** [x === y] on numbers. *)
Definition strictEq (x y : number) : bool :=
  match x, y with
  | Infinity a, Infinity b => Bool.eqb a b
  | Finite a, Finite b => Qeq_bool a b
  | _, _ => false
  end.

Definition gt (x y : number) : bool := lt y x.
Definition le (x y : number) : bool := lt x y || strictEq x y.
Definition ge (x y : number) : bool := le y x.

Definition neg (x : number) : number :=
  match x with
  | NaN => NaN
  | Infinity b => Infinity (negb b)
  | Finite q => Finite (Qred (- q))
  end.

(** *** Rounding to the nearest double (binary64, ties to even) *)

Definition Qpow2 (e : Z) : Q :=
  if (0 <=? e)%Z then inject_Z (2 ^ e) else 1 # Z.to_pos (2 ^ (- e)).

(** For [q > 0], the integer [e] with [2^e <= q < 2^(e+1)]. *)
Definition floorLog2 (q : Q) : Z :=
  let e0 := (Z.log2 (Qnum q) - Z.log2 (Zpos (Qden q)))%Z in
  if Qle_bool (Qpow2 e0) q then e0 else (e0 - 1)%Z.

Definition roundHalfEven (m : Q) : Z :=
  let f := Qfloor m in
  match (m - inject_Z f ?= 1 # 2)%Q with
  | Lt => f
  | Gt => (f + 1)%Z
  | Eq => if Z.even f then f else (f + 1)%Z
  end.

Definition roundPositive (q : Q) : number :=
  let e := floorLog2 q in
  let p := Z.max (e - 52) (-1074) in
  let v := (inject_Z (roundHalfEven (q / Qpow2 p)) * Qpow2 p)%Q in
  if Qle_bool (Qpow2 1024) v then Infinity false else Finite (Qred v).

Definition roundDouble (q : Q) : number :=
  match (q ?= 0)%Q with
  | Eq => Finite 0
  | Gt => roundPositive q
  | Lt => neg (roundPositive (- q))
  end.

(** [x * y]. *)
Definition sign (x : number) : comparison :=
  match x with
  | NaN => Eq
  | Infinity b => if b then Lt else Gt
  | Finite q => (q ?= 0)%Q
  end.

Definition mul (x y : number) : number :=
  match x, y with
  | NaN, _ | _, NaN => NaN
  | Finite a, Finite b => roundDouble (a * b)
  | _, _ =>
      match sign x, sign y with
      | Eq, _ | _, Eq => NaN
      | Lt, Lt | Gt, Gt => Infinity false
      | _, _ => Infinity true
      end
  end.

(** *** [Number(s)]: the numeric value of a string *)

Definition digitVal (c : ascii) : option Z :=
  if isDigit c then Some (Z.of_N (code c) - 48)%Z
  else if between 97 102 c then Some (Z.of_N (code c) - 87)%Z
  else if between 65 70 c then Some (Z.of_N (code c) - 55)%Z
  else None.

(** The value of a string of digits in the given base, [None] when a
    character is not a digit of that base. *)
Fixpoint digitsIn (base : Z) (s : string) (acc : Z) : option Z :=
  match s with
  | EmptyString => Some acc
  | String c s' =>
      match digitVal c with
      | Some v => if (v <? base)%Z then digitsIn base s' (acc * base + v)%Z else None
      | None => None
      end
  end.

Definition digitsValue (s : string) : Z :=
  match digitsIn 10 s 0 with Some v => v | None => 0%Z end.

Definition Qpow10 (e : Z) : Q :=
  if (0 <=? e)%Z then inject_Z (10 ^ e) else 1 # Z.to_pos (10 ^ (- e)).

(** The rational [i.f * 10^e] for digit strings [i] and [f]. *)
Definition decimalValue (i f : string) (e : Z) : Q :=
  (inject_Z (digitsValue (i ++ f)) * Qpow10 (e - Z.of_nat (String.length f)))%Q.

(** An optional exponent part that must reach the end of the string. *)
Definition parseExponent (s : string) : option Z :=
  match s with
  | EmptyString => Some 0%Z
  | String c s' =>
      if Ascii.eqb c "e" || Ascii.eqb c "E" then
        let '(sgn, s'') :=
          match s' with
          | String "+" t => (1%Z, t)
          | String "-" t => ((-1)%Z, t)
          | _ => (1%Z, s')
          end in
        let (ds, rest) := span isDigit s'' in
        match ds, rest with
        | String _ _, EmptyString => Some (sgn * digitsValue ds)%Z
        | _, _ => None
        end
      else None
  end.

Definition parseUnsignedDecimal (s : string) : option number :=
  if String.eqb s "Infinity" then Some (Infinity false) else
  let (i, r1) := span isDigit s in
  let '(f, r2) :=
    match r1 with
    | String "." t => span isDigit t
    | _ => (EmptyString, r1)
    end in
  match (i ++ f)%string with
  | EmptyString => None
  | _ =>
      match parseExponent r2 with
      | Some e => Some (roundDouble (decimalValue i f e))
      | None => None
      end
  end.

Definition parseNonDecimal (base : Z) (ds : string) : number :=
  match ds with
  | EmptyString => NaN
  | _ => match digitsIn base ds 0 with
         | Some v => roundDouble (inject_Z v)
         | None => NaN
         end
  end.

Definition orNaN (x : option number) : number :=
  match x with Some v => v | None => NaN end.

Definition Number (s : string) : number :=
  match trim s with
  | EmptyString => Finite 0
  | String "0" (String "x" ds) | String "0" (String "X" ds) => parseNonDecimal 16 ds
  | String "0" (String "o" ds) | String "0" (String "O" ds) => parseNonDecimal 8 ds
  | String "0" (String "b" ds) | String "0" (String "B" ds) => parseNonDecimal 2 ds
  | String "+" t => orNaN (parseUnsignedDecimal t)
  | String "-" t => neg (orNaN (parseUnsignedDecimal t))
  | t => orNaN (parseUnsignedDecimal t)
  end.

(** *** [x.toFixed(2)] *)

Definition decimalString (n : Z) : string :=
  NilZero.string_of_uint (N.to_uint (Z.to_N n)).

Definition digitChar (d : Z) : ascii := ascii_of_N (Z.to_N (48 + d)).

(** For [0 <= x < 10^21]: the integer [n] nearest to [100 x] (the larger one
    on a tie), written with a point before its last two digits. *)
Definition toFixed2Small (x : Q) : string :=
  let n := Qfloor (x * 100 + (1 # 2)) in
  (decimalString (n / 100) ++ "." ++
   String (digitChar ((n mod 100) / 10)) (String (digitChar (n mod 10)) EmptyString))%string.

(** [toString] is the host's [Number.prototype.toString], which [toFixed]
    falls back to from [10^21] on. *)
Definition toFixed2 (toString : Q -> string) (x : Q) : string :=
  if Qle_bool (inject_Z (10 ^ 21)) (Qabs x) then toString x
  else match (x ?= 0)%Q with
       | Lt => ("-" ++ toFixed2Small (- x))%string
       | _ => toFixed2Small x
       end.

(** ** Paths ([path.join], [path.relative], [path.extname]) *)

Definition path : Type := list string.

(** [path.join(dirPath, item)] for a directory entry name [item]. *)
Definition join (dirPath : path) (item : string) : path := dirPath ++ [item].

(** [path.relative(from, to)] on absolute paths: climb out of what is left
    of [from] after the common prefix, then descend along [to]. *)
Fixpoint relative (from to : path) : path :=
  match from, to with
  | f :: from', t :: to' =>
      if String.eqb f t then relative from' to'
      else map (fun _ => "..") from ++ to
  | _, _ => map (fun _ => "..") from ++ to
  end.

(** The suffix of [s] that starts at its last dot. *)
Fixpoint lastDot (s : string) : option string :=
  match s with
  | EmptyString => None
  | String c s' =>
      match lastDot s' with
      | Some e => Some e
      | None => if Ascii.eqb c "." then Some s else None
      end
  end.

(** [path.extname] of a base name: from the last dot on, unless there is no
    dot, the only dot comes first, or the name is [".."]. *)
Definition extnameBase (base : string) : string :=
  match lastDot base with
  | None => EmptyString
  | Some e =>
      if String.eqb e base then EmptyString
      else if String.eqb base ".." then EmptyString
      else e
  end.

Definition extname (p : path) : string := extnameBase (last p EmptyString).

(** ** Regular expressions

    Only pattern sources made of ordinary characters, [.] and a [*] after
    either are interpreted here; every other source is handed to the host
    engine, which is a parameter of [RegExp]. *)

Inductive atom : Type :=
| AnyChar
| Lit (c : ascii).

Definition isSyntaxChar (c : ascii) : bool :=
  includes "^$\.*+?()[]{}|" (String c EmptyString).

Fixpoint parseSimple (src : string) : option (list (atom * bool)) :=
  match src with
  | EmptyString => Some []
  | String c rest =>
      let a := if Ascii.eqb c "." then Some AnyChar
               else if isSyntaxChar c then None
               else Some (Lit c) in
      match a with
      | None => None
      | Some a =>
          match rest with
          | String "*" rest' => option_map (cons (a, true)) (parseSimple rest')
          | _ => option_map (cons (a, false)) (parseSimple rest)
          end
      end
  end.

(** With the [i] flag characters are compared after upper-casing; [.] takes
    any character but a line terminator. *)
Definition atomMatches (a : atom) (d : ascii) : bool :=
  match a with
  | AnyChar => negb ((code d =? 10)%N || (code d =? 13)%N)
  | Lit c => Ascii.eqb (toUpperChar c) (toUpperChar d)
  end.

(** Does the pattern match a prefix of [s]? *)
Fixpoint matchHere (its : list (atom * bool)) (s : string) : bool :=
  match its with
  | [] => true
  | (a, false) :: its' =>
      match s with
      | String d s' => atomMatches a d && matchHere its' s'
      | EmptyString => false
      end
  | (a, true) :: its' =>
      (fix star (s : string) : bool :=
         matchHere its' s ||
         match s with
         | String d s' => atomMatches a d && star s'
         | EmptyString => false
         end) s
  end.

(** [regex.test(s)] without anchors: a match may start anywhere. *)
Fixpoint search (its : list (atom * bool)) (s : string) : bool :=
  matchHere its s ||
  match s with
  | String _ s' => search its s'
  | EmptyString => false
  end.

(** [new RegExp(src, 'i')]: [None] when the constructor throws a
    SyntaxError, otherwise the [test] function of the expression. *)
Definition RegExp (host : string -> option (string -> bool)) (src : string)
  : option (string -> bool) :=
  match parseSimple src with
  | Some its => Some (search its)
  | None => host src
  end.

End JS.

Module Scanner.

Import JS.
Local Open Scope string_scope.
Local Open Scope list_scope.

(** ** Data *)

(** What a function that may throw hands back. *)
Inductive result (A : Type) : Type :=
| Ok (value : A)
| Throw (message : string).

Arguments Ok {A} value.
Arguments Throw {A} message.

(** The object returned by [parseSizeFilter]. *)
Record SizeFilter : Type := mkSizeFilter {
  operator : string;
  bytes : number
}.

(** The [options] object of [parseArguments]; [baseDir] is the property that
    [main] adds before scanning. *)
Record Options : Type := mkOptions {
  dirPath : option string;
  depth : number;
  extensions : list string;
  namePattern : option string;
  sizeFilter : option SizeFilter;
  searchText : option string;
  showTree : bool;
  showStats : bool;
  outputJson : bool;
  outputCsv : bool;
  baseDir : path
}.

(** The [fileInfo] object pushed by [scanDirectory]. *)
Record FileRecord : Type := mkFileRecord {
  name : string;
  path_ : path;
  relativePath : path;
  size : Z;
  sizeHuman : string;
  extension : string;
  modified : Z;
  created : Z
}.

(** What the file system holds at a path: a regular file, a directory with
    its entries ([readdirSync] throws unless it is [readable]), something
    that is neither [isFile()] nor [isDirectory()], or an entry whose
    [statSync] throws. *)
#[local] Unset Elimination Schemes.

Inductive fsnode : Type :=
| File (size mtime birthtime : Z)
| Dir (readable : bool) (items : list (string * fsnode))
| Other
| Missing.

#[local] Set Elimination Schemes.

(** Induction on the tree: a directory's property may rely on that of every
    entry of its listing. *)
Section FsnodeInd.

Variable P : fsnode -> Prop.
Hypothesis onFile : forall size mtime birthtime, P (File size mtime birthtime).
Hypothesis onDir :
  forall readable items,
    Forall (fun entry => P (snd entry)) items -> P (Dir readable items).
Hypothesis onOther : P Other.
Hypothesis onMissing : P Missing.

Fixpoint fsnode_ind (node : fsnode) : P node :=
  match node with
  | File size mtime birthtime => onFile size mtime birthtime
  | Dir readable items =>
      onDir readable
        ((fix all (items : list (string * fsnode))
            : Forall (fun entry => P (snd entry)) items :=
            match items with
            | [] => Forall_nil _
            | entry :: rest => Forall_cons entry (fsnode_ind (snd entry)) (all rest)
            end) items)
  | Other => onOther
  | Missing => onMissing
  end.

End FsnodeInd.

Inductive event : Type :=
| Exists_ (absolutePath : path)
| Readdir (dirPath : path)
| Stat (itemPath : path)
| ReadFile (filePath : path)
| Warn (dirPath : path)
| Usage
| Error (message : string).

(** ** The script *)

(** [isHelpRequested], on the arguments after the script name:
    [process.argv.length <= 2 || process.argv.includes('--help')]. *)
Definition isHelpRequested (args : list string) : bool :=
  match args with
  | [] => true
  | _ => existsb (String.eqb "--help") args
  end.

(** The match of [(\d+(?:\.\d+)?)(KB|MB|GB|B)?$] (flag [i]) on what follows
    the operator: the number and the unit.  The digits are taken greedily;
    nothing else can follow a digit but a point, a unit or the end. *)
Definition sizeAndUnit (r1 : string) : option (string * option string) :=
  let (i, r2) := span isDigit r1 in
  match i with
  | EmptyString => None
  | _ =>
      let '(sizeStr, r3) :=
        match afterChar "." r2 with
        | Some t =>
            match span isDigit t with
            | (EmptyString, _) => (i, r2)
            | (f, r) => ((i ++ "." ++ f)%string, r)
            end
        | None => (i, r2)
        end in
      match r3 with
      | EmptyString => Some (sizeStr, None)
      | _ =>
          if existsb (String.eqb (toUpperCase r3)) ["KB"; "MB"; "GB"; "B"]
          then Some (sizeStr, Some r3)
          else None
      end
  end.

(** The match of
    [/^([><=]=?)(\d+(?:\.\d+)?)(KB|MB|GB|B)?$/i]: operator, number and unit.
    The optional [=] of the operator is taken when it is there: without it
    the number would have to start at that [=]. *)
Definition sizeFilterMatch (filterStr : string)
  : option (string * string * option string) :=
  match filterStr with
  | String c r0 =>
      if Ascii.eqb c ">" || Ascii.eqb c "<" || Ascii.eqb c "=" then
        let '(op, r1) :=
          match afterChar "=" r0 with
          | Some r => (String c "=", r)
          | None => (String c EmptyString, r0)
          end in
        match sizeAndUnit r1 with
        | Some (sizeStr, unit) => Some (op, sizeStr, unit)
        | None => None
        end
      else None
  | EmptyString => None
  end.

Definition multipliers : list (string * Z) :=
  [("B", 1); ("KB", 1024); ("MB", 1024 * 1024); ("GB", 1024 * 1024 * 1024)]%Z.

Fixpoint property {A : Type} (key : string) (obj : list (string * A)) : option A :=
  match obj with
  | [] => None
  | (k, v) :: obj' => if String.eqb k key then Some v else property key obj'
  end.

Definition parseSizeFilter (filterStr : string) : result SizeFilter :=
  match sizeFilterMatch filterStr with
  | None =>
      Throw "Invalid size filter format. Use: >,<,=,>=,<= followed by number and optional unit (KB,MB,GB)."
  | Some (operator, sizeStr, unit) =>
      let unit := match unit with Some u => u | None => "B" end in
      let size := Number sizeStr in
      let bytes :=
        mul size (ofZ (match property (toUpperCase unit) multipliers with
                       | Some m => m
                       | None => 1%Z
                       end)) in
      Ok {| operator := operator; bytes := bytes |}
  end.

Definition units : list string := ["B"; "KB"; "MB"; "GB"].

(** The [while] loop of [formatBytes]; [above] is
    [units.length - 1 - unitIndex], so the test [unitIndex < units.length - 1]
    is [above <> 0].  Dividing a double that is at least 1024 by 1024 is
    exact, hence the rational division. *)
Fixpoint formatBytesLoop (above : nat) (size : Q) (unitIndex : nat) : Q * nat :=
  match above with
  | S above' =>
      if Qle_bool 1024 size
      then formatBytesLoop above' (size / 1024)%Q (S unitIndex)
      else (size, unitIndex)
  | O => (size, unitIndex)
  end.

(** *** [parseArguments] *)

Definition defaults : Options :=
  {| dirPath := None; depth := Infinity false; extensions := [];
     namePattern := None; sizeFilter := None; searchText := None;
     showTree := false; showStats := false; outputJson := false;
     outputCsv := false; baseDir := [] |}.

Definition setDirPath (o : Options) (v : option string) : Options :=
  mkOptions v o.(depth) o.(extensions) o.(namePattern) o.(sizeFilter)
    o.(searchText) o.(showTree) o.(showStats) o.(outputJson) o.(outputCsv) o.(baseDir).
Definition setDepth (o : Options) (v : number) : Options :=
  mkOptions o.(dirPath) v o.(extensions) o.(namePattern) o.(sizeFilter)
    o.(searchText) o.(showTree) o.(showStats) o.(outputJson) o.(outputCsv) o.(baseDir).
Definition setExtensions (o : Options) (v : list string) : Options :=
  mkOptions o.(dirPath) o.(depth) v o.(namePattern) o.(sizeFilter)
    o.(searchText) o.(showTree) o.(showStats) o.(outputJson) o.(outputCsv) o.(baseDir).
Definition setNamePattern (o : Options) (v : option string) : Options :=
  mkOptions o.(dirPath) o.(depth) o.(extensions) v o.(sizeFilter)
    o.(searchText) o.(showTree) o.(showStats) o.(outputJson) o.(outputCsv) o.(baseDir).
Definition setSizeFilter (o : Options) (v : option SizeFilter) : Options :=
  mkOptions o.(dirPath) o.(depth) o.(extensions) o.(namePattern) v
    o.(searchText) o.(showTree) o.(showStats) o.(outputJson) o.(outputCsv) o.(baseDir).
Definition setSearchText (o : Options) (v : option string) : Options :=
  mkOptions o.(dirPath) o.(depth) o.(extensions) o.(namePattern) o.(sizeFilter)
    v o.(showTree) o.(showStats) o.(outputJson) o.(outputCsv) o.(baseDir).
Definition setShowTree (o : Options) (v : bool) : Options :=
  mkOptions o.(dirPath) o.(depth) o.(extensions) o.(namePattern) o.(sizeFilter)
    o.(searchText) v o.(showStats) o.(outputJson) o.(outputCsv) o.(baseDir).
Definition setShowStats (o : Options) (v : bool) : Options :=
  mkOptions o.(dirPath) o.(depth) o.(extensions) o.(namePattern) o.(sizeFilter)
    o.(searchText) o.(showTree) v o.(outputJson) o.(outputCsv) o.(baseDir).
Definition setOutputJson (o : Options) (v : bool) : Options :=
  mkOptions o.(dirPath) o.(depth) o.(extensions) o.(namePattern) o.(sizeFilter)
    o.(searchText) o.(showTree) o.(showStats) v o.(outputCsv) o.(baseDir).
Definition setOutputCsv (o : Options) (v : bool) : Options :=
  mkOptions o.(dirPath) o.(depth) o.(extensions) o.(namePattern) o.(sizeFilter)
    o.(searchText) o.(showTree) o.(showStats) o.(outputJson) v o.(baseDir).
Definition setBaseDir (o : Options) (v : path) : Options :=
  mkOptions o.(dirPath) o.(depth) o.(extensions) o.(namePattern) o.(sizeFilter)
    o.(searchText) o.(showTree) o.(showStats) o.(outputJson) o.(outputCsv) v.

Definition bind {A B : Type} (r : result A) (k : A -> result B) : result B :=
  match r with
  | Ok a => k a
  | Throw message => Throw message
  end.

Notation "x <- r ;; k" := (bind r (fun x => k))
  (at level 61, r at next level, right associativity).

(** The argument after an option, [args[i + 1]]; the option throws
    [message] under [!args[i + 1] || args[i + 1].startsWith('--')]. *)
Definition valueOf (next : option string) (message : string) : result string :=
  match next with
  | Some v =>
      if negb (truthy next) || startsWith v "--" then Throw message else Ok v
  | None => Throw message
  end.

(** One [case] of the [switch]: the updated options, and whether the next
    argument was consumed ([i += 1]). *)
Definition parseOption (arg : string) (next : option string) (options : Options)
  : result (Options * bool) :=
  if String.eqb arg "--depth" then
    v <- valueOf next "The --depth option requires a number." ;;
    let depth := Number v in
    if isNaN depth || lt depth (Finite 0)
    then Throw "Depth must be a non-negative number."
    else Ok (setDepth options depth, true)
  else if String.eqb arg "--ext" then
    v <- valueOf next "The --ext option requires extensions." ;;
    Ok (setExtensions options
          (map (fun ext => toLowerCase (trim ext)) (split "," v)), true)
  else if String.eqb arg "--name" then
    v <- valueOf next "The --name option requires a pattern." ;;
    Ok (setNamePattern options (Some v), true)
  else if String.eqb arg "--size" then
    v <- valueOf next "The --size option requires a size filter." ;;
    f <- parseSizeFilter v ;;
    Ok (setSizeFilter options (Some f), true)
  else if String.eqb arg "--search" then
    v <- valueOf next "The --search option requires search text." ;;
    Ok (setSearchText options (Some v), true)
  else if String.eqb arg "--tree" then Ok (setShowTree options true, false)
  else if String.eqb arg "--stats" then Ok (setShowStats options true, false)
  else if String.eqb arg "--json" then Ok (setOutputJson options true, false)
  else if String.eqb arg "--csv" then Ok (setOutputCsv options true, false)
  else if String.eqb arg "--help" then Ok (options, false)
  else Throw ("Unknown option: " ++ arg)%string.

(** The [for] loop over [args], from index [i] on. *)
Fixpoint parseLoop (args : list string) (options : Options) : result Options :=
  match args with
  | [] => Ok options
  | arg :: rest =>
      if startsWith arg "--" then
        match parseOption arg (hd_error rest) options with
        | Throw message => Throw message
        | Ok (options', true) =>
            match rest with
            | _ :: rest' => parseLoop rest' options'
            | [] => Ok options'
            end
        | Ok (options', false) => parseLoop rest options'
        end
      else if negb (truthy options.(dirPath)) then
        parseLoop rest (setDirPath options (Some arg))
      else Throw ("Unexpected argument: " ++ arg)%string
  end.

Definition parseArguments (args : list string) : result Options :=
  options <- parseLoop args defaults ;;
  if negb (truthy options.(dirPath))
  then Throw "Missing directory path. Use --help for usage information."
  else Ok options.

(** *** [displayStats]: the figures it prints *)

Record SizeDistribution : Type := mkSizeDistribution {
  small : nat;
  medium : nat;
  large : nat;
  huge : nat
}.

Record Statistics : Type := mkStatistics {
  totalFiles : nat;
  totalSize : Z;
  extensionCounts : list (string * nat);
  sizeDistribution : SizeDistribution
}.

(** [acc[ext] = (acc[ext] || 0) + 1] on an object whose keys keep their
    insertion order. *)
Fixpoint increment (ext : string) (acc : list (string * nat)) : list (string * nat) :=
  match acc with
  | [] => [(ext, 1%nat)]
  | (k, v) :: acc' =>
      if String.eqb k ext then (k, S v) :: acc' else (k, v) :: increment ext acc'
  end.

Definition displayStats (files : list FileRecord) : Statistics :=
  let totalFiles := List.length files in
  let totalSize := fold_left (fun sum file => (sum + file.(size))%Z) files 0%Z in
  let extensionCounts :=
    fold_left
      (fun acc file =>
         let ext := match file.(extension) with
                    | EmptyString => "(no extension)"
                    | e => e
                    end in
         increment ext acc)
      files [] in
  let sizeDistribution :=
    {| small := List.length (filter (fun f => f.(size) <? 1024)%Z files);
       medium := List.length
         (filter (fun f => (1024 <=? f.(size)) && (f.(size) <? 1024 * 1024))%Z files);
       large := List.length
         (filter (fun f => (1024 * 1024 <=? f.(size)) &&
                           (f.(size) <? 1024 * 1024 * 1024))%Z files);
       huge := List.length (filter (fun f => 1024 * 1024 * 1024 <=? f.(size))%Z files) |} in
  {| totalFiles := totalFiles; totalSize := totalSize;
     extensionCounts := extensionCounts; sizeDistribution := sizeDistribution |}.

Section Host.

(** The host's regular-expression engine on sources outside the fragment of
    [JS.RegExp], the host's [Number.prototype.toString], and the content of
    the files ([None] when [readFileSync] throws). *)
Variable hostRegExp : string -> option (string -> bool).
Variable hostToString : Q -> string.
Variable readFileSync : path -> option string.

Definition formatBytes (bytes : Q) : string :=
  let (size, unitIndex) := formatBytesLoop (List.length units - 1) bytes 0 in
  (toFixed2 hostToString size ++ " " ++ nth unitIndex units "")%string.

Definition matchesExtension (filePath : path) (extensions : list string) : bool :=
  match extensions with
  | [] => true
  | _ =>
      let ext := toLowerCase (extname filePath) in
      existsb (String.eqb ext) extensions
  end.

(** [None] when [new RegExp] throws. *)
Definition matchesNamePattern (fileName : string) (pattern : option string)
  : option bool :=
  match pattern with
  | None | Some EmptyString => Some true
  | Some pattern =>
      match RegExp hostRegExp (replaceAll "?" "." (replaceAll "*" ".*" pattern)) with
      | Some test => Some (test fileName)
      | None => None
      end
  end.

Definition matchesSizeFilter (fileSize : Z) (sizeFilter : option SizeFilter) : bool :=
  match sizeFilter with
  | None => true
  | Some {| operator := operator; bytes := bytes |} =>
      if String.eqb operator ">" then gt (ofZ fileSize) bytes
      else if String.eqb operator "<" then lt (ofZ fileSize) bytes
      else if String.eqb operator "=" then strictEq (ofZ fileSize) bytes
      else if String.eqb operator ">=" then ge (ofZ fileSize) bytes
      else if String.eqb operator "<=" then le (ofZ fileSize) bytes
      else true
  end.

(** The answer and the file-system calls made for it. *)
Definition containsSearchText (filePath : path) (searchText : option string)
  : bool * list event :=
  match searchText with
  | None | Some EmptyString => (true, [])
  | Some text =>
      match readFileSync filePath with
      | Some content =>
          (includes (toLowerCase content) (toLowerCase text), [ReadFile filePath])
      | None => (false, [ReadFile filePath])
      end
  end.

(** The condition under "Apply filters": [&&] evaluates left to right and
    stops at the first false operand.  [None] when it throws. *)
Definition applyFilters (item : string) (itemPath : path) (size : Z)
  (options : Options) : option bool * list event :=
  if matchesExtension itemPath options.(extensions) then
    match matchesNamePattern item options.(namePattern) with
    | None => (None, [])
    | Some false => (Some false, [])
    | Some true =>
        if matchesSizeFilter size options.(sizeFilter) then
          let (found, calls) := containsSearchText itemPath options.(searchText) in
          (Some found, calls)
        else (Some false, [])
    end
  else (Some false, []).

Definition fileInfo (item : string) (itemPath : path) (size mtime birthtime : Z)
  (options : Options) : FileRecord :=
  {| name := item;
     path_ := itemPath;
     relativePath := relative options.(baseDir) itemPath;
     size := size;
     sizeHuman := formatBytes (inject_Z size);
     extension := toLowerCase (extnameBase item);
     modified := mtime;
     created := birthtime |}.

(** The [for] loop of [scanDirectory] over the listing of [dirPath], with
    the records pushed and the calls made so far; [recurse] is the recursive
    call on a subdirectory.  The [try] block spans the whole loop, so
    whatever throws inside ends it: the [catch] warns and the records pushed
    so far are what [scanDirectory] returns. *)
Section ForLoop.

Variable recurse : fsnode -> path -> list FileRecord * list event.
Variable dirPath : path.
Variable options : Options.

Fixpoint forLoop (items : list (string * fsnode)) (results : list FileRecord)
  (log : list event) {struct items} : list FileRecord * list event :=
  match items with
  | [] => (results, log)
  | (item, child) :: rest =>
      let itemPath := join dirPath item in
      let log := log ++ [Stat itemPath] in
      match child with
      | Missing => (results, log ++ [Warn dirPath])
      | Dir _ _ =>
          let (subResults, calls) := recurse child itemPath in
          forLoop rest (results ++ subResults) (log ++ calls)
      | File size mtime birthtime =>
          match applyFilters item itemPath size options with
          | (None, calls) => (results, log ++ calls ++ [Warn dirPath])
          | (Some true, calls) =>
              forLoop rest
                (results ++ [fileInfo item itemPath size mtime birthtime options])
                (log ++ calls)
          | (Some false, calls) => forLoop rest results (log ++ calls)
          end
      | Other => forLoop rest results log
      end
  end.

End ForLoop.

(** [scanDirectory]: the records found and the calls made.  [node] is what
    the file system holds at [dirPath]; [readdirSync] throws unless it is a
    readable directory. *)
Fixpoint scanDirectory (node : fsnode) (dirPath : path) (currentDepth : nat)
  (options : Options) {struct node} : list FileRecord * list event :=
  if gt (ofNat currentDepth) options.(depth) then ([], []) else
  match node with
  | Dir true items =>
      forLoop
        (fun child itemPath => scanDirectory child itemPath (S currentDepth) options)
        dirPath options items [] [Readdir dirPath]
  | _ => ([], [Readdir dirPath; Warn dirPath])
  end.

(** *** [main] *)

(** How a run ends: the code passed to [process.exit], the calls and
    messages up to there, and the records of the scan. *)
Record Outcome : Type := mkOutcome {
  exitCode : Z;
  log : list event;
  files : list FileRecord
}.

(** [resolve dirPath] is [path.resolve(process.cwd(), dirPath)] together
    with what the file system holds there ([Missing] when [existsSync] is
    false). *)
Variable resolve : string -> path * fsnode.

(** After the scan [main] only renders ([displayTree], [displayStats],
    [outputJson], [outputCsv] or the file list) and leaves with code 0; the
    rendering is not part of the outcome. *)
Definition main (args : list string) : Outcome :=
  if isHelpRequested args then mkOutcome 0 [Usage] []
  else
    match parseArguments args with
    | Throw message => mkOutcome 1 [Error message; Usage] []
    | Ok options =>
        let (absolutePath, root) :=
          resolve (match options.(dirPath) with Some d => d | None => "" end) in
        match root with
        | Missing =>
            mkOutcome 1 [Exists_ absolutePath; Error "Directory not found"] []
        | Dir _ _ =>
            let options := setBaseDir options absolutePath in
            let (files, calls) := scanDirectory root absolutePath 0 options in
            mkOutcome 0 ([Exists_ absolutePath; Stat absolutePath] ++ calls) files
        | _ =>
            mkOutcome 1
              [Exists_ absolutePath; Stat absolutePath;
               Error "The provided path is not a directory"] []
        end
    end.

End Host.

End Scanner.

(** * Notions used by the statements *)

Module Notions.

Import JS Scanner.
Local Open Scope list_scope.
Local Open Scope string_scope.

Fixpoint allDigits (s : string) : bool :=
  match s with
  | EmptyString => true
  | String c s' => isDigit c && allDigits s'
  end.

(** A non-empty run of decimal digits. *)
Definition digits (s : string) : Prop := s <> "" /\ allDigits s = true.

(** The <number> of a size filter: digits, optionally a point and digits. *)
Inductive sizeNumber : string -> Prop :=
| whole i : digits i -> sizeNumber i
| fractional i f : digits i -> digits f -> sizeNumber (i ++ "." ++ f).

(** The optional <unit> of a size filter, in any letter case. *)
Definition sizeUnit (u : string) : Prop :=
  u = "" \/ In (toUpperCase u) ["KB"; "MB"; "GB"; "B"].

(** The byte count expressed in the unit of index [k]. *)
Fixpoint scaled (bytes : Q) (k : nat) : Q :=
  match k with
  | O => bytes
  | S k' => (scaled bytes k' / 1024)%Q
  end.

(** The index in [units] of the unit [formatBytes] prints. *)
Definition unitIndexOf (bytes : Q) : nat :=
  snd (formatBytesLoop (List.length units - 1) bytes 0).

Definition largestUnitBelow1024 (bytes : Q) (k : nat) : Prop :=
  (k < List.length units)%nat /\ (scaled bytes k < 1024)%Q /\
  forall j, (j < List.length units)%nat -> (scaled bytes j < 1024)%Q -> (j <= k)%nat.

Definition smallestUnitBelow1024 (bytes : Q) (k : nat) : Prop :=
  (k < List.length units)%nat /\ (scaled bytes k < 1024)%Q /\
  forall j, (j < k)%nat -> (1024 <= scaled bytes j)%Q.

Definition noUnitBelow1024 (bytes : Q) : Prop :=
  forall j, (j < List.length units)%nat -> (1024 <= scaled bytes j)%Q.

(** Digits, a point, and exactly two digits. *)
Definition twoDecimals (s : string) : Prop :=
  exists w d1 d2,
    s = w ++ "." ++ String d1 (String d2 "") /\
    digits w /\ isDigit d1 = true /\ isDigit d2 = true.

(** The key under which [displayStats] counts a record. *)
Definition label (file : FileRecord) : string :=
  match file.(extension) with
  | EmptyString => "(no extension)"
  | e => e
  end.

(** The sum of the values of the extension histogram. *)
Definition sumCounts (counts : list (string * nat)) : nat :=
  fold_right (fun entry sum => (snd entry + sum)%nat) 0%nat counts.

(** How many records are counted under [key]. *)
Definition countLabel (key : string) (files : list FileRecord) : nat :=
  List.length (filter (fun file => String.eqb (label file) key) files).

(** The configuration with its four filters switched off. *)
Definition noFilters (options : Options) : Options :=
  setSearchText
    (setSizeFilter (setNamePattern (setExtensions options []) None) None) None.

(** Every directory of the tree can be listed and no [statSync] fails. *)
Fixpoint accessible (node : fsnode) : bool :=
  match node with
  | Missing => false
  | Dir readable items =>
      readable && forallb (fun entry => accessible (snd entry)) items
  | _ => true
  end.

(** How many directories lie between the root and the file. *)
Definition pathDepth (file : FileRecord) : nat :=
  List.length file.(relativePath) - 1.

(** [fileAt node dirPath filePath item size]: in the tree [node] found at
    [dirPath], [filePath] is a regular file named [item] of [size] bytes. *)
Inductive fileAt : fsnode -> path -> path -> string -> Z -> Prop :=
| fileHere readable items dirPath item size mtime birthtime :
    In (item, File size mtime birthtime) items ->
    fileAt (Dir readable items) dirPath (join dirPath item) item size
| fileBelow readable items dirPath item child filePath name size :
    In (item, child) items ->
    fileAt child (join dirPath item) filePath name size ->
    fileAt (Dir readable items) dirPath filePath name size.

(** The options that [parseArguments] knows. *)
Definition knownOptions : list string :=
  ["--depth"; "--ext"; "--name"; "--size"; "--search";
   "--tree"; "--stats"; "--json"; "--csv"; "--help"].

(** No argument can be the directory path: all of them are options. *)
Definition noPathArgument (args : list string) : Prop :=
  forall arg, In arg args -> startsWith arg "--" = true.

(** The depth of the configuration is a number and is not negative. *)
Definition validDepth (options : Options) : Prop :=
  isNaN options.(depth) || lt options.(depth) (Finite 0) = false.

(** No call lists a directory. *)
Definition noTraversal (log : list event) : Prop :=
  forall dirPath, ~ In (Readdir dirPath) log.

(** The unit captured by the size-filter expression, if any. *)
Definition unitOption (u : string) : option string :=
  match u with EmptyString => None | _ => Some u end.

(** The operators the size-filter expression lets through. *)
Definition acceptedOperators : list string := [">"; "<"; "="; ">="; "<="; "=="].

(** The operators the script documents. *)
Definition documentedOperators : list string := [">"; "<"; "="; ">="; "<="].

(** The number of bytes in a unit, bytes when there is none. *)
Definition multiplierOf (u : string) : Z :=
  let unit := match unitOption u with Some x => x | None => "B" end in
  match property (toUpperCase unit) multipliers with
  | Some m => m
  | None => 1%Z
  end.

(** The threshold [parseSizeFilter] computes from a number and a unit. *)
Definition thresholdOf (num u : string) : number :=
  mul (Number num) (ofZ (multiplierOf u)).

(** A small tree for the instances: two files and a directory that holds
    a file and a deeper directory. *)
Definition sampleTree : fsnode :=
  Dir true [("a.txt", File 10 0 0);
            ("b.log", File 2048 0 0);
            ("c", Dir true [("d.txt", File 5 0 0);
                            ("e", Dir true [("deep.txt", File 7 0 0)])])].

Section HostNotions.

Variable hostRegExp : string -> option (string -> bool).
Variable hostToString : Q -> string.
Variable readFileSync : path -> option string.

(** [new RegExp] throws on the name pattern of the configuration. *)
Definition throwing (options : Options) : Prop :=
  matchesNamePattern hostRegExp "" options.(namePattern) = None.

(** The four sub-filters, each on its own, for a record. *)
Definition passes (options : Options) (file : FileRecord) : bool :=
  matchesExtension file.(path_) options.(extensions) &&
  match matchesNamePattern hostRegExp file.(name) options.(namePattern) with
  | Some matched => matched
  | None => false
  end &&
  matchesSizeFilter file.(size) options.(sizeFilter) &&
  fst (containsSearchText readFileSync file.(path_) options.(searchText)).

(** Every regular file of the tree down to the depth bound, in listing
    order, as the record [scanDirectory] builds for it. *)
Fixpoint regularFiles (node : fsnode) (dirPath : path) (currentDepth : nat)
  (options : Options) {struct node} : list FileRecord :=
  if gt (ofNat currentDepth) options.(depth) then [] else
  match node with
  | Dir _ items =>
      flat_map
        (fun entry =>
           let itemPath := join dirPath (fst entry) in
           match snd entry with
           | File size mtime birthtime =>
               [fileInfo hostToString (fst entry) itemPath size mtime birthtime options]
           | Dir _ _ => regularFiles (snd entry) itemPath (S currentDepth) options
           | _ => []
           end)
        items
  | _ => []
  end.

End HostNotions.

End Notions.

(** * Notions used by the further properties *)

Module MoreNotions.

Import JS Scanner Notions.
Local Open Scope list_scope.
Local Open Scope string_scope.

(** The message [parseSizeFilter] throws. *)
Definition invalidSizeFilter : string :=
  "Invalid size filter format. Use: >,<,=,>=,<= followed by number and optional unit (KB,MB,GB).".

(** A size filter with an integer threshold. *)
Definition sizeFilterOf (op : string) (threshold : Z) : option SizeFilter :=
  Some {| operator := op; bytes := Finite (inject_Z threshold) |}.

(** A string that [toLowerCase] leaves unchanged. *)
Definition lowercase (s : string) : Prop := toLowerCase s = s.

(** An entry of an extension list that is not empty and has no leading
    dot. *)
Definition dotless (ext : string) : Prop :=
  ext <> "" /\ startsWith ext "." = false.

(** [stats.isDirectory()] *)
Definition isDirectory (node : fsnode) : bool :=
  match node with Dir _ _ => true | _ => false end.

(** What a call of [scanDirectory] can log: listings, stats, warnings, and
    content reads. *)
Definition scanEvent (searching : bool) (e : event) : Prop :=
  match e with
  | Readdir _ | Stat _ | Warn _ => True
  | ReadFile _ => searching = true
  | _ => False
  end.

(** *** Name patterns *)

(** The source [matchesNamePattern] hands to [new RegExp]:
    [pattern.replace(/\*/g, '.*').replace(/\?/g, '.')]. *)
Definition translate (pattern : string) : string :=
  replaceAll "?" "." (replaceAll "*" ".*" pattern).

(** A pattern of ordinary characters only: no wildcard and no character
    that is special in a regular expression. *)
Definition plain (pattern : string) : Prop :=
  forall c, In c (list_ascii_of_string pattern) -> isSyntaxChar c = false.

(** A pattern of ordinary characters, dots and the wildcards [*] and [?]. *)
Definition wildcardPattern (pattern : string) : Prop :=
  forall c, In c (list_ascii_of_string pattern) ->
    isSyntaxChar c = false \/ c = "*"%char \/ c = "?"%char \/ c = "."%char.

(** What such a pattern asks for, character by character: [*] any run of
    characters, [?] and [.] any one character, another character itself. *)
Fixpoint atomsOf (pattern : string) : list (atom * bool) :=
  match pattern with
  | EmptyString => []
  | String c rest =>
      (if Ascii.eqb c "*" then (AnyChar, true)
       else if Ascii.eqb c "?" || Ascii.eqb c "." then (AnyChar, false)
       else (Lit c, false)) :: atomsOf rest
  end.

(** A run of characters matching [a], then [its]: the starred item of
    [matchHere]. *)
Fixpoint starMatch (a : atom) (its : list (atom * bool)) (s : string) : bool :=
  matchHere its s ||
  match s with
  | String d s' => atomMatches a d && starMatch a its s'
  | EmptyString => false
  end.

(** *** The options [parseArguments] builds *)

(** A property either kept its value or got one that satisfies [P]. *)
Definition changed {A : Type} (before after : A) (P : A -> Prop) : Prop :=
  after = before \/ P after.

(** An argument the loop can take as the value of an option. *)
Definition optionValue (args : list string) (v : string) : Prop :=
  In v args /\ v <> "" /\ startsWith v "--" = false.

(** What the loop of [parseArguments] can have made of the options
    [before] when it has gone through [args]. *)
Definition fromArguments (args : list string) (before after : Options) : Prop :=
  changed (dirPath before) (dirPath after)
    (fun p => exists d, p = Some d /\ In d args /\ startsWith d "--" = false) /\
  changed (depth before) (depth after)
    (fun x => exists v, optionValue args v /\ x = Number v /\
                        isNaN x || lt x (Finite 0) = false) /\
  changed (extensions before) (extensions after)
    (fun l => exists v, optionValue args v /\
                        l = map (fun ext => toLowerCase (trim ext)) (split "," v)) /\
  changed (namePattern before) (namePattern after)
    (fun p => exists v, optionValue args v /\ p = Some v) /\
  changed (sizeFilter before) (sizeFilter after)
    (fun f => exists v g, optionValue args v /\ parseSizeFilter v = Ok g /\ f = Some g) /\
  changed (searchText before) (searchText after)
    (fun p => exists v, optionValue args v /\ p = Some v) /\
  showTree after = showTree before || existsb (String.eqb "--tree") args /\
  showStats after = showStats before || existsb (String.eqb "--stats") args /\
  outputJson after = outputJson before || existsb (String.eqb "--json") args /\
  outputCsv after = outputCsv before || existsb (String.eqb "--csv") args /\
  baseDir after = baseDir before.

(** *** Configuration errors *)

(** The options that take a value. *)
Definition valueOptions : list string :=
  ["--depth"; "--ext"; "--name"; "--size"; "--search"].

Definition takesValue (arg : string) : bool :=
  existsb (String.eqb arg) valueOptions.

(** The arguments that are neither an option nor the value of one. *)
Fixpoint positionals (args : list string) : list string :=
  match args with
  | [] => []
  | arg :: rest =>
      if startsWith arg "--" then
        if takesValue arg then
          match rest with
          | [] => []
          | _ :: rest' => positionals rest'
          end
        else positionals rest
      else arg :: positionals rest
  end.

(** An argument that starts with [--] and is none of the known options. *)
Definition unknownOption (args : list string) : Prop :=
  exists arg, In arg args /\ startsWith arg "--" = true /\ ~ In arg knownOptions.

(** An option that takes a value stands last, or before an empty argument,
    or before another option. *)
Definition missingValue (args : list string) : Prop :=
  exists pre opt rest,
    args = (pre ++ opt :: rest)%list /\ In opt valueOptions /\
    match rest with
    | [] => True
    | v :: _ => v = "" \/ startsWith v "--" = true
    end.

(** [--depth] before something that is not a number, or a negative one. *)
Definition badDepth (args : list string) : Prop :=
  exists pre v rest,
    args = (pre ++ "--depth" :: v :: rest)%list /\
    (isNaN (Number v) = true \/ lt (Number v) (Finite 0) = true).

(** [--size] before something [parseSizeFilter] rejects. *)
Definition badSize (args : list string) : Prop :=
  exists pre v rest message,
    args = (pre ++ "--size" :: v :: rest)%list /\ parseSizeFilter v = Throw message.

(** No directory path: every positional argument is empty. *)
Definition missingPath (args : list string) : Prop :=
  forall p, In p (positionals args) -> p = "".

(** A positional argument after one that is not empty; with [have] the
    directory path is there before the first argument. *)
Definition unexpectedArgument (have : bool) (args : list string) : Prop :=
  exists pre q post,
    positionals args = (pre ++ q :: post)%list /\
    (have = true \/ exists p, In p pre /\ p <> "").

Definition secondPath (args : list string) : Prop := unexpectedArgument false args.

(** What the usage calls wrong arguments: a bad value of an option, an
    unknown option, no path, or a second path. *)
Definition configurationError (args : list string) : Prop :=
  unknownOption args \/ missingValue args \/ badDepth args \/ badSize args \/
  missingPath args \/ secondPath args.

(** *** Size buckets *)

(** The four ranges of the size distribution: below 1 KB, from 1 KB to
    below 1 MB, from 1 MB to below 1 GB, and from 1 GB on. *)
Inductive bucket : Type := Small | Medium | Large | Huge.

Definition inBucket (b : bucket) (size : Z) : bool :=
  match b with
  | Small => (size <? 1024)%Z
  | Medium => (1024 <=? size)%Z && (size <? 1048576)%Z
  | Large => (1048576 <=? size)%Z && (size <? 1073741824)%Z
  | Huge => (1073741824 <=? size)%Z
  end.

(** The number of records whose size lies in a bucket. *)
Definition countBucket (b : bucket) (files : list FileRecord) : nat :=
  List.length (filter (fun file => inBucket b file.(size)) files).

(** *** The extension histogram *)

(** The elements of a list, each once, in the order of their first
    occurrence. *)
Fixpoint firstSeen (l : list string) : list string :=
  match l with
  | [] => []
  | x :: l' => x :: filter (fun y => negb (String.eqb y x)) (firstSeen l')
  end.

(** *** ASCII strings *)

(** A string of ASCII characters: the strings on which the case mapping of
    [JS] is that of JavaScript. *)
Definition asciiOnly (s : string) : Prop :=
  forall c, In c (list_ascii_of_string s) -> (code c < 128)%N.

End MoreNotions.

(** * What is printed *)

Module Rendering.

Import JS Scanner.
Local Open Scope string_scope.
Local Open Scope list_scope.

(** A relative path as text, with the POSIX separator. *)
Definition pathString (p : path) : string := String.concat "/" p.

(** [s.padStart(targetLength, pad)] for a one-character [pad]. *)
Definition padStart (s : string) (targetLength : nat) (pad : ascii) : string :=
  (string_of_list_ascii (repeat pad (targetLength - String.length s)) ++ s)%string.

(** [String(index + 1).padStart(3, '0')] *)
Definition lineNumber (index : nat) : string :=
  padStart (decimalString (Z.of_nat index + 1)%Z) 3%nat "0".

(** The line of the file list for the record at [index]. *)
Definition fileLine (file : FileRecord) (index : nat) : string :=
  (lineNumber index ++ ": " ++ pathString file.(relativePath)
   ++ " (" ++ file.(sizeHuman) ++ ")")%string.

(** [array.forEach((element, index) => ...)], with what each call prints. *)
Fixpoint forEach {A B : Type} (f : A -> nat -> B) (l : list A) (index : nat) : list B :=
  match l with
  | [] => []
  | x :: l' => f x index :: forEach f l' (S index)
  end.

(** The lines [main] prints under "Found Files". *)
Definition fileList (files : list FileRecord) : list string :=
  match files with
  | [] => ["No files found matching the criteria."]
  | _ => forEach fileLine files 0%nat
  end.

(** The sections [main] prints after the scan, in order. *)
Inductive output : Type :=
| TreeOutput
| StatsOutput
| JsonOutput
| CsvOutput
| FileListOutput.

Definition outputs (options : Options) : list output :=
  (if options.(showTree) then [TreeOutput] else []) ++
  (if options.(showStats) then [StatsOutput] else []) ++
  (if options.(Scanner.outputJson) then [JsonOutput]
   else if options.(Scanner.outputCsv) then [CsvOutput]
   else if negb options.(showTree) && negb options.(showStats) then [FileListOutput]
   else []).

(** [Object.entries(extensionCounts).sort(([,a], [,b]) => b - a)]: the
    entries by descending count; the sort is stable, so entries with the
    same count keep their order: an entry, inserted in front of the sorted
    later ones, goes before the first of them that has no larger count. *)
Fixpoint insertByCount (entry : string * nat) (sorted : list (string * nat))
  : list (string * nat) :=
  match sorted with
  | [] => [entry]
  | e :: rest =>
      if (snd e <=? snd entry)%nat then entry :: sorted
      else e :: insertByCount entry rest
  end.

Definition sortByCount (entries : list (string * nat)) : list (string * nat) :=
  fold_right insertByCount [] entries.

(** The lines under "File Extensions". *)
Definition extensionLines (files : list FileRecord) : list string :=
  map (fun entry =>
         (fst entry ++ ": " ++ decimalString (Z.of_nat (snd entry)) ++ " files")%string)
    (sortByCount (displayStats files).(extensionCounts)).

Section Dates.

(** [Date.prototype.toISOString], of the host. *)
Variable toISOString : Z -> string.

Definition quoted (s : string) : string :=
  String "034" (s ++ String "034" EmptyString).

(** A row of [outputCsv]: the fields joined by commas, as they are.  A size
    is a whole number below 10^21, which [String] writes with all its
    digits. *)
Definition csvRow (file : FileRecord) : string :=
  String.concat ","
    [quoted file.(name);
     quoted (pathString file.(relativePath));
     decimalString file.(size);
     quoted file.(extension);
     quoted (toISOString file.(modified));
     quoted (toISOString file.(created))].

Definition outputCsv (files : list FileRecord) : list string :=
  String.concat "," ["name"; "relativePath"; "size"; "extension"; "modified"; "created"]
  :: map csvRow files.

End Dates.

(** The number of occurrences of a character. *)
Fixpoint occurrences (c : ascii) (s : string) : nat :=
  match s with
  | EmptyString => 0%nat
  | String a s' => ((if Ascii.eqb a c then 1 else 0) + occurrences c s')%nat
  end.

End Rendering.

Import JS Scanner Notions MoreNotions.
Local Open Scope list_scope.
Local Open Scope string_scope.

(** * Properties *)

(** ** The host model on known values *)

Example Number_examples :
  map Number ["12.5"; " 42 "; "1e3"; ".5"; "0x1F"; ""; "abc"; "-3"; "1e400"; "Infinity"]
  = [Finite (25 # 2); Finite 42; Finite 1000; Finite (1 # 2); Finite 31;
     Finite 0; NaN; Finite (-3); Infinity false; Infinity false].
Proof. vm_compute. reflexivity. Qed.

(** Decimal literals are rounded to the nearest double. *)
Example Number_rounds :
  Number "0.1" = Finite (3602879701896397 # 36028797018963968) /\
  Number "9007199254740993" = Finite 9007199254740992.
Proof. split; vm_compute; reflexivity. Qed.

Example extname_examples :
  map extnameBase ["index.js"; "a.b.c"; ".bashrc"; ".."; "file."; "noext"; "App.JS"]
  = [".js"; ".c"; ""; ""; "."; ""; ".JS"].
Proof. reflexivity. Qed.

Example relative_examples :
  relative ["home"; "u"] ["home"; "u"; "c"; "d.txt"] = ["c"; "d.txt"] /\
  relative ["home"; "u"; "x"] ["home"; "u"; "c"; "d.txt"] = [".."; "c"; "d.txt"].
Proof. split; reflexivity. Qed.

Example toFixed2_examples :
  map (toFixed2 (fun _ => "")) [0; 3 # 2; 1 # 3; 2 # 3; 1023999 # 1000; - (1 # 3)]%Q
  = ["0.00"; "1.50"; "0.33"; "0.67"; "1024.00"; "-0.33"].
Proof. vm_compute. reflexivity. Qed.

(** The scenario of the specification: "a.txt" (10 bytes), "b.log" (2048
    bytes, containing ERROR) and "c/d.txt" (5 bytes). *)
Example end_to_end_scenario :
  let readFileSync := fun filePath : path =>
    if list_eq_dec string_dec filePath ["root"; "b.log"]
    then Some "line 1: ERROR disk full" else Some "nothing here" in
  let run := main (fun _ => None) (fun _ => "") readFileSync
               (fun _ => (["root"], sampleTree)) in
  map relativePath (files (run ["./root"; "--depth"; "1"; "--ext"; ".txt"]))
    = [["a.txt"]; ["c"; "d.txt"]] /\
  totalSize (displayStats (files (run ["./root"; "--depth"; "1"; "--ext"; ".txt"])))
    = 15%Z /\
  map relativePath (files (run ["./root"; "--search"; "ERROR"])) = [["b.log"]] /\
  exitCode (run ["./root"; "--ext"; ".none"]) = 0%Z /\
  files (run ["./root"; "--ext"; ".none"]) = [].
Proof. repeat split; vm_compute; reflexivity. Qed.

(** ** Strings *)

Lemma append_assoc (a b c : string) : (a ++ b) ++ c = a ++ (b ++ c).
Proof. induction a as [|x a IH]; simpl; [reflexivity | now rewrite IH]. Qed.

(** [span] stops exactly where the digits stop. *)
Lemma span_digits (i rest : string) :
  allDigits i = true ->
  match rest with String c _ => isDigit c = false | EmptyString => True end ->
  span isDigit (i ++ rest) = (i, rest).
Proof.
  intros Hi Hrest. induction i as [|c i IH]; simpl in *.
  - destruct rest as [|c r]; [reflexivity|]. simpl. now rewrite Hrest.
  - apply andb_prop in Hi as [Hc Hi]. rewrite Hc, (IH Hi). reflexivity.
Qed.

(** A character that upper-cases to a letter is neither a digit nor a dot. *)
Lemma letter_not_digit (d : ascii) :
  isUpper (toUpperChar d) = true -> isDigit d = false /\ Ascii.eqb d "." = false.
Proof.
  destruct d as [[] [] [] [] [] [] [] []]; vm_compute; intros H;
    first [discriminate H | split; reflexivity].
Qed.

Lemma sizeUnit_start (u : string) :
  sizeUnit u ->
  match u with
  | String c _ => isDigit c = false /\ Ascii.eqb c "." = false
  | EmptyString => True
  end.
Proof.
  intros [-> | Hin]; [exact I|].
  destruct u as [|c u']; [exact I|].
  apply letter_not_digit.
  simpl in Hin.
  destruct Hin as [H | [H | [H | [H | []]]]];
    injection H as H _; rewrite <- H; reflexivity.
Qed.

Lemma sizeUnit_recognised (u : string) :
  sizeUnit u -> u <> "" ->
  existsb (String.eqb (toUpperCase u)) ["KB"; "MB"; "GB"; "B"] = true.
Proof.
  intros [-> | Hin] Hne; [congruence|].
  apply existsb_exists. exists (toUpperCase u). split; [exact Hin|].
  apply String.eqb_refl.
Qed.

Lemma span_inv (s i r : string) :
  span isDigit s = (i, r) ->
  s = i ++ r /\ allDigits i = true /\
  match r with String c _ => isDigit c = false | EmptyString => True end.
Proof.
  revert i r. induction s as [|c s IH]; intros i r; simpl.
  - intros [= <- <-]. now repeat split.
  - destruct (isDigit c) eqn:Ec.
    + destruct (span isDigit s) as [a b]. intros [= <- <-].
      destruct (IH a b eq_refl) as (-> & Ha & Hb).
      simpl. rewrite Ec, Ha. now repeat split.
    + intros [= <- <-]. now repeat split.
Qed.

Lemma afterChar_inv (c : ascii) (s t : string) :
  afterChar c s = Some t -> s = String c t.
Proof.
  destruct s as [|a s]; simpl; [discriminate|].
  destruct (Ascii.eqb_spec a c) as [-> | _]; [|discriminate].
  now intros [= ->].
Qed.

Lemma afterChar_other (c a : ascii) (s : string) :
  Ascii.eqb a c = false -> afterChar c (String a s) = None.
Proof. intros H. simpl. now rewrite H. Qed.

Lemma digit_not_mark (d : ascii) :
  isDigit d = true -> Ascii.eqb d "=" = false /\ Ascii.eqb d "." = false.
Proof.
  destruct d as [[] [] [] [] [] [] [] []]; vm_compute; intros H;
    first [discriminate H | split; reflexivity].
Qed.

Lemma unitOption_append (u : string) :
  match unitOption u with Some x => x | None => "" end = u.
Proof. now destruct u. Qed.

(** The number and the unit of a well-formed filter are captured whole. *)
Lemma sizeAndUnit_accepts (num u : string) :
  sizeNumber num -> sizeUnit u ->
  sizeAndUnit (num ++ u) = Some (num, unitOption u).
Proof.
  intros Hnum Hu.
  pose proof (sizeUnit_start Hu) as Hstart.
  pose proof (sizeUnit_recognised Hu) as Hrec.
  assert (Hdigit : match u with
                   | String c _ => isDigit c = false
                   | EmptyString => True
                   end) by (destruct u; [exact I | apply Hstart]).
  assert (Hend : match u with
                 | EmptyString => Some (num, None)
                 | _ => if existsb (String.eqb (toUpperCase u)) ["KB"; "MB"; "GB"; "B"]
                        then Some (num, Some u) else None
                 end = Some (num, unitOption u)).
  { destruct u as [|d u']; [reflexivity|]. now rewrite Hrec. }
  unfold sizeAndUnit.
  destruct Hnum as [i [Hne Hi] | i f [Hne Hi] [Hfne Hf]].
  - rewrite (span_digits i u Hi Hdigit).
    destruct i as [|c i]; [congruence|].
    assert (Hnone : afterChar "." u = None).
    { destruct u as [|d u']; [reflexivity|]. apply afterChar_other, Hstart. }
    rewrite Hnone. exact Hend.
  - rewrite append_assoc. cbn [append].
    rewrite (span_digits i (String "." (f ++ u)) Hi) by reflexivity.
    destruct i as [|c i]; [congruence|].
    cbn [afterChar Ascii.eqb Bool.eqb]. cbv iota.
    rewrite (span_digits f u Hf Hdigit).
    destruct f as [|e f]; [congruence|]. exact Hend.
Qed.

(** Whatever is captured is a number followed by a unit. *)
Lemma sizeAndUnit_inv (r num : string) (unit : option string) :
  sizeAndUnit r = Some (num, unit) ->
  exists u, unit = unitOption u /\ sizeNumber num /\ sizeUnit u /\ r = num ++ u.
Proof.
  unfold sizeAndUnit.
  destruct (span isDigit r) as [i r2] eqn:Ei.
  apply span_inv in Ei as (-> & Hi & Hr2).
  destruct i as [|c i]; [discriminate|].
  assert (Hdigits : digits (String c i)) by (split; [discriminate | exact Hi]).
  assert (Hend : forall n r3,
             match r3 with
             | EmptyString => Some (n, None)
             | _ => if existsb (String.eqb (toUpperCase r3)) ["KB"; "MB"; "GB"; "B"]
                    then Some (n, Some r3) else None
             end = Some (num, unit) ->
             n = num /\ unit = unitOption r3 /\ sizeUnit r3).
  { intros n r3. destruct r3 as [|d r3'].
    - intros [= <- <-]. repeat split. now left.
    - destruct (existsb _ _) eqn:Ex; [|discriminate].
      intros [= <- <-]. repeat split. right.
      apply existsb_exists in Ex as (x & Hin & Hx).
      apply String.eqb_eq in Hx. now rewrite Hx. }
  destruct (afterChar "." r2) as [t|] eqn:Edot.
  - apply afterChar_inv in Edot as ->.
    destruct (span isDigit t) as [f r] eqn:Ef.
    apply span_inv in Ef as (-> & Hf & Hr).
    destruct f as [|e f].
    + intros H.
      destruct (Hend (String c i) (String "." r) H) as (<- & -> & Hu).
      exists (String "." r). repeat split; [now apply whole | exact Hu].
    + intros H.
      destruct (Hend (String c i ++ "." ++ String e f) r H) as (<- & -> & Hu).
      exists r. repeat split; [|exact Hu|].
      * apply (fractional Hdigits). split; [discriminate | exact Hf].
      * rewrite !append_assoc. reflexivity.
  - intros H. destruct (Hend (String c i) r2 H) as (<- & -> & Hu).
    exists r2. repeat split; [now apply whole | exact Hu].
Qed.

(** The strings [parseSizeFilter] lets through are exactly those made of
    one of six operators, a number and an optional unit; the result keeps
    the operator and multiplies the number by the unit. *)
Lemma sizeFilterMatch_accepts (op num u : string) :
  In op acceptedOperators -> sizeNumber num -> sizeUnit u ->
  sizeFilterMatch (op ++ num ++ u) = Some (op, num, unitOption u).
Proof.
  intros Hop Hnum Hu.
  assert (Hfirst : afterChar "=" (num ++ u) = None).
  { destruct Hnum as [i [Hne Hi] | i f [Hne Hi] _];
      (destruct i as [|d i]; [congruence|]);
      simpl in Hi; apply andb_prop in Hi as [Hd _];
      apply afterChar_other, digit_not_mark, Hd. }
  pose proof (sizeAndUnit_accepts Hnum Hu) as Htail.
  unfold acceptedOperators in Hop. simpl in Hop.
  destruct Hop as [<- | [<- | [<- | [<- | [<- | [<- | []]]]]]];
    cbn [append sizeFilterMatch Ascii.eqb Bool.eqb orb afterChar];
    cbv iota; rewrite ?Hfirst, Htail; reflexivity.
Qed.

Lemma sizeFilterMatch_inv (s op num : string) (unit : option string) :
  sizeFilterMatch s = Some (op, num, unit) ->
  exists u,
    unit = unitOption u /\ In op acceptedOperators /\
    sizeNumber num /\ sizeUnit u /\ s = op ++ num ++ u.
Proof.
  unfold sizeFilterMatch. destruct s as [|c r0]; [discriminate|].
  destruct (Ascii.eqb c ">" || Ascii.eqb c "<" || Ascii.eqb c "=") eqn:Ec;
    [|discriminate].
  assert (Hc : c = ">"%char \/ c = "<"%char \/ c = "="%char).
  { apply orb_prop in Ec as [Ec | Ec]; [apply orb_prop in Ec as [Ec | Ec]|];
      apply Ascii.eqb_eq in Ec; tauto. }
  destruct (afterChar "=" r0) as [r|] eqn:Eeq.
  - apply afterChar_inv in Eeq as ->.
    destruct (sizeAndUnit r) as [[sizeStr unit']|] eqn:Et; [|discriminate].
    intros [= <- <- <-].
    apply sizeAndUnit_inv in Et as (u & -> & Hnum & Hu & ->).
    exists u. repeat split; try assumption.
    destruct Hc as [-> | [-> | ->]]; simpl; tauto.
  - destruct (sizeAndUnit r0) as [[sizeStr unit']|] eqn:Et; [|discriminate].
    intros [= <- <- <-].
    apply sizeAndUnit_inv in Et as (u & -> & Hnum & Hu & ->).
    exists u. repeat split; try assumption.
    destruct Hc as [-> | [-> | ->]]; simpl; tauto.
Qed.

(** ** Size filters *)

Lemma parseSizeFilter_accepts (op num u : string) :
  In op acceptedOperators -> sizeNumber num -> sizeUnit u ->
  parseSizeFilter (op ++ num ++ u)
  = Ok {| operator := op; bytes := thresholdOf num u |}.
Proof.
  intros Hop Hnum Hu. unfold parseSizeFilter.
  now rewrite (sizeFilterMatch_accepts Hop Hnum Hu).
Qed.

Lemma parseSizeFilter_inv (s : string) (filter : SizeFilter) :
  parseSizeFilter s = Ok filter ->
  exists op num u,
    In op acceptedOperators /\ sizeNumber num /\ sizeUnit u /\
    s = op ++ num ++ u /\
    filter = {| operator := op; bytes := thresholdOf num u |}.
Proof.
  unfold parseSizeFilter.
  destruct (sizeFilterMatch s) as [[[op num] unit]|] eqn:E; [|discriminate].
  apply sizeFilterMatch_inv in E as (u & -> & Hop & Hnum & Hu & ->).
  intros [= <-]. exists op, num, u. now repeat split.
Qed.

(** The units are powers of 1024, in any letter case. *)
Lemma multiplierOf_units (u : string) :
  (u = "" -> multiplierOf u = 1%Z) /\
  (toUpperCase u = "B" -> multiplierOf u = 1%Z) /\
  (toUpperCase u = "KB" -> multiplierOf u = 1024%Z) /\
  (toUpperCase u = "MB" -> multiplierOf u = (1024 * 1024)%Z) /\
  (toUpperCase u = "GB" -> multiplierOf u = (1024 * 1024 * 1024)%Z).
Proof.
  unfold multiplierOf.
  repeat split; intros H; [now subst u | | | | ];
    (destruct u as [|c u']; [discriminate H|]);
    cbn [unitOption]; rewrite H; reflexivity.
Qed.

Lemma matchesSizeFilter_double_equals (fileSize : Z) (threshold : number) :
  matchesSizeFilter fileSize (Some {| operator := "=="; bytes := threshold |}) = true.
Proof. reflexivity. Qed.

(** C10.  Every string made of a doubled equals sign, a number and an
    optional unit is accepted by [parseSizeFilter]; the operator of the
    result is the doubled equals sign, which is not a documented operator
    and which no case of [matchesSizeFilter] names, so the size test
    answers [true] for every file size. *)
Theorem double_equals_filter_passes_every_size (num u : string) :
  sizeNumber num -> sizeUnit u ->
  parseSizeFilter ("==" ++ num ++ u)
    = Ok {| operator := "=="; bytes := thresholdOf num u |} /\
  ~ In "==" documentedOperators /\
  forall fileSize,
    matchesSizeFilter fileSize
      (Some {| operator := "=="; bytes := thresholdOf num u |}) = true.
Proof.
  intros Hnum Hu. split; [|split].
  - apply parseSizeFilter_accepts; [|exact Hnum | exact Hu].
    unfold acceptedOperators. simpl. tauto.
  - intros H. unfold documentedOperators in H.
    repeat (destruct H as [H | H]; [discriminate H|]). exact H.
  - intros fileSize. apply matchesSizeFilter_double_equals.
Qed.

Lemma double_equals_filter_passes_every_size_witness :
  sizeNumber "100" /\ sizeUnit "" /\
  parseSizeFilter "==100" = Ok {| operator := "=="; bytes := Finite 100 |} /\
  forall fileSize,
    matchesSizeFilter fileSize
      (Some {| operator := "=="; bytes := thresholdOf "100" "" |}) = true.
Proof.
  assert (Hnum : sizeNumber "100")
    by (apply whole; split; [discriminate | reflexivity]).
  assert (Hu : sizeUnit "") by (left; reflexivity).
  split; [exact Hnum|]. split; [exact Hu|].
  destruct (double_equals_filter_passes_every_size Hnum Hu) as (Hparse & _ & Hall).
  split; [exact Hparse | exact Hall].
Defined.

(** C4.  [parseSizeFilter] on the three strings of the specification, and
    on a string whose operator is none of the five documented ones: the
    doubled equals sign is not rejected. *)
Theorem parseSizeFilter_accepts_undocumented_operator :
  parseSizeFilter ">1MB" = Ok {| operator := ">"; bytes := Finite 1048576 |} /\
  parseSizeFilter "<=500" = Ok {| operator := "<="; bytes := Finite 500 |} /\
  parseSizeFilter "bogus"
    = Throw "Invalid size filter format. Use: >,<,=,>=,<= followed by number and optional unit (KB,MB,GB)." /\
  parseSizeFilter "==100" = Ok {| operator := "=="; bytes := Finite 100 |} /\
  ~ In "==" documentedOperators.
Proof.
  repeat split; try (vm_compute; reflexivity).
  intros H. unfold documentedOperators in H.
  repeat (destruct H as [H | H]; [discriminate H|]). exact H.
Qed.

(** ** Name patterns *)

(** C3.  [matchesNamePattern] on the examples of the specification, and on
    three inputs where the file name does not match the glob as a whole:
    the expression is searched for anywhere in the name, and a dot of the
    pattern stands for any character. *)
Theorem matchesNamePattern_is_unanchored_search
  (hostRegExp : string -> option (string -> bool)) :
  (forall fileName, matchesNamePattern hostRegExp fileName None = Some true) /\
  matchesNamePattern hostRegExp "app.test.js" (Some "*.test.*") = Some true /\
  matchesNamePattern hostRegExp "app.js" (Some "*.test.*") = Some false /\
  matchesNamePattern hostRegExp "config.json" (Some "config.*") = Some true /\
  matchesNamePattern hostRegExp "snapp.js" (Some "app*") = Some true /\
  matchesNamePattern hostRegExp "myconfig.json.bak" (Some "config.*") = Some true /\
  matchesNamePattern hostRegExp "axb" (Some "a.b") = Some true.
Proof. repeat split. Qed.

(** ** formatBytes *)

Lemma Qle_bool_false (x y : Q) : Qle_bool x y = false <-> (y < x)%Q.
Proof.
  split; intros H.
  - apply Qnot_le_lt. intros Hle. apply Qle_bool_iff in Hle. congruence.
  - destruct (Qle_bool x y) eqn:E; [|reflexivity].
    apply Qle_bool_iff in E. lra.
Qed.

(** The loop walks up from the unit it is given to the first one whose
    scaled value is below 1024, or to the last unit. *)
Lemma formatBytesLoop_spec (bytes : Q) (above idx : nat) :
  exists k,
    formatBytesLoop above (scaled bytes idx) idx = (scaled bytes k, k) /\
    (idx <= k <= idx + above)%nat /\
    (forall j, (idx <= j < k)%nat -> (1024 <= scaled bytes j)%Q) /\
    ((scaled bytes k < 1024)%Q \/ k = (idx + above)%nat).
Proof.
  revert idx. induction above as [|above IH]; intros idx; simpl.
  - exists idx. split; [reflexivity|]. split; [lia|]. split; [intros j Hj; lia|].
    right; lia.
  - destruct (Qle_bool 1024 (scaled bytes idx)) eqn:E.
    + destruct (IH (S idx)) as (k & Hk & Hr & Hb & Hl).
      exists k. simpl in Hk. rewrite Hk.
      split; [reflexivity|]. split; [lia|]. split.
      * intros j Hj. destruct (Nat.eq_dec j idx) as [-> | Hne].
        -- now apply Qle_bool_iff.
        -- apply Hb. lia.
      * destruct Hl as [Hl | Hl]; [left; exact Hl | right; lia].
    + exists idx. split; [reflexivity|]. split; [lia|]. split; [intros j Hj; lia|].
      left. now apply Qle_bool_false.
Qed.

Lemma scaled_bounds (bytes : Q) (k : nat) :
  (0 <= bytes)%Q -> (0 <= scaled bytes k <= bytes)%Q.
Proof.
  intros H. induction k as [|k IH]; simpl; [lra|].
  destruct IH as [IH1 IH2]. split.
  - apply Qle_shift_div_l; lra.
  - apply Qle_shift_div_r; lra.
Qed.

Lemma toFixed2_small (toString : Q -> string) (x : Q) :
  (0 <= x)%Q -> (x < inject_Z (10 ^ 21))%Q ->
  toFixed2 toString x = toFixed2Small x.
Proof.
  intros H0 H1. unfold toFixed2.
  assert (E : Qle_bool (inject_Z (10 ^ 21)) (Qabs x) = false).
  { apply Qle_bool_false. rewrite (Qabs_pos x H0). exact H1. }
  rewrite E.
  destruct (x ?= 0)%Q eqn:C; try reflexivity.
  apply Qlt_alt in C. lra.
Qed.

Lemma isDigit_digitChar (d : Z) : (0 <= d <= 9)%Z -> isDigit (digitChar d) = true.
Proof.
  intros H.
  assert (D : (d = 0 \/ d = 1 \/ d = 2 \/ d = 3 \/ d = 4 \/
               d = 5 \/ d = 6 \/ d = 7 \/ d = 8 \/ d = 9)%Z) by lia.
  repeat (destruct D as [-> | D]; [reflexivity|]). subst d. reflexivity.
Qed.

Lemma allDigits_string_of_uint (d : Decimal.uint) :
  allDigits (NilEmpty.string_of_uint d) = true.
Proof. induction d; simpl; auto. Qed.

Lemma digits_decimalString (n : Z) : digits (decimalString n).
Proof.
  unfold decimalString, NilZero.string_of_uint.
  destruct (N.to_uint (Z.to_N n)) as [|u|u|u|u|u|u|u|u|u|u];
    (split; [discriminate | try reflexivity]);
    simpl; apply allDigits_string_of_uint.
Qed.

Lemma twoDecimals_toFixed2Small (x : Q) : twoDecimals (toFixed2Small x).
Proof.
  unfold toFixed2Small, twoDecimals.
  set (n := Qfloor (x * 100 + (1 # 2))).
  exists (decimalString (n / 100)), (digitChar (n mod 100 / 10)), (digitChar (n mod 10)).
  split; [reflexivity|]. split; [apply digits_decimalString|].
  split; apply isDigit_digitChar.
  - pose proof (Z.mod_pos_bound n 100 ltac:(lia)) as Hm.
    split; [apply Z.div_pos; lia|].
    assert (n mod 100 / 10 < 10)%Z by (apply Z.div_lt_upper_bound; lia). lia.
  - pose proof (Z.mod_pos_bound n 10 ltac:(lia)). lia.
Qed.

(** C7, as amended.  For a byte count that a JavaScript number holds
    exactly, [formatBytes] prints the value in the smallest unit of B, KB,
    MB, GB whose scaled value is below 1024 (in GB when there is none),
    with exactly two decimals. *)
Theorem formatBytes_smallest_unit (hostToString : Q -> string) (bytes : Z) :
  (0 <= bytes < 2 ^ 53)%Z ->
  let b := inject_Z bytes in
  let k := unitIndexOf b in
  (smallestUnitBelow1024 b k \/ (noUnitBelow1024 b /\ k = 3%nat)) /\
  formatBytes hostToString b
    = toFixed2Small (scaled b k) ++ " " ++ nth k units "" /\
  twoDecimals (toFixed2Small (scaled b k)) /\
  formatBytes hostToString 0 = "0.00 B" /\
  formatBytes hostToString 1024 = "1.00 KB" /\
  formatBytes hostToString 1536 = "1.50 KB".
Proof.
  intros Hb b k.
  assert (Hb0 : (0 <= b)%Q).
  { unfold b. change (inject_Z 0 <= inject_Z bytes)%Q. rewrite <- Zle_Qle. lia. }
  assert (Hb1 : (b < inject_Z (10 ^ 21))%Q).
  { unfold b. rewrite <- Zlt_Qlt. lia. }
  destruct (formatBytesLoop_spec b (List.length units - 1) 0)
    as (k' & Hloop & Hrange & Hbelow & Hlast).
  assert (Hk : k = k').
  { unfold k, unitIndexOf. change (scaled b 0) with b in Hloop.
    now rewrite Hloop. }
  change (scaled b 0) with b in Hloop. simpl in Hrange, Hlast.
  split; [|split; [|split]].
  - rewrite Hk.
    destruct (Qlt_le_dec (scaled b k') 1024) as [Hlt | Hge].
    + left. repeat split; [simpl; lia | exact Hlt |].
      intros j Hj. apply Hbelow. lia.
    + right. destruct Hlast as [Hlt | ->]; [lra|].
      split; [|reflexivity].
      intros j Hj. simpl in Hj.
      destruct (Nat.eq_dec j 3) as [-> | Hne]; [exact Hge | apply Hbelow; lia].
  - unfold formatBytes. rewrite Hloop, Hk.
    rewrite toFixed2_small; [reflexivity | |].
    + apply (scaled_bounds k' Hb0).
    + pose proof (scaled_bounds k' Hb0). lra.
  - apply twoDecimals_toFixed2Small.
  - repeat split.
Qed.

Lemma formatBytes_smallest_unit_witness :
  (0 <= 1536 < 2 ^ 53)%Z /\
  formatBytes (fun _ => "") (inject_Z 1536)
    = toFixed2Small (scaled (inject_Z 1536) (unitIndexOf (inject_Z 1536)))
      ++ " " ++ nth (unitIndexOf (inject_Z 1536)) units "".
Proof.
  assert (H : (0 <= 1536 < 2 ^ 53)%Z) by (split; [lia | reflexivity]).
  split; [exact H|].
  exact (proj1 (proj2 (formatBytes_smallest_unit (fun _ => "") H))).
Defined.

(** C7, as stated, fails at 0 bytes: GB is a larger unit whose scaled value
    is below 1024, yet the unit printed is B. *)
Lemma formatBytes_unit_not_largest :
  ~ (forall bytes : Z, (0 <= bytes)%Z ->
       largestUnitBelow1024 (inject_Z bytes) (unitIndexOf (inject_Z bytes)) \/
       (noUnitBelow1024 (inject_Z bytes) /\ unitIndexOf (inject_Z bytes) = 3%nat)).
Proof.
  intros H. destruct (H 0%Z ltac:(lia)) as [(_ & _ & Hmax) | [_ Hk]].
  - assert (Hle : (3 <= unitIndexOf (inject_Z 0))%nat).
    { apply Hmax; [simpl; lia | reflexivity]. }
    vm_compute in Hle. lia.
  - vm_compute in Hk. discriminate Hk.
Qed.

(** ** displayStats *)

Lemma sumCounts_increment (ext : string) (acc : list (string * nat)) :
  sumCounts (increment ext acc) = S (sumCounts acc).
Proof.
  induction acc as [|[k v] acc IH]; simpl; [reflexivity|].
  destruct (String.eqb k ext); simpl; [reflexivity|].
  rewrite IH. lia.
Qed.

Lemma property_increment (key ext : string) (acc : list (string * nat)) :
  property key (increment ext acc) =
    if String.eqb ext key
    then Some (S (match property key acc with Some n => n | None => 0 end))
    else property key acc.
Proof.
  induction acc as [|[k v] acc IH]; simpl.
  - destruct (String.eqb ext key); reflexivity.
  - destruct (String.eqb k ext) eqn:Eke; simpl.
    + apply String.eqb_eq in Eke. subst k.
      destruct (String.eqb ext key); reflexivity.
    + rewrite IH. destruct (String.eqb k key) eqn:Ekk; [|reflexivity].
      apply String.eqb_eq in Ekk. subst k.
      rewrite String.eqb_sym, Eke. reflexivity.
Qed.

Lemma increment_positive (ext : string) (acc : list (string * nat)) :
  Forall (fun entry => (0 < snd entry)%nat) acc ->
  Forall (fun entry => (0 < snd entry)%nat) (increment ext acc).
Proof.
  induction 1 as [|[k v] acc Hv Hacc IH]; simpl.
  - constructor; [simpl; lia | constructor].
  - destruct (String.eqb k ext); constructor; simpl in *; auto; lia.
Qed.

Lemma histogram_positive (files : list FileRecord) (acc : list (string * nat)) :
  Forall (fun entry => (0 < snd entry)%nat) acc ->
  Forall (fun entry => (0 < snd entry)%nat)
    (fold_left (fun acc file => increment (label file) acc) files acc).
Proof.
  revert acc. induction files as [|file files IH]; intros acc Hacc; simpl.
  - exact Hacc.
  - apply IH, increment_positive, Hacc.
Qed.

Lemma property_positive (key : string) (counts : list (string * nat)) (n : nat) :
  Forall (fun entry => (0 < snd entry)%nat) counts ->
  property key counts = Some n -> (0 < n)%nat.
Proof.
  induction 1 as [|[k v] counts Hv Hcounts IH]; simpl; [discriminate|].
  destruct (String.eqb k key); [|exact IH].
  intros [= <-]. exact Hv.
Qed.

(** The histogram after folding [files] into [acc]. *)
Lemma histogram_fold (files : list FileRecord) (acc : list (string * nat)) :
  let counts := fold_left (fun acc file => increment (label file) acc) files acc in
  sumCounts counts = (sumCounts acc + List.length files)%nat /\
  forall key,
    match property key counts with
    | Some n =>
        n = (match property key acc with Some m => m | None => 0 end
             + countLabel key files)%nat
    | None => property key acc = None /\ countLabel key files = 0%nat
    end.
Proof.
  revert acc. induction files as [|file files IH]; intros acc; simpl.
  - split; [lia|]. intros key. unfold countLabel. simpl.
    destruct (property key acc); [lia | split; reflexivity].
  - destruct (IH (increment (label file) acc)) as [IHsum IHkey].
    split; [rewrite IHsum, sumCounts_increment; lia|].
    intros key. specialize (IHkey key).
    rewrite property_increment in IHkey. unfold countLabel in *. simpl.
    destruct (property key (fold_left _ files (increment (label file) acc))) as [n|].
    + destruct (String.eqb (label file) key); simpl;
        destruct (property key acc); simpl in *; lia.
    + destruct (String.eqb (label file) key);
        destruct IHkey as [H1 H2]; [discriminate H1 | now split].
Qed.

Lemma buckets_partition (files : list FileRecord) :
  (List.length (filter (fun f => f.(size) <? 1024)%Z files)
   + List.length
       (filter (fun f => (1024 <=? f.(size)) && (f.(size) <? 1024 * 1024))%Z files)
   + List.length
       (filter (fun f => (1024 * 1024 <=? f.(size)) &&
                         (f.(size) <? 1024 * 1024 * 1024))%Z files)
   + List.length (filter (fun f => 1024 * 1024 * 1024 <=? f.(size))%Z files)
   = List.length files)%nat.
Proof.
  induction files as [|f files IH]; [reflexivity|].
  cbn [filter List.length].
  destruct (Z.ltb_spec (size f) 1024);
    destruct (Z.leb_spec 1024 (size f));
    destruct (Z.ltb_spec (size f) (1024 * 1024));
    destruct (Z.leb_spec (1024 * 1024) (size f));
    destruct (Z.ltb_spec (size f) (1024 * 1024 * 1024));
    destruct (Z.leb_spec (1024 * 1024 * 1024) (size f));
    cbn [andb List.length]; lia.
Qed.

Lemma inBucket_ranges (size : Z) :
  (inBucket Small size = true <-> (size < 1024)%Z) /\
  (inBucket Medium size = true <-> (1024 <= size < 1048576)%Z) /\
  (inBucket Large size = true <-> (1048576 <= size < 1073741824)%Z) /\
  (inBucket Huge size = true <-> (1073741824 <= size)%Z).
Proof.
  unfold inBucket. rewrite !andb_true_iff, !Z.ltb_lt, !Z.leb_le. tauto.
Qed.

(** Every size lies in one bucket, and in one only. *)
Lemma inBucket_unique (size : Z) :
  exists b, inBucket b size = true /\ forall b', inBucket b' size = true -> b' = b.
Proof.
  destruct (inBucket_ranges size) as (Hs & Hm & Hl & Hh).
  assert (H : (size < 1024 \/ 1024 <= size < 1048576 \/
               1048576 <= size < 1073741824 \/ 1073741824 <= size)%Z) by lia.
  destruct H as [H | [H | [H | H]]];
    [exists Small | exists Medium | exists Large | exists Huge];
    (split; [tauto|]); intros [] Hb; try reflexivity; exfalso;
    first [apply Hs in Hb | apply Hm in Hb | apply Hl in Hb | apply Hh in Hb]; lia.
Qed.

(** C8.  In the figures of [displayStats] the four size buckets add up to
    the number of files, and so do the counts of the extension histogram, in
    which each key carries the number of records with that extension and
    records without one are counted under "(no extension)".  The buckets
    count the records below 1 KB, from 1 KB to below 1 MB, from 1 MB to
    below 1 GB, and from 1 GB on, and every size lies in exactly one of
    these ranges. *)
Theorem displayStats_counts_add_up (files : list FileRecord) :
  let stats := displayStats files in
  let buckets := stats.(sizeDistribution) in
  stats.(totalFiles) = List.length files /\
  (buckets.(small) + buckets.(medium) + buckets.(large) + buckets.(huge)
   = stats.(totalFiles))%nat /\
  sumCounts stats.(extensionCounts) = stats.(totalFiles) /\
  (forall key,
     match property key stats.(extensionCounts) with
     | Some n => n = countLabel key files /\ (0 < n)%nat
     | None => countLabel key files = 0%nat
     end) /\
  (forall name path relativePath size sizeHuman modified created,
     label (mkFileRecord name path relativePath size sizeHuman "" modified created)
     = "(no extension)") /\
  (buckets.(small) = countBucket Small files /\
   buckets.(medium) = countBucket Medium files /\
   buckets.(large) = countBucket Large files /\
   buckets.(huge) = countBucket Huge files) /\
  (forall size,
     (inBucket Small size = true <-> (size < 1024)%Z) /\
     (inBucket Medium size = true <-> (1024 <= size < 1048576)%Z) /\
     (inBucket Large size = true <-> (1048576 <= size < 1073741824)%Z) /\
     (inBucket Huge size = true <-> (1073741824 <= size)%Z)) /\
  (forall size,
     exists b, inBucket b size = true /\ forall b', inBucket b' size = true -> b' = b).
Proof.
  cbn zeta. split; [reflexivity|]. split; [apply buckets_partition|].
  destruct (histogram_fold files []) as [Hsum Hkey].
  split; [|split; [|split; [|split; [|split]]]].
  - unfold displayStats. cbn [extensionCounts totalFiles].
    change (fun acc file => increment match extension file with
                                      | "" => "(no extension)"
                                      | String a s => String a s
                                      end acc)
      with (fun acc file => increment (label file) acc).
    cbn zeta in Hsum. rewrite Hsum. reflexivity.
  - intros key. specialize (Hkey key). cbn zeta in Hkey.
    unfold displayStats. cbn [extensionCounts].
    change (fun acc file => increment match extension file with
                                      | "" => "(no extension)"
                                      | String a s => String a s
                                      end acc)
      with (fun acc file => increment (label file) acc).
    destruct (property key _) as [n|] eqn:E.
    + simpl in Hkey. split; [exact Hkey|].
      apply (property_positive key (histogram_positive files (Forall_nil _)) E).
    + apply Hkey.
  - reflexivity.
  - repeat split.
  - apply inBucket_ranges.
  - apply inBucket_unique.
Qed.

(** ** scanDirectory *)

Arguments scanDirectory : simpl never.

Section ScanProperties.

Local Open Scope list_scope.

Variable hostRegExp : string -> option (string -> bool).
Variable hostToString : Q -> string.
Variable readFileSync : path -> option string.

#[local] Abbreviation scan := (scanDirectory hostRegExp hostToString readFileSync).
#[local] Abbreviation loop := (forLoop hostRegExp hostToString readFileSync).
#[local] Abbreviation filters := (applyFilters hostRegExp readFileSync).
#[local] Abbreviation info := (fileInfo hostToString).

Lemma scanDirectory_unfold (node : fsnode) (dirPath : path) (d : nat) (o : Options) :
  scan node dirPath d o =
    if gt (ofNat d) o.(depth) then ([], []) else
    match node with
    | Dir true items =>
        loop (fun child itemPath => scan child itemPath (S d) o)
          dirPath o items [] [Readdir dirPath]
    | _ => ([], [Readdir dirPath; Warn dirPath])
    end.
Proof. destruct node as [ | [|] | | ]; reflexivity. Qed.

(** The records of the loop are those it was given followed by those it
    adds; the log plays no part in them. *)
Lemma forLoop_results recurse dirPath o items :
  forall results log log',
    fst (loop recurse dirPath o items results log)
    = results ++ fst (loop recurse dirPath o items [] log').
Proof.
  induction items as [|[item child] rest IH]; intros results log log'; simpl.
  - now rewrite app_nil_r.
  - destruct child as [size mtime birthtime | readable' items' | | ].
    + destruct (filters item (join dirPath item) size o) as [[[|]|] calls]; simpl.
      * rewrite (IH (results ++ _) _ log'), (IH [_] _ log').
        now rewrite <- app_assoc.
      * apply IH.
      * now rewrite app_nil_r.
    + destruct (recurse (Dir readable' items') (join dirPath item)) as [sub calls].
      rewrite (IH (results ++ sub) _ log'), (IH ([] ++ sub) _ log').
      now rewrite <- app_assoc.
    + apply IH.
    + simpl. now rewrite app_nil_r.
Qed.

(** *** The filter conjunction *)

#[local] Abbreviation throwing := (throwing hostRegExp).

Lemma matchesNamePattern_throws (o : Options) (fileName : string) :
  throwing o -> matchesNamePattern hostRegExp fileName o.(namePattern) = None.
Proof.
  unfold throwing, matchesNamePattern.
  destruct (namePattern o) as [[|c p]|]; try discriminate.
  destruct (RegExp hostRegExp _); [discriminate | reflexivity].
Qed.

Lemma matchesNamePattern_answers (o : Options) (fileName : string) :
  ~ throwing o ->
  exists matched, matchesNamePattern hostRegExp fileName o.(namePattern) = Some matched.
Proof.
  unfold throwing, matchesNamePattern.
  destruct (namePattern o) as [[|c p]|]; try (now exists true).
  destruct (RegExp hostRegExp _); [now eexists | congruence].
Qed.

Lemma throwing_dec (o : Options) : throwing o \/ ~ throwing o.
Proof.
  unfold throwing.
  destruct (matchesNamePattern hostRegExp "" (namePattern o));
    [right; discriminate | left; reflexivity].
Qed.

(** What [applyFilters] answers is the conjunction of the four tests. *)
Lemma applyFilters_passes (o o' : Options) item itemPath size mtime birthtime :
  ~ throwing o ->
  fst (filters item itemPath size o)
  = Some (passes hostRegExp readFileSync o (info item itemPath size mtime birthtime o')).
Proof.
  intros Hn. unfold applyFilters, passes. cbn [path_ name Scanner.size fileInfo].
  destruct (matchesExtension itemPath (extensions o)); [|reflexivity].
  destruct (matchesNamePattern_answers item Hn) as [matched ->].
  destruct matched; [|reflexivity].
  destruct (matchesSizeFilter size (sizeFilter o)); [|reflexivity].
  destruct (containsSearchText readFileSync itemPath (searchText o)).
  reflexivity.
Qed.

Lemma applyFilters_throwing (o : Options) item itemPath size :
  throwing o ->
  fst (filters item itemPath size o) = None \/
  fst (filters item itemPath size o) = Some false.
Proof.
  intros Ht. unfold applyFilters.
  destruct (matchesExtension itemPath (extensions o)); [|now right].
  rewrite (matchesNamePattern_throws item Ht). now left.
Qed.

Lemma passes_throwing (o : Options) (file : FileRecord) :
  throwing o -> passes hostRegExp readFileSync o file = false.
Proof.
  intros Ht. unfold passes.
  rewrite (matchesNamePattern_throws (name file) Ht).
  now rewrite andb_false_r.
Qed.

Lemma applyFilters_noFilters (o : Options) item itemPath size :
  filters item itemPath size (noFilters o) = (Some true, []).
Proof. reflexivity. Qed.

Lemma fileInfo_noFilters (o : Options) item itemPath size mtime birthtime :
  info item itemPath size mtime birthtime (noFilters o)
  = info item itemPath size mtime birthtime o.
Proof. reflexivity. Qed.

(** With a pattern that does not compile no record is ever pushed. *)
Lemma throwing_results_nil (o : Options) :
  throwing o ->
  forall node dirPath d, fst (scan node dirPath d o) = [].
Proof.
  intros Ht node. induction node as [ | readable items IH | | ] using fsnode_ind;
    intros dirPath d; rewrite scanDirectory_unfold;
    destruct (gt (ofNat d) (depth o)); try reflexivity.
  destruct readable; [|reflexivity].
  enough (H : forall log results,
             fst (loop (fun child itemPath => scan child itemPath (S d) o)
                    dirPath o items results log) = results) by apply H.
  induction IH as [|[item child] rest Hchild Hrest IHrest]; intros log results; simpl.
  - reflexivity.
  - destruct child as [size mtime birthtime | readable' items' | | ].
    + destruct (applyFilters_throwing item (join dirPath item) size Ht) as [E | E];
        destruct (filters item (join dirPath item) size o) as [answer calls];
        simpl in E; subst answer; [reflexivity | apply IHrest].
    + simpl in Hchild. specialize (Hchild (join dirPath item) (S d)).
      destruct (scan (Dir readable' items') (join dirPath item) (S d) o) as [sub calls].
      simpl in Hchild. subst sub. rewrite app_nil_r. apply IHrest.
    + apply IHrest.
    + reflexivity.
Qed.

Lemma filter_none {A : Type} (p : A -> bool) (l : list A) :
  (forall x, p x = false) -> filter p l = [].
Proof.
  intros H. induction l as [|x l IH]; simpl; [reflexivity|].
  now rewrite H.
Qed.

(** The records of a scan are those of the scan without filters that pass
    the four tests. *)
Lemma scanDirectory_filters (o : Options) (node : fsnode) :
  forall dirPath d,
    fst (scan node dirPath d o)
    = filter (passes hostRegExp readFileSync o) (fst (scan node dirPath d (noFilters o))).
Proof.
  destruct (throwing_dec o) as [Ht | Hn].
  { intros dirPath d. rewrite (throwing_results_nil Ht).
    symmetry. apply filter_none. intros file. now apply passes_throwing. }
  induction node as [ | readable items IH | | ] using fsnode_ind;
    intros dirPath d; rewrite !scanDirectory_unfold;
    change (depth (noFilters o)) with (depth o);
    destruct (gt (ofNat d) (depth o)); try reflexivity.
  destruct readable; [|reflexivity].
  enough (H : forall log log' results results',
             results = filter (passes hostRegExp readFileSync o) results' ->
             fst (loop (fun child itemPath => scan child itemPath (S d) o)
                    dirPath o items results log)
             = filter (passes hostRegExp readFileSync o)
                 (fst (loop (fun child itemPath => scan child itemPath (S d) (noFilters o))
                         dirPath (noFilters o) items results' log')))
    by (apply H; reflexivity).
  induction IH as [|[item child] rest Hchild Hrest IHrest];
    intros log log' results results' Hres; simpl.
  - exact Hres.
  - destruct child as [size mtime birthtime | readable' items' | | ].
    + pose proof (@applyFilters_passes o (noFilters o) item (join dirPath item)
                    size mtime birthtime Hn) as Hp.
      destruct (filters item (join dirPath item) size o) as [answer calls].
      simpl in Hp. subst answer.
      destruct (passes hostRegExp readFileSync o _) eqn:Epass.
      * apply IHrest. rewrite filter_app, fileInfo_noFilters. simpl.
        rewrite fileInfo_noFilters in Epass. rewrite Epass. now rewrite Hres.
      * apply IHrest. rewrite filter_app. simpl.
        rewrite Epass. now rewrite app_nil_r.
    + cbn [snd] in Hchild. specialize (Hchild (join dirPath item) (S d)).
      destruct (scan (Dir readable' items') (join dirPath item) (S d) o) as [sub calls].
      destruct (scan (Dir readable' items') (join dirPath item) (S d) (noFilters o))
        as [sub' calls'].
      apply IHrest. simpl in Hchild. rewrite filter_app. now rewrite Hres, Hchild.
    + now apply IHrest.
    + exact Hres.
Qed.

Lemma passes_noFilters (o : Options) (file : FileRecord) :
  passes hostRegExp readFileSync (noFilters o) file = true.
Proof. reflexivity. Qed.

(** Without filters and without failing [statSync] the records are those
    of all regular files down to the depth bound. *)
Lemma scanDirectory_noFilters (o : Options) (node : fsnode) :
  accessible node = true ->
  forall dirPath d,
    fst (scan node dirPath d (noFilters o)) = regularFiles hostToString node dirPath d o.
Proof.
  induction node as [ | readable items IH | | ] using fsnode_ind;
    intros Hstat dirPath d; rewrite scanDirectory_unfold;
    change (depth (noFilters o)) with (depth o);
    try (simpl; destruct (gt (ofNat d) (depth o)); reflexivity).
  cbn [regularFiles]. destruct (gt (ofNat d) (depth o)); [reflexivity|].
  cbn [accessible] in Hstat. apply andb_prop in Hstat as [-> Hstat].
  rewrite (forLoop_results _ _ _ _ _ _ []). cbn [app].
  induction IH as [|[item child] rest Hchild Hrest IHrest]; [reflexivity|].
  cbn [forallb snd] in Hstat. apply andb_prop in Hstat as [Hc Hr].
  specialize (IHrest Hr). cbn [flat_map fst snd forLoop].
  destruct child as [size mtime birthtime | readable' items' | | ].
  - rewrite applyFilters_noFilters.
    rewrite (forLoop_results _ _ _ _ _ _ []), fileInfo_noFilters.
    cbn [app]. now rewrite IHrest.
  - cbn [snd] in Hchild. specialize (Hchild Hc (join dirPath item) (S d)).
    destruct (scan (Dir readable' items') (join dirPath item) (S d) (noFilters o))
      as [sub calls].
    simpl in Hchild. rewrite (forLoop_results _ _ _ _ _ _ []).
    cbn [app]. now rewrite IHrest, Hchild.
  - cbn [app]. rewrite (forLoop_results _ _ _ _ _ _ []). exact IHrest.
  - discriminate Hc.
Qed.



(** *** The depth bound *)

Lemma relative_extension (base rest : path) : relative base (base ++ rest) = rest.
Proof.
  induction base as [|segment base IH]; simpl.
  - now destruct rest.
  - now rewrite String.eqb_refl.
Qed.

(** Records found from a directory [segments] below the base lie at least
    as deep as that directory, at a level the depth test lets through. *)
Lemma scanDirectory_levels (o : Options) (node : fsnode) :
  forall segments file,
    In file (fst (scan node (baseDir o ++ segments) (List.length segments) o)) ->
    exists level,
      (List.length segments <= level)%nat /\
      gt (ofNat level) (depth o) = false /\
      List.length (relativePath file) = S level.
Proof.
  induction node as [ | readable items IH | | ] using fsnode_ind;
    intros segments file; rewrite scanDirectory_unfold;
    destruct (gt (ofNat (List.length segments)) (depth o)) eqn:Egt;
    try (intros []).
  destruct readable; [|intros []].
  enough (H : forall log results,
             In file (fst (loop (fun child itemPath =>
                                   scan child itemPath (S (List.length segments)) o)
                             (baseDir o ++ segments) o items results log)) ->
             In file results \/
             exists level,
               (List.length segments <= level)%nat /\
               gt (ofNat level) (depth o) = false /\
               List.length (relativePath file) = S level).
  { intros Hin. destruct (H _ _ Hin) as [[] | Hlevel]. exact Hlevel. }
  induction IH as [|[item child] rest Hchild Hrest IHrest]; intros log results; simpl.
  - now left.
  - destruct child as [size mtime birthtime | readable' items' | | ].
    + destruct (filters item (join (baseDir o ++ segments) item) size o)
        as [[[|]|] calls]; simpl; try (now left); try apply IHrest.
      intros Hin. destruct (IHrest _ _ Hin) as [Hres | Hlevel]; [|now right].
      apply in_app_or in Hres as [Hres | [<- | []]]; [now left|].
      right. exists (List.length segments). split; [lia|]. split; [exact Egt|].
      cbn [relativePath fileInfo]. unfold join.
      rewrite <- app_assoc, relative_extension, length_app. simpl. lia.
    + cbn [snd] in Hchild. specialize (Hchild (segments ++ [item]) file).
      unfold join. rewrite <- app_assoc.
      replace (S (List.length segments)) with (List.length (segments ++ [item]))
        by (rewrite length_app; simpl; lia).
      destruct (scan (Dir readable' items') (baseDir o ++ segments ++ [item])
                  (List.length (segments ++ [item])) o) as [sub calls].
      intros Hin.
      replace (List.length (segments ++ [item])) with (S (List.length segments)) in Hin
        by (rewrite length_app; simpl; lia).
      destruct (IHrest _ _ Hin) as [Hres | Hlevel]; [|now right].
      apply in_app_or in Hres as [Hres | Hsub]; [now left|].
      right. destruct (Hchild Hsub) as (level & Hle & Hgt & Hlen).
      exists level. rewrite length_app in Hle. simpl in Hle.
      split; [lia|]. now split.
    + apply IHrest.
    + now left.
Qed.

Lemma gt_ofNat_Finite (level : nat) (bound : Q) :
  gt (ofNat level) (Finite bound) = true <-> (bound < inject_Z (Z.of_nat level))%Q.
Proof.
  unfold gt, lt, ofNat, ofZ.
  destruct (Qcompare_spec bound (inject_Z (Z.of_nat level))) as [H | H | H];
    split; intros H'; try reflexivity; try discriminate; try assumption.
  - rewrite H in H'. now apply Qlt_irrefl in H'.
  - exfalso. apply (Qlt_irrefl bound). now apply Qlt_trans with (inject_Z (Z.of_nat level)).
Qed.

(** Beyond the bound a call returns at once: no record and no call. *)
Lemma scanDirectory_beyond (o : Options) (node : fsnode) (dirPath : path) (d : nat) :
  gt (ofNat d) (depth o) = true -> scan node dirPath d o = ([], []).
Proof. intros H. rewrite scanDirectory_unfold. now rewrite H. Qed.

(** C2.  With [depth] set to the number [bound], every record of a scan
    started at the root lies at most [bound] directories below it, and a
    call on a directory whose level exceeds [bound] contributes nothing. *)
Theorem scanDirectory_depth_bound (options : Options) (bound : Q) :
  depth options = Finite bound ->
  (forall root file,
     In file (fst (scan root (baseDir options) 0 options)) ->
     (inject_Z (Z.of_nat (pathDepth file)) <= bound)%Q) /\
  (forall node dirPath level,
     (bound < inject_Z (Z.of_nat level))%Q ->
     scan node dirPath level options = ([], [])).
Proof.
  intros Hdepth. split.
  - intros root file Hin.
    destruct (@scanDirectory_levels options root [] file) as (level & _ & Hgt & Hlen).
    { simpl. now rewrite app_nil_r. }
    unfold pathDepth. rewrite Hlen. replace (S level - 1)%nat with level by lia.
    rewrite Hdepth in Hgt.
    apply Qnot_lt_le. intros Hlt. apply gt_ofNat_Finite in Hlt. congruence.
  - intros node dirPath level Hlt. apply scanDirectory_beyond.
    rewrite Hdepth. now apply gt_ofNat_Finite.
Qed.

(** *** Read failures *)

Lemma containsSearchText_read_failure (filePath : path) (searchText : option string) :
  truthy searchText = true -> readFileSync filePath = None ->
  containsSearchText readFileSync filePath searchText = (false, [ReadFile filePath]).
Proof.
  intros Ht Hr. unfold containsSearchText.
  destruct searchText as [[|c text]|]; try discriminate Ht.
  now rewrite Hr.
Qed.

Lemma throwing_loop (o : Options) (dirPath : path) (d : nat) :
  throwing o ->
  forall items results log,
    fst (loop (fun child itemPath => scan child itemPath d o)
           dirPath o items results log) = results.
Proof.
  intros Ht. induction items as [|[item child] rest IH]; intros results log; simpl.
  - reflexivity.
  - destruct child as [size mtime birthtime | readable' items' | | ].
    + destruct (applyFilters_throwing item (join dirPath item) size Ht) as [E | E];
        destruct (filters item (join dirPath item) size o) as [answer calls];
        simpl in E; subst answer; [reflexivity | apply IH].
    + pose proof (throwing_results_nil Ht (Dir readable' items') (join dirPath item) d) as Hsub.
      destruct (scan (Dir readable' items') (join dirPath item) d o) as [sub calls].
      simpl in Hsub. subst sub. rewrite app_nil_r. apply IH.
    + apply IH.
    + reflexivity.
Qed.

(** A file whose content cannot be read, under a search text, leaves the
    records as they would be without it. *)
Lemma unreadable_file_is_skipped (o : Options) (dirPath : path) (d : nat)
  (before after : list (string * fsnode)) (item : string) (size mtime birthtime : Z) :
  truthy (searchText o) = true ->
  readFileSync (join dirPath item) = None ->
  fst (scan (Dir true (before ++ (item, File size mtime birthtime) :: after)) dirPath d o)
  = fst (scan (Dir true (before ++ after)) dirPath d o).
Proof.
  intros Ht Hr. rewrite !scanDirectory_unfold.
  destruct (gt (ofNat d) (depth o)); [reflexivity|].
  generalize (@nil FileRecord) as results. generalize [Readdir dirPath] as log.
  induction before as [|[item' child] before IH]; intros log results.
  - cbn [app forLoop].
    unfold applyFilters.
    destruct (matchesExtension (join dirPath item) (extensions o)).
    2:{ rewrite (forLoop_results _ _ _ _ _ _ log). symmetry. apply forLoop_results. }
    destruct (throwing_dec o) as [Hthrow | Hn].
    + rewrite (matchesNamePattern_throws item Hthrow).
      now rewrite (throwing_loop dirPath (S d) Hthrow).
    + destruct (matchesNamePattern_answers item Hn) as [[|] ->].
      2:{ rewrite (forLoop_results _ _ _ _ _ _ log). symmetry. apply forLoop_results. }
      destruct (matchesSizeFilter size (sizeFilter o)).
      2:{ rewrite (forLoop_results _ _ _ _ _ _ log). symmetry. apply forLoop_results. }
      rewrite (@containsSearchText_read_failure _ _ Ht Hr).
      rewrite (forLoop_results _ _ _ _ _ _ log). symmetry. apply forLoop_results.
  - cbn [app forLoop].
    destruct child as [size' mtime' birthtime' | readable' items' | | ].
    + destruct (filters item' (join dirPath item') size' o) as [[[|]|] calls];
        try apply IH; reflexivity.
    + destruct (scan (Dir readable' items') (join dirPath item') (S d) o) as [sub calls].
      apply IH.
    + apply IH.
    + reflexivity.
Qed.

Lemma applyFilters_reads (o : Options) item itemPath size (filePath : path) :
  In (ReadFile filePath) (snd (filters item itemPath size o)) ->
  filePath = itemPath /\
  matchesExtension itemPath (extensions o) = true /\
  matchesNamePattern hostRegExp item (namePattern o) = Some true /\
  matchesSizeFilter size (sizeFilter o) = true.
Proof.
  unfold applyFilters.
  destruct (matchesExtension itemPath (extensions o)); [|intros []].
  destruct (matchesNamePattern hostRegExp item (namePattern o)) as [[|]|];
    try (intros []).
  destruct (matchesSizeFilter size (sizeFilter o)); [|intros []].
  unfold containsSearchText.
  destruct (searchText o) as [[|c text]|]; try (intros []).
  destruct (readFileSync itemPath); simpl;
    (intros [[= <-] | []]; repeat split; reflexivity).
Qed.

Lemma fileAt_later (entry : string * fsnode) readable items dirPath filePath item size :
  fileAt (Dir readable items) dirPath filePath item size ->
  fileAt (Dir readable (entry :: items)) dirPath filePath item size.
Proof.
  intros H. inversion H; subst.
  - eapply fileHere. right. eassumption.
  - eapply fileBelow; [right; eassumption | assumption].
Qed.

(** Every content read is that of a regular file of the tree that has
    passed the extension, name and size tests. *)
Lemma reads_follow_filters (o : Options) (filePath : path) (node : fsnode) :
  forall dirPath d,
    In (ReadFile filePath) (snd (scan node dirPath d o)) ->
    exists item size,
      fileAt node dirPath filePath item size /\
      matchesExtension filePath (extensions o) = true /\
      matchesNamePattern hostRegExp item (namePattern o) = Some true /\
      matchesSizeFilter size (sizeFilter o) = true.
Proof.
  induction node as [ | readable items IH | | ] using fsnode_ind;
    intros dirPath d; rewrite scanDirectory_unfold;
    destruct (gt (ofNat d) (depth o));
    try (intros [H | [H | []]]; discriminate H); try (intros []).
  destruct readable; [|intros [H | [H | []]]; discriminate H].
  enough (H : forall log results,
             In (ReadFile filePath)
               (snd (loop (fun child itemPath => scan child itemPath (S d) o)
                       dirPath o items results log)) ->
             In (ReadFile filePath) log \/
             exists item size,
               fileAt (Dir true items) dirPath filePath item size /\
               matchesExtension filePath (extensions o) = true /\
               matchesNamePattern hostRegExp item (namePattern o) = Some true /\
               matchesSizeFilter size (sizeFilter o) = true).
  { intros Hin. destruct (H _ _ Hin) as [[Hl | []] | Hfile]; [discriminate Hl|].
    exact Hfile. }
  assert (Hlater : forall entry rest,
             (exists item size,
                 fileAt (Dir true rest) dirPath filePath item size /\
                 matchesExtension filePath (extensions o) = true /\
                 matchesNamePattern hostRegExp item (namePattern o) = Some true /\
                 matchesSizeFilter size (sizeFilter o) = true) ->
             exists item size,
               fileAt (Dir true (entry :: rest)) dirPath filePath item size /\
               matchesExtension filePath (extensions o) = true /\
               matchesNamePattern hostRegExp item (namePattern o) = Some true /\
               matchesSizeFilter size (sizeFilter o) = true).
  { intros entry rest (item & size & Hat & Hrest). exists item, size.
    split; [now apply fileAt_later | exact Hrest]. }
  induction IH as [|[item child] rest Hchild Hrest IHrest]; intros log results; simpl.
  - now left.
  - destruct child as [size mtime birthtime | readable' items' | | ].
    + pose proof (@applyFilters_reads o item (join dirPath item) size filePath) as Hreads.
      assert (Hcalls : forall calls,
                 In (ReadFile filePath) ((log ++ [Stat (join dirPath item)]) ++ calls) ->
                 calls = snd (filters item (join dirPath item) size o) ->
                 In (ReadFile filePath) log \/
                 exists item0 size0,
                   fileAt (Dir true ((item, File size mtime birthtime) :: rest))
                     dirPath filePath item0 size0 /\
                   matchesExtension filePath (extensions o) = true /\
                   matchesNamePattern hostRegExp item0 (namePattern o) = Some true /\
                   matchesSizeFilter size0 (sizeFilter o) = true).
      { intros calls Hin ->.
        apply in_app_or in Hin as [Hin | Hin].
        - apply in_app_or in Hin as [Hin | [Hin | []]]; [now left | discriminate Hin].
        - right. destruct (Hreads Hin) as (-> & He & Hn & Hs).
          exists item, size. split; [|now repeat split].
          eapply fileHere. left. reflexivity. }
      destruct (filters item (join dirPath item) size o) as [[[|]|] calls]; simpl.
      * intros Hin. destruct (IHrest _ _ Hin) as [Hlog | Hfile].
        -- now apply (Hcalls calls).
        -- right. now apply Hlater.
      * intros Hin. destruct (IHrest _ _ Hin) as [Hlog | Hfile].
        -- now apply (Hcalls calls).
        -- right. now apply Hlater.
      * intros Hin. apply (Hcalls calls); [|reflexivity].
        rewrite app_assoc in Hin. apply in_app_or in Hin as [Hin | [Hin | []]];
          [exact Hin | discriminate Hin].
    + cbn [snd] in Hchild. specialize (Hchild (join dirPath item) (S d)).
      destruct (scan (Dir readable' items') (join dirPath item) (S d) o) as [sub calls].
      simpl in Hchild. intros Hin.
      destruct (IHrest _ _ Hin) as [Hlog | Hfile]; [|right; now apply Hlater].
      apply in_app_or in Hlog as [Hlog | Hlog].
      * apply in_app_or in Hlog as [Hlog | [Hlog | []]]; [now left | discriminate Hlog].
      * right. destruct (Hchild Hlog) as (name & size & Hat & Hrest').
        exists name, size. split; [|exact Hrest'].
        eapply fileBelow; [left; reflexivity | exact Hat].
    + intros Hin. destruct (IHrest _ _ Hin) as [Hlog | Hfile].
      * apply in_app_or in Hlog as [Hlog | [Hlog | []]]; [now left | discriminate Hlog].
      * right. now apply Hlater.
    + intros Hin. apply in_app_or in Hin as [Hin | [Hin | []]]; [|discriminate Hin].
      apply in_app_or in Hin as [Hin | [Hin | []]]; [now left | discriminate Hin].
Qed.

Lemma applyFilters_calls (o : Options) item itemPath size (e : event) :
  In e (snd (filters item itemPath size o)) ->
  e = ReadFile itemPath /\ truthy (searchText o) = true.
Proof.
  unfold applyFilters.
  destruct (matchesExtension itemPath (extensions o)); [|intros []].
  destruct (matchesNamePattern hostRegExp item (namePattern o)) as [[|]|];
    try (intros []).
  destruct (matchesSizeFilter size (sizeFilter o)); [|intros []].
  unfold containsSearchText.
  destruct (searchText o) as [[|c text]|]; try (intros []).
  destruct (readFileSync itemPath); simpl; (intros [<- | []]; now split).
Qed.

Lemma applyFilters_answers (o : Options) item itemPath size :
  ~ throwing o -> fst (filters item itemPath size o) <> None.
Proof.
  intros Hn. unfold applyFilters.
  destruct (matchesExtension itemPath (extensions o)); [|discriminate].
  destruct (@matchesNamePattern_answers o item Hn) as [[|] ->];
    [|discriminate].
  destruct (matchesSizeFilter size (sizeFilter o)); [|discriminate].
  destruct (containsSearchText readFileSync itemPath (searchText o)). discriminate.
Qed.

(** A tree in which every directory can be listed and every entry
    examined, scanned with a pattern that compiles, gives no warning:
    nothing throws, whatever [readFileSync] does. *)
Lemma scanDirectory_no_warning (options : Options) (node : fsnode) :
  ~ throwing options ->
  accessible node = true -> isDirectory node = true ->
  forall dirPath currentDepth warned,
    ~ In (Warn warned) (snd (scan node dirPath currentDepth options)).
Proof.
  intros Hn.
  induction node as [ | readable items IH | | ] using fsnode_ind;
    intros Hacc Hdir dirPath d warned; try discriminate Hdir.
  rewrite scanDirectory_unfold.
  destruct (gt (ofNat d) (depth options)); [intros []|].
  cbn [accessible] in Hacc. apply andb_prop in Hacc as [-> Hall].
  enough (H : forall log results,
             ~ In (Warn warned) log ->
             ~ In (Warn warned)
                 (snd (loop (fun child itemPath => scan child itemPath (S d) options)
                         dirPath options items results log))).
  { apply H. intros [H' | []]. discriminate H'. }
  clear Hdir.
  induction IH as [|[item child] rest Hchild Hrest IHrest];
    intros log results Hlog; simpl.
  - exact Hlog.
  - cbn [forallb snd] in Hall. apply andb_prop in Hall as [Hc Hr].
    specialize (IHrest Hr).
    assert (Hstat : ~ In (Warn warned) (log ++ [Stat (join dirPath item)])).
    { intros He. apply in_app_or in He as [He | [He | []]];
        [now apply Hlog | discriminate He]. }
    destruct child as [size mtime birthtime | readable' items' | | ].
    + pose proof (@applyFilters_calls options item (join dirPath item) size) as Hcalls.
      pose proof (@applyFilters_answers options item (join dirPath item) size Hn) as Hans.
      assert (Hboth : ~ In (Warn warned)
                          ((log ++ [Stat (join dirPath item)])
                           ++ snd (filters item (join dirPath item) size options))).
      { intros He. apply in_app_or in He as [He | He]; [now apply Hstat|].
        destruct (Hcalls _ He) as [He' _]. discriminate He'. }
      destruct (filters item (join dirPath item) size options) as [[[|]|] calls];
        cbn [fst snd] in Hans, Hboth.
      * now apply IHrest.
      * now apply IHrest.
      * now contradiction Hans.
    + cbn [snd] in Hchild. specialize (Hchild Hc eq_refl (join dirPath item) (S d) warned).
      destruct (scan (Dir readable' items') (join dirPath item) (S d) options)
        as [sub calls].
      cbn [snd] in Hchild. apply IHrest.
      intros He. apply in_app_or in He as [He | He];
        [now apply Hstat | now apply Hchild].
    + now apply IHrest.
    + discriminate Hc.
Qed.

(** C5.  Under a search text, a file whose content cannot be read fails the
    content test without any exception: the records are those of the same
    directory without that file, so the entries after it are still scanned;
    and a content read only happens for a regular file that has passed the
    extension, name and size tests.  Such a file passes no filter
    conjunction, and the scan goes on: in a tree whose directories can be
    listed and whose entries can be examined the records are exactly the
    regular files within the depth bound that pass the four tests, in
    listing order, and with a pattern that compiles no warning is
    printed, whatever cannot be read. *)
Theorem read_failure_is_a_non_match (options : Options) :
  truthy (searchText options) = true ->
  (forall filePath,
     readFileSync filePath = None ->
     containsSearchText readFileSync filePath (searchText options)
     = (false, [ReadFile filePath])) /\
  (forall dirPath currentDepth before after item size mtime birthtime,
     readFileSync (join dirPath item) = None ->
     fst (scan (Dir true (before ++ (item, File size mtime birthtime) :: after))
            dirPath currentDepth options)
     = fst (scan (Dir true (before ++ after)) dirPath currentDepth options)) /\
  (forall node dirPath currentDepth filePath,
     In (ReadFile filePath) (snd (scan node dirPath currentDepth options)) ->
     exists item size,
       fileAt node dirPath filePath item size /\
       matchesExtension filePath (extensions options) = true /\
       matchesNamePattern hostRegExp item (namePattern options) = Some true /\
       matchesSizeFilter size (sizeFilter options) = true) /\
  (forall file,
     readFileSync (path_ file) = None ->
     passes hostRegExp readFileSync options file = false) /\
  (forall node dirPath currentDepth,
     accessible node = true ->
     fst (scan node dirPath currentDepth options)
     = filter (passes hostRegExp readFileSync options)
         (regularFiles hostToString node dirPath currentDepth options)) /\
  (forall node dirPath currentDepth warned,
     ~ throwing options -> accessible node = true -> isDirectory node = true ->
     ~ In (Warn warned) (snd (scan node dirPath currentDepth options))).
Proof.
  intros Ht. split; [|split; [|split; [|split; [|split]]]].
  - intros filePath Hr. now apply containsSearchText_read_failure.
  - intros dirPath currentDepth before after item size mtime birthtime Hr.
    now apply unreadable_file_is_skipped.
  - intros node dirPath currentDepth filePath. apply reads_follow_filters.
  - intros file Hr. unfold passes.
    rewrite (containsSearchText_read_failure _ Ht Hr). apply andb_false_r.
  - intros node dirPath currentDepth Hacc.
    rewrite scanDirectory_filters. now rewrite scanDirectory_noFilters.
  - intros node dirPath currentDepth warned Hn Hacc Hdir.
    now apply scanDirectory_no_warning.
Qed.

(** *** Stat failures *)

(** The loop never looks past an entry whose [statSync] throws. *)
Lemma stat_failure_ends_loop recurse dirPath (o : Options)
  (before after : list (string * fsnode)) (item : string) :
  forall results log,
    loop recurse dirPath o (before ++ (item, Missing) :: after) results log
    = loop recurse dirPath o (before ++ [(item, Missing)]) results log.
Proof.
  induction before as [|[item' child] before IH]; intros results log.
  - reflexivity.
  - cbn [app forLoop].
    destruct child as [size mtime birthtime | readable' items' | | ].
    + destruct (filters item' (join dirPath item') size o) as [[[|]|] calls];
        try apply IH; reflexivity.
    + destruct (recurse (Dir readable' items') (join dirPath item')) as [sub calls]. apply IH.
    + apply IH.
    + reflexivity.
Qed.

(** C6.  An entry whose [statSync] throws ends the loop over its directory:
    the entries listed after it are never examined, whatever they are.  In
    a directory listing "gone" (stat fails) before "a.txt" the scan returns
    no record, where "a.txt" alone is found. *)
Theorem stat_failure_ends_directory_scan :
  (forall options dirPath currentDepth before item after,
     scan (Dir true (before ++ (item, Missing) :: after)) dirPath currentDepth options
     = scan (Dir true (before ++ [(item, Missing)])) dirPath currentDepth options) /\
  (let options := setBaseDir defaults ["root"%string] in
   scan (Dir true [("gone"%string, Missing); ("a.txt"%string, File 10 0 0)])
     ["root"%string] 0 options
   = ([], [Readdir ["root"%string]; Stat ["root"%string; "gone"%string];
           Warn ["root"%string]]) /\
   fst (scan (Dir true [("a.txt"%string, File 10 0 0)]) ["root"%string] 0 options)
   = [info "a.txt"%string ["root"%string; "a.txt"%string] 10 0 0 options]).
Proof.
  split.
  - intros options dirPath currentDepth before item after.
    rewrite !scanDirectory_unfold.
    destruct (gt (ofNat currentDepth) (depth options)); [reflexivity|].
    apply stat_failure_ends_loop.
  - split; reflexivity.
Qed.

End ScanProperties.

(** ** parseArguments and main *)

Lemma valueOf_ok (next : option string) (message v : string) :
  valueOf next message = Ok v -> next = Some v /\ startsWith v "--" = false.
Proof.
  unfold valueOf. destruct next as [w|]; [|discriminate].
  destruct (negb (truthy (Some w)) || startsWith w "--") eqn:E; [discriminate|].
  intros [= ->]. apply orb_false_elim in E as [_ E]. now split.
Qed.

(** An option that is parsed is a known one; it keeps the directory path;
    and when it consumes the next argument, that argument is not an option. *)
Lemma parseOption_ok (arg : string) (next : option string) (o o' : Options)
  (consumed : bool) :
  parseOption arg next o = Ok (o', consumed) ->
  In arg knownOptions /\
  dirPath o' = dirPath o /\
  (validDepth o -> validDepth o') /\
  (consumed = true -> exists v, next = Some v /\ startsWith v "--" = false).
Proof.
  unfold parseOption, knownOptions, bind.
  repeat match goal with
         | |- context [String.eqb arg ?s] =>
             destruct (String.eqb_spec arg s) as [-> | _]
         end;
    try discriminate;
    try (destruct (valueOf next _) as [v|] eqn:Ev; [|discriminate];
         apply valueOf_ok in Ev);
    try (destruct (isNaN (Number v) || lt (Number v) (Finite 0)) eqn:Ed;
         [discriminate|]);
    try (destruct (parseSizeFilter v); [|discriminate]);
    intros [= <- <-];
    (split; [simpl; tauto|]); (split; [reflexivity|]);
    (split; [intros Hv; first [exact Ed | exact Hv]|]);
    intros Hc; try discriminate Hc; now exists v.
Qed.

Lemma unknown_option_throws_loop (arg : string) :
  startsWith arg "--" = true -> ~ In arg knownOptions ->
  forall n args o,
    (List.length args <= n)%nat -> In arg args ->
    exists message, parseLoop args o = Throw message.
Proof.
  intros Hopt Hunknown. induction n as [|n IH]; intros args o Hlen Hin.
  - destruct args; [destruct Hin | simpl in Hlen; lia].
  - destruct args as [|arg0 rest]; [destruct Hin|].
    simpl in Hlen. cbn [parseLoop].
    destruct (startsWith arg0 "--") eqn:E0.
    + destruct (parseOption arg0 (hd_error rest) o) as [[o' consumed]|message] eqn:Ep;
        [|now exists message].
      apply parseOption_ok in Ep as (Hknown & _ & _ & Hvalue).
      destruct Hin as [<- | Hin]; [contradiction|].
      destruct consumed.
      * destruct (Hvalue eq_refl) as (v & Hv & Hnot).
        destruct rest as [|v' rest']; [discriminate Hv|].
        injection Hv as ->. destruct Hin as [<- | Hin]; [congruence|].
        apply IH; [simpl in Hlen; lia | exact Hin].
      * apply IH; [lia | exact Hin].
    + destruct Hin as [<- | Hin]; [congruence|].
      destruct (negb (truthy (dirPath o))); [|now eexists].
      apply IH; [lia | exact Hin].
Qed.

Lemma noPathArgument_loop (args : list string) :
  noPathArgument args ->
  forall o o', parseLoop args o = Ok o' -> dirPath o' = dirPath o.
Proof.
  induction args as [|arg rest IH]; intros Hno o o'; cbn [parseLoop].
  - now intros [= <-].
  - assert (Harg : startsWith arg "--" = true) by (apply Hno; now left).
    assert (Hrest : noPathArgument rest) by (intros a Ha; apply Hno; now right).
    rewrite Harg.
    destruct (parseOption arg (hd_error rest) o) as [[o1 consumed]|message] eqn:Ep;
      [|discriminate].
    apply parseOption_ok in Ep as (_ & Hdir & _ & Hvalue).
    destruct consumed.
    + destruct (Hvalue eq_refl) as (v & Hv & Hnot).
      destruct rest as [|v' rest']; [discriminate Hv|].
      injection Hv as ->.
      rewrite (Hno v) in Hnot by (right; now left). discriminate Hnot.
    + intros H. apply IH in H; [congruence | exact Hrest].
Qed.

(** The loop never lets an invalid depth into the options. *)
Lemma parseLoop_validDepth :
  forall n args o o',
    (List.length args <= n)%nat ->
    validDepth o -> parseLoop args o = Ok o' -> validDepth o'.
Proof.
  induction n as [|n IH]; intros args o o' Hlen Hv.
  - destruct args; [|simpl in Hlen; lia]. now intros [= <-].
  - destruct args as [|arg rest]; [now intros [= <-]|].
    simpl in Hlen. cbn [parseLoop].
    destruct (startsWith arg "--").
    + destruct (parseOption arg (hd_error rest) o) as [[o1 consumed]|message] eqn:Ep;
        [|discriminate].
      apply parseOption_ok in Ep as (_ & _ & Hvalid & _).
      destruct consumed.
      * destruct rest as [|v rest']; [intros [= <-]; now apply Hvalid|].
        apply IH; [simpl in Hlen; lia | now apply Hvalid].
      * apply IH; [lia | now apply Hvalid].
    + destruct (negb (truthy (dirPath o))); [|discriminate].
      apply IH; [lia | exact Hv].
Qed.

(** What [parseArguments] returns has a directory path and a valid depth. *)
Lemma parseArguments_ok (args : list string) (options : Options) :
  parseArguments args = Ok options ->
  truthy (dirPath options) = true /\ validDepth options.
Proof.
  unfold parseArguments, bind.
  destruct (parseLoop args defaults) as [o|] eqn:El; [|discriminate].
  destruct (truthy (dirPath o)) eqn:E; [|discriminate].
  intros [= <-]. split; [exact E|].
  now apply (@parseLoop_validDepth (List.length args) args defaults o (le_n _)).
Qed.

Lemma missing_path_throws (args : list string) :
  noPathArgument args -> exists message, parseArguments args = Throw message.
Proof.
  intros Hno. destruct (parseArguments args) as [o|message] eqn:E; [|now eexists].
  pose proof (proj1 (parseArguments_ok args E)) as Ht.
  unfold parseArguments, bind in E.
  destruct (parseLoop args defaults) as [o1|] eqn:El; [|discriminate].
  apply (noPathArgument_loop Hno) in El.
  destruct (truthy (dirPath o1)) eqn:E1; [|discriminate].
  rewrite El in E1. discriminate E1.
Qed.

Lemma unknown_option_throws (args : list string) (arg : string) :
  In arg args -> startsWith arg "--" = true -> ~ In arg knownOptions ->
  exists message, parseArguments args = Throw message.
Proof.
  intros Hin Hopt Hunknown.
  destruct (@unknown_option_throws_loop arg Hopt Hunknown (List.length args) args
              defaults (le_n _) Hin) as [message E].
  exists message. unfold parseArguments, bind. now rewrite E.
Qed.

Lemma parseLoop_throws (arg : string) (rest : list string) (o : Options)
  (message : string) :
  startsWith arg "--" = true ->
  parseOption arg (hd_error rest) o = Throw message ->
  parseLoop (arg :: rest) o = Throw message.
Proof. intros Ha Hp. cbn [parseLoop]. now rewrite Ha, Hp. Qed.

(** A [--depth] that is not followed by a non-negative number throws,
    wherever the loop meets it. *)
Lemma bad_depth_throws (rest : list string) (o : Options) :
  match rest with
  | v :: _ =>
      truthy (Some v) = false \/ startsWith v "--" = true \/
      isNaN (Number v) = true \/ lt (Number v) (Finite 0) = true
  | [] => True
  end ->
  exists message, parseLoop ("--depth" :: rest) o = Throw message.
Proof.
  intros H.
  destruct (parseOption "--depth" (hd_error rest) o) as [[o' c]|message] eqn:Ep.
  2:{ exists message. now apply parseLoop_throws. }
  exfalso. unfold parseOption in Ep.
  change (String.eqb "--depth" "--depth") with true in Ep. cbv iota in Ep.
  unfold bind in Ep.
  destruct (valueOf (hd_error rest) _) as [v|] eqn:Ev; [|discriminate Ep].
  unfold valueOf in Ev. destruct rest as [|w rest]; [discriminate Ev|].
  cbn [hd_error] in Ev.
  destruct (negb (truthy (Some w)) || startsWith w "--") eqn:Ew; [discriminate Ev|].
  injection Ev as ->. apply orb_false_elim in Ew as [Et Es].
  apply negb_false_iff in Et.
  destruct H as [H | [H | [H | H]]]; try congruence;
    rewrite H, ?orb_true_r in Ep; discriminate Ep.
Qed.

(** A [--size] followed by a string that [parseSizeFilter] rejects throws,
    wherever the loop meets it. *)
Lemma bad_size_throws (v : string) (rest : list string) (o : Options) (message : string) :
  parseSizeFilter v = Throw message ->
  exists message', parseLoop ("--size" :: v :: rest) o = Throw message'.
Proof.
  intros H.
  destruct (parseOption "--size" (hd_error (v :: rest)) o) as [[o' c]|message'] eqn:Ep.
  2:{ exists message'. now apply parseLoop_throws. }
  exfalso. unfold parseOption in Ep.
  change (String.eqb "--size" "--depth") with false in Ep.
  change (String.eqb "--size" "--ext") with false in Ep.
  change (String.eqb "--size" "--name") with false in Ep.
  change (String.eqb "--size" "--size") with true in Ep.
  cbv iota in Ep. unfold bind in Ep. cbn [hd_error] in Ep.
  destruct (valueOf (Some v) _) as [w|] eqn:Ev; [|discriminate Ep].
  apply valueOf_ok in Ev as [[= <-] _].
  rewrite H in Ep. discriminate Ep.
Qed.

(** *** Every configuration error *)

Lemma valueOf_value (next : option string) (message v : string) :
  valueOf next message = Ok v ->
  next = Some v /\ v <> "" /\ startsWith v "--" = false.
Proof.
  unfold valueOf. destruct next as [w|]; [|discriminate].
  destruct (negb (truthy (Some w)) || startsWith w "--") eqn:E; [discriminate|].
  intros [= ->]. apply orb_false_elim in E as [Et E].
  repeat split; [|exact E]. intros ->. discriminate Et.
Qed.

Lemma valueOf_throws (next : option string) (message message' : string) :
  valueOf next message = Throw message' ->
  match next with
  | None => True
  | Some v => v = "" \/ startsWith v "--" = true
  end.
Proof.
  unfold valueOf. destruct next as [v|]; [|trivial].
  destruct (truthy (Some v)) eqn:Et; cbn [negb orb].
  - destruct (startsWith v "--"); [now right | discriminate].
  - intros _. left. destruct v; [reflexivity | discriminate Et].
Qed.

Lemma valueOf_missing (next : option string) (message : string) :
  match next with
  | None => True
  | Some v => v = "" \/ startsWith v "--" = true
  end ->
  valueOf next message = Throw message.
Proof.
  unfold valueOf. destruct next as [v|]; [|reflexivity].
  intros [-> | H]; [reflexivity|]. now rewrite H, orb_true_r.
Qed.

Lemma valueOptions_known (opt : string) :
  In opt valueOptions ->
  startsWith opt "--" = true /\ takesValue opt = true /\ In opt knownOptions.
Proof.
  intros H. unfold valueOptions in H. cbn [In] in H.
  repeat (destruct H as [<- | H];
          [repeat split; try reflexivity; cbn; tauto|]).
  destruct H.
Qed.

(** An option consumes the next argument exactly when it takes a value. *)
Lemma parseOption_consumes (arg : string) (next : option string) (o o' : Options)
  (consumed : bool) :
  parseOption arg next o = Ok (o', consumed) -> consumed = takesValue arg.
Proof.
  unfold parseOption, bind.
  repeat match goal with
         | |- context [String.eqb arg ?s] =>
             destruct (String.eqb_spec arg s) as [-> | _]
         end;
    try discriminate;
    try (destruct (valueOf next _) as [v|]; [|discriminate]);
    try (destruct (isNaN (Number v) || lt (Number v) (Finite 0)); [discriminate|]);
    try (destruct (parseSizeFilter v); [|discriminate]);
    intros [= <- <-]; reflexivity.
Qed.

(** Why an option throws. *)
Lemma parseOption_throw_cases (arg : string) (next : option string) (o : Options)
  (message : string) :
  parseOption arg next o = Throw message ->
  ~ In arg knownOptions \/
  (In arg valueOptions /\
   match next with
   | None => True
   | Some v => v = "" \/ startsWith v "--" = true
   end) \/
  (arg = "--depth" /\
   exists v, next = Some v /\
             (isNaN (Number v) = true \/ lt (Number v) (Finite 0) = true)) \/
  (arg = "--size" /\
   exists v message', next = Some v /\ parseSizeFilter v = Throw message').
Proof.
  unfold parseOption, bind.
  destruct (String.eqb_spec arg "--depth") as [-> | N1].
  { destruct (valueOf next _) as [v|m] eqn:Ev.
    - apply valueOf_value in Ev as (-> & _ & _).
      destruct (isNaN (Number v) || lt (Number v) (Finite 0)) eqn:Ed; [|discriminate].
      intros _. right. right. left. split; [reflexivity|]. exists v.
      split; [reflexivity|]. now apply orb_prop.
    - intros _. right. left. split; [cbn; tauto|]. now apply valueOf_throws in Ev. }
  destruct (String.eqb_spec arg "--ext") as [-> | N2].
  { destruct (valueOf next _) as [v|m] eqn:Ev; [discriminate|].
    intros _. right. left. split; [cbn; tauto|]. now apply valueOf_throws in Ev. }
  destruct (String.eqb_spec arg "--name") as [-> | N3].
  { destruct (valueOf next _) as [v|m] eqn:Ev; [discriminate|].
    intros _. right. left. split; [cbn; tauto|]. now apply valueOf_throws in Ev. }
  destruct (String.eqb_spec arg "--size") as [-> | N4].
  { destruct (valueOf next _) as [v|m] eqn:Ev.
    - apply valueOf_value in Ev as (-> & _ & _).
      destruct (parseSizeFilter v) as [f|m] eqn:Es; [discriminate|].
      intros _. right. right. right. split; [reflexivity|]. now exists v, m.
    - intros _. right. left. split; [cbn; tauto|]. now apply valueOf_throws in Ev. }
  destruct (String.eqb_spec arg "--search") as [-> | N5].
  { destruct (valueOf next _) as [v|m] eqn:Ev; [discriminate|].
    intros _. right. left. split; [cbn; tauto|]. now apply valueOf_throws in Ev. }
  destruct (String.eqb_spec arg "--tree") as [-> | N6]; [discriminate|].
  destruct (String.eqb_spec arg "--stats") as [-> | N7]; [discriminate|].
  destruct (String.eqb_spec arg "--json") as [-> | N8]; [discriminate|].
  destruct (String.eqb_spec arg "--csv") as [-> | N9]; [discriminate|].
  destruct (String.eqb_spec arg "--help") as [-> | N10]; [discriminate|].
  intros _. left. unfold knownOptions. cbn [In].
  intros H. repeat (destruct H as [H | H]; [congruence|]). exact H.
Qed.

(** An option that lacks its value throws where the loop meets it. *)
Lemma missing_value_throws (opt : string) (rest : list string) (o : Options) :
  In opt valueOptions ->
  match rest with
  | [] => True
  | v :: _ => v = "" \/ startsWith v "--" = true
  end ->
  exists message, parseLoop (opt :: rest) o = Throw message.
Proof.
  intros Hin Hbad. destruct (@valueOptions_known _ Hin) as (Hopt & _ & _).
  assert (Hnext : match hd_error rest with
                  | None => True
                  | Some v => v = "" \/ startsWith v "--" = true
                  end) by (destruct rest; exact Hbad).
  assert (H : exists message, parseOption opt (hd_error rest) o = Throw message).
  { unfold valueOptions in Hin. cbn [In] in Hin.
    repeat (destruct Hin as [<- | Hin];
            [unfold parseOption, bind;
             repeat match goal with
                    | |- context [String.eqb ?a ?b] =>
                        destruct (String.eqb_spec a b); try congruence
                    end;
             rewrite (@valueOf_missing _ _ Hnext); now eexists|]).
    destruct Hin. }
  destruct H as [message H]. exists message. now apply parseLoop_throws.
Qed.

(** The loop throws before an option, or meets it as an option: what
    comes before cannot take it as a value. *)
Lemma option_is_reached :
  forall n pre arg rest o,
    (List.length pre <= n)%nat -> startsWith arg "--" = true ->
    (exists message, parseLoop (pre ++ arg :: rest)%list o = Throw message) \/
    (exists o1, parseLoop (pre ++ arg :: rest)%list o = parseLoop (arg :: rest) o1).
Proof.
  induction n as [|n IH]; intros pre arg rest o Hlen Harg.
  - destruct pre; [|simpl in Hlen; lia]. right. now exists o.
  - destruct pre as [|a pre]; [right; now exists o|].
    simpl in Hlen. cbn [app parseLoop].
    destruct (startsWith a "--") eqn:Ea.
    + destruct (parseOption a (hd_error (pre ++ arg :: rest)%list) o)
        as [[o1 consumed]|message] eqn:Ep; [|left; now exists message].
      apply parseOption_ok in Ep as (_ & _ & _ & Hvalue).
      destruct consumed.
      * destruct (Hvalue eq_refl) as (v & Hv & Hnot).
        destruct pre as [|v' pre].
        -- cbn in Hv. injection Hv as <-. congruence.
        -- cbn [app]. apply IH; [simpl in Hlen; lia | exact Harg].
      * apply IH; [lia | exact Harg].
    + destruct (negb (truthy (dirPath o))); [|left; now eexists].
      apply IH; [lia | exact Harg].
Qed.

Lemma throws_anywhere (pre : list string) (arg : string) (rest : list string) :
  startsWith arg "--" = true ->
  (forall o, exists message, parseLoop (arg :: rest) o = Throw message) ->
  forall o, exists message, parseLoop (pre ++ arg :: rest)%list o = Throw message.
Proof.
  intros Harg Hhead o.
  destruct (@option_is_reached (List.length pre) pre arg rest o (le_n _) Harg)
    as [H | [o1 H]]; [exact H|].
  rewrite H. apply Hhead.
Qed.

(** *** Positional arguments *)

Lemma positionals_value (arg v : string) (rest : list string) :
  startsWith arg "--" = true -> takesValue arg = true ->
  positionals (arg :: v :: rest) = positionals rest.
Proof. intros H1 H2. cbn [positionals]. now rewrite H1, H2. Qed.

Lemma positionals_flag (arg : string) (rest : list string) :
  startsWith arg "--" = true -> takesValue arg = false ->
  positionals (arg :: rest) = positionals rest.
Proof. intros H1 H2. cbn [positionals]. now rewrite H1, H2. Qed.

Lemma positionals_path (arg : string) (rest : list string) :
  startsWith arg "--" = false ->
  positionals (arg :: rest) = arg :: positionals rest.
Proof. intros H. cbn [positionals]. now rewrite H. Qed.

(** What the loop returns has a path exactly when it had one or a
    positional argument is not empty, and no positional argument came
    after the path. *)
Lemma parseLoop_positionals :
  forall n args o o',
    (List.length args <= n)%nat ->
    parseLoop args o = Ok o' ->
    truthy (dirPath o')
    = truthy (dirPath o) || existsb (fun p => truthy (Some p)) (positionals args) /\
    ~ unexpectedArgument (truthy (dirPath o)) args.
Proof.
  induction n as [|n IH]; intros args o o' Hlen.
  - destruct args; [|simpl in Hlen; lia]. intros [= <-]. split.
    + cbn. now rewrite orb_false_r.
    + intros (pre & q & post & Hp & _). now destruct pre.
  - destruct args as [|arg rest].
    { intros [= <-]. split.
      - cbn. now rewrite orb_false_r.
      - intros (pre & q & post & Hp & _). now destruct pre. }
    simpl in Hlen. cbn [parseLoop].
    destruct (startsWith arg "--") eqn:Harg.
    + destruct (parseOption arg (hd_error rest) o) as [[o1 consumed]|message] eqn:Ep;
        [|discriminate].
      pose proof (@parseOption_consumes _ _ _ _ _ Ep) as Hc.
      apply parseOption_ok in Ep as (_ & Hdir & _ & Hvalue).
      destruct consumed.
      * destruct (Hvalue eq_refl) as (v & Hv & _).
        destruct rest as [|v' rest]; [discriminate Hv|].
        intros Hl. apply IH in Hl; [|simpl in Hlen; lia].
        unfold unexpectedArgument.
        rewrite (@positionals_value _ _ _ Harg (eq_sym Hc)), <- Hdir. exact Hl.
      * intros Hl. apply IH in Hl; [|lia].
        unfold unexpectedArgument.
        rewrite (@positionals_flag _ _ Harg (eq_sym Hc)), <- Hdir. exact Hl.
    + destruct (truthy (dirPath o)) eqn:Hhave; cbn [negb]; [discriminate|].
      intros Hl. apply IH in Hl as [Hpath Hnone]; [|lia].
      cbn [dirPath setDirPath] in Hpath, Hnone.
      rewrite (@positionals_path _ _ Harg). split.
      * cbn [existsb orb]. exact Hpath.
      * intros (pre & q & post & Hp & [Hh | (p & Hin & Hne)]); [discriminate Hh|].
        destruct pre as [|p0 pre]; [destruct Hin|].
        rewrite (@positionals_path _ _ Harg) in Hp.
        cbn [app] in Hp. injection Hp as <- Hp.
        apply Hnone. exists pre, q, post. split; [exact Hp|].
        destruct Hin as [<- | Hin].
        -- left. destruct arg; [now contradiction Hne | reflexivity].
        -- right. now exists p.
Qed.

(** Errors in the arguments that follow are errors of the whole list. *)
Lemma errors_after (front rest : list string) :
  unknownOption rest \/ missingValue rest \/ badDepth rest \/ badSize rest ->
  unknownOption (front ++ rest)%list \/ missingValue (front ++ rest)%list \/
  badDepth (front ++ rest)%list \/ badSize (front ++ rest)%list.
Proof.
  intros [(arg & Hin & H) | [(pre & opt & rest' & -> & H) |
          [(pre & v & rest' & -> & H) | (pre & v & rest' & m & -> & H)]]].
  - left. exists arg. split; [apply in_or_app; now right | exact H].
  - right. left. exists (front ++ pre)%list, opt, rest'.
    split; [now rewrite app_assoc | exact H].
  - right. right. left. exists (front ++ pre)%list, v, rest'.
    split; [now rewrite app_assoc | exact H].
  - right. right. right. exists (front ++ pre)%list, v, rest', m.
    split; [now rewrite app_assoc | exact H].
Qed.

(** Why the loop throws. *)
Lemma parseLoop_throw_cases :
  forall n args o message,
    (List.length args <= n)%nat ->
    parseLoop args o = Throw message ->
    (unknownOption args \/ missingValue args \/ badDepth args \/ badSize args) \/
    unexpectedArgument (truthy (dirPath o)) args.
Proof.
  induction n as [|n IH]; intros args o message Hlen.
  - destruct args; [discriminate | simpl in Hlen; lia].
  - destruct args as [|arg rest]; [discriminate|].
    simpl in Hlen. cbn [parseLoop].
    destruct (startsWith arg "--") eqn:Harg.
    + destruct (parseOption arg (hd_error rest) o) as [[o1 consumed]|message'] eqn:Ep.
      * pose proof (@parseOption_consumes _ _ _ _ _ Ep) as Hc.
        apply parseOption_ok in Ep as (_ & Hdir & _ & Hvalue).
        destruct consumed.
        -- destruct (Hvalue eq_refl) as (v & Hv & _).
           destruct rest as [|v' rest]; [discriminate Hv|].
           intros Hl. apply IH in Hl; [|simpl in Hlen; lia]. destruct Hl as [Hl | Hl].
           ++ left. now apply (@errors_after [arg; v'] _).
           ++ right. unfold unexpectedArgument.
              rewrite (@positionals_value _ _ _ Harg (eq_sym Hc)), <- Hdir. exact Hl.
        -- intros Hl. apply IH in Hl; [|lia]. destruct Hl as [Hl | Hl].
           ++ left. now apply (@errors_after [arg] _).
           ++ right. unfold unexpectedArgument.
              rewrite (@positionals_flag _ _ Harg (eq_sym Hc)), <- Hdir. exact Hl.
      * intros _. left.
        apply parseOption_throw_cases in Ep
          as [Hunknown | [[Hin Hnext] | [[-> (v & Hv & Hbad)] |
                                         [-> (v & m & Hv & Hbad)]]]].
        -- left. exists arg. split; [now left | now split].
        -- right. left. exists [], arg, rest. split; [reflexivity|].
           split; [exact Hin | now destruct rest].
        -- right. right. left. destruct rest as [|v' rest]; [discriminate Hv|].
           injection Hv as ->. now exists [], v, rest.
        -- right. right. right. destruct rest as [|v' rest]; [discriminate Hv|].
           injection Hv as ->. now exists [], v, rest, m.
    + destruct (truthy (dirPath o)) eqn:Hhave; cbn [negb].
      * intros _. right. exists [], arg, (positionals rest).
        split; [now rewrite (@positionals_path _ _ Harg) | now left].
      * intros Hl. apply IH in Hl; [|lia]. destruct Hl as [Hl | Hl].
        -- left. now apply (@errors_after [arg] _).
        -- right. cbn [dirPath setDirPath] in Hl.
           destruct Hl as (pre & q & post & Hp & Hwhy).
           exists (arg :: pre), q, post.
           split; [rewrite (@positionals_path _ _ Harg), Hp; reflexivity|].
           right. destruct Hwhy as [Hwhy | (p & Hin & Hne)].
           ++ exists arg. split; [now left|]. intros ->. discriminate Hwhy.
           ++ exists p. split; [now right | exact Hne].
Qed.

Lemma missingPath_existsb (args : list string) :
  missingPath args <-> existsb (fun p => truthy (Some p)) (positionals args) = false.
Proof.
  unfold missingPath. split.
  - intros H. destruct (existsb _ (positionals args)) eqn:E; [|reflexivity].
    apply existsb_exists in E as (p & Hin & Hp). rewrite (H p Hin) in Hp.
    discriminate Hp.
  - intros H p Hin. destruct p; [reflexivity|]. exfalso.
    assert (E : existsb (fun p => truthy (Some p)) (positionals args) = true).
    { apply existsb_exists. eexists. split; [exact Hin | reflexivity]. }
    congruence.
Qed.

(** [parseArguments] throws on the configuration errors, and on nothing
    else. *)
Lemma parseArguments_throws_iff (args : list string) :
  (exists message, parseArguments args = Throw message) <-> configurationError args.
Proof.
  unfold parseArguments, bind. split.
  - intros [message H].
    destruct (parseLoop args defaults) as [o|m] eqn:El.
    + destruct (@parseLoop_positionals (List.length args) args defaults o (le_n _) El)
        as [Hpath _].
      cbn [dirPath defaults truthy orb] in Hpath.
      destruct (truthy (dirPath o)) eqn:Ht; [discriminate H|].
      right. right. right. right. left. apply missingPath_existsb. now symmetry.
    + apply (@parseLoop_throw_cases (List.length args) args defaults m (le_n _)) in El.
      destruct El as [[Hu | [Hm | [Hd | Hs]]] | Hx]; unfold configurationError; tauto.
  - assert (Hloop : (exists message, parseLoop args defaults = Throw message) ->
                    exists message,
                      match parseLoop args defaults with
                      | Ok a =>
                          if negb (truthy (dirPath a))
                          then Throw "Missing directory path. Use --help for usage information."
                          else Ok a
                      | Throw message => Throw message
                      end = Throw message).
    { intros [message E]. rewrite E. now exists message. }
    intros [(arg & Hin & Hopt & Hunknown) | [(pre & opt & rest & -> & Hin & Hbad) |
            [(pre & v & rest & -> & Hbad) | [(pre & v & rest & m & -> & Hbad) |
            [Hpath | Hsecond]]]]].
    + destruct (@unknown_option_throws_loop arg Hopt Hunknown (List.length args) args
                  defaults (le_n _) Hin) as [message E].
      apply Hloop. now exists message.
    + apply Hloop. destruct (@valueOptions_known _ Hin) as (Hopt & _ & _).
      apply (@throws_anywhere pre _ rest Hopt).
      intros o. now apply missing_value_throws.
    + apply Hloop. apply (@throws_anywhere pre "--depth" (v :: rest) eq_refl).
      intros o. apply bad_depth_throws. tauto.
    + apply Hloop. apply (@throws_anywhere pre "--size" (v :: rest) eq_refl).
      intros o. now apply bad_size_throws with m.
    + destruct (parseLoop args defaults) as [o|m] eqn:El; [|now exists m].
      destruct (@parseLoop_positionals (List.length args) args defaults o (le_n _) El)
        as [Ht _].
      apply missingPath_existsb in Hpath.
      rewrite Hpath in Ht. cbn [dirPath defaults truthy orb] in Ht. rewrite Ht.
      now eexists.
    + destruct (parseLoop args defaults) as [o|m] eqn:El; [|now exists m].
      destruct (@parseLoop_positionals (List.length args) args defaults o (le_n _) El)
        as [_ Hnone].
      now contradiction Hnone.
Qed.

Section MainProperties.

Local Open Scope list_scope.

Variable hostRegExp : string -> option (string -> bool).
Variable hostToString : Q -> string.
Variable readFileSync : path -> option string.
Variable resolve : string -> path * fsnode.

#[local] Abbreviation run := (main hostRegExp hostToString readFileSync resolve).
#[local] Abbreviation scan := (scanDirectory hostRegExp hostToString readFileSync).

Lemma main_help (args : list string) :
  isHelpRequested args = true -> run args = mkOutcome 0 [Usage] [].
Proof. intros H. unfold main. now rewrite H. Qed.

Lemma main_throw (args : list string) (message : string) :
  isHelpRequested args = false -> parseArguments args = Throw message ->
  run args = mkOutcome 1 [Error message; Usage] [].
Proof. intros H E. unfold main. now rewrite H, E. Qed.

Lemma noTraversal_usage (message : string) : noTraversal [Error message; Usage].
Proof. intros dirPath [H | [H | []]]; discriminate H. Qed.

(** C9, as amended.  A help request (no argument at all, or [--help] among
    the arguments) prints the usage and leaves with code 0 without any
    scan.  Otherwise the code is 1, with no directory listed, when
    [parseArguments] throws (which it does on an unknown option, on a
    missing path, on a bad [--depth] or [--size] value: what it returns has
    a path and a valid depth) and when the root is missing or not a
    directory; and it is 0 after a scan of the root, whatever the scan
    finds.  [parseArguments] throws exactly on the configuration errors: an
    unknown option, an option without its value, a bad [--depth] or
    [--size] value, wherever they stand among the arguments, no path, or a
    second path; so without a help request the code is 1 on every
    configuration error, and it is 1 only on a configuration error or a
    root that is not a directory. *)
Theorem main_exit_codes (args : list string) :
  (isHelpRequested args = true -> run args = mkOutcome 0 [Usage] []) /\
  (isHelpRequested args = false ->
   match parseArguments args with
   | Throw message => run args = mkOutcome 1 [Error message; Usage] []
   | Ok options =>
       exists d,
         dirPath options = Some d /\ validDepth options /\
         let (absolutePath, root) := resolve d in
         match root with
         | Dir _ _ =>
             exitCode (run args) = 0%Z /\
             files (run args)
             = fst (scan root absolutePath 0 (setBaseDir options absolutePath))
         | _ =>
             exitCode (run args) = 1%Z /\ files (run args) = [] /\
             noTraversal (log (run args))
         end
   end) /\
  (isHelpRequested args = false ->
   (exists arg, In arg args /\ startsWith arg "--" = true /\ ~ In arg knownOptions) \/
   noPathArgument args \/
   (exists rest, args = "--depth"%string :: rest /\
      match rest with
      | v :: _ => isNaN (Number v) = true \/ lt (Number v) (Finite 0) = true
      | [] => True
      end) \/
   (exists v rest message,
      args = "--size"%string :: v :: rest /\ parseSizeFilter v = Throw message) ->
   exitCode (run args) = 1%Z /\ files (run args) = [] /\ noTraversal (log (run args))) /\
  ((exists message, parseArguments args = Throw message) <-> configurationError args) /\
  (isHelpRequested args = false -> configurationError args ->
   exitCode (run args) = 1%Z /\ files (run args) = [] /\ noTraversal (log (run args))) /\
  (isHelpRequested args = false ->
   (exitCode (run args) = 1%Z <->
    configurationError args \/
    exists options d,
      parseArguments args = Ok options /\ dirPath options = Some d /\
      isDirectory (snd (resolve d)) = false)).
Proof.
  split; [apply main_help|]. split; [|split; [|split; [|split]]].
  - intros Hhelp. destruct (parseArguments args) as [options|message] eqn:Ep;
      [|now apply main_throw].
    destruct (parseArguments_ok args Ep) as [Ht Hvalid].
    destruct (dirPath options) as [d|] eqn:Ed; [|discriminate Ht].
    exists d. split; [reflexivity|]. split; [exact Hvalid|].
    unfold main. rewrite Hhelp, Ep, Ed.
    destruct (resolve d) as [absolutePath root].
    destruct root as [size mtime birthtime | readable items | | ].
    + repeat split. intros dirPath [H | [H | [H | []]]]; discriminate H.
    + destruct (scan (Dir readable items) absolutePath 0 (setBaseDir options absolutePath))
        as [found calls]. now split.
    + repeat split. intros dirPath [H | [H | [H | []]]]; discriminate H.
    + repeat split. intros dirPath [H | [H | []]]; discriminate H.
  - intros Hhelp Herr.
    assert (Hthrow : exists message, parseArguments args = Throw message).
    { destruct Herr as [(arg & Hin & Hopt & Hunknown) | [Hno | [Hdepth | Hsize]]].
      - now apply (unknown_option_throws args Hin).
      - now apply missing_path_throws.
      - destruct Hdepth as (rest & -> & Hbad).
        destruct (@bad_depth_throws rest defaults) as [message E].
        { destruct rest as [|v rest]; [exact I | tauto]. }
        exists message. unfold parseArguments, bind. now rewrite E.
      - destruct Hsize as (v & rest & message & -> & Hbad).
        destruct (@bad_size_throws v rest defaults message Hbad) as [message' E].
        exists message'. unfold parseArguments, bind. now rewrite E. }
    destruct Hthrow as [message E].
    rewrite (main_throw args Hhelp E). repeat split. apply noTraversal_usage.
  - apply parseArguments_throws_iff.
  - intros Hhelp Herr. apply parseArguments_throws_iff in Herr as [message E].
    rewrite (main_throw args Hhelp E). repeat split. apply noTraversal_usage.
  - intros Hhelp.
    pose proof (parseArguments_throws_iff args) as Hiff.
    destruct (parseArguments args) as [options|message] eqn:Ep.
    + destruct (parseArguments_ok args Ep) as [Ht _].
      destruct (dirPath options) as [d|] eqn:Ed; [|discriminate Ht].
      unfold main. rewrite Hhelp, Ep, Ed.
      destruct (resolve d) as [absolutePath root] eqn:Er.
      assert (Hnot : isDirectory root = false ->
                     configurationError args \/
                     exists options0 d0,
                       Ok options = Ok options0 /\ dirPath options0 = Some d0 /\
                       isDirectory (snd (resolve d0)) = false).
      { intros Hdir. right. exists options, d. rewrite Er. now repeat split. }
      destruct root as [size mtime birthtime | readable items | | ].
      * split; [intros _; now apply Hnot | reflexivity].
      * destruct (scan (Dir readable items) absolutePath 0
                    (setBaseDir options absolutePath)) as [found calls].
        split; [discriminate|].
        intros [Hc | (options0 & d0 & [= <-] & Hd0 & Hdir)].
        -- apply Hiff in Hc as [message Hm]. discriminate Hm.
        -- rewrite Ed in Hd0. injection Hd0 as <-. rewrite Er in Hdir.
           discriminate Hdir.
      * split; [intros _; now apply Hnot | reflexivity].
      * split; [intros _; now apply Hnot | reflexivity].
    + rewrite (main_throw args Hhelp Ep).
      split; [|reflexivity]. intros _. left. apply Hiff. now exists message.
Qed.

End MainProperties.

(** C9, as stated, fails: without any argument the path is missing and the
    code is 0; and an unknown option next to [--help] also ends with 0. *)
Lemma help_request_overrides_errors :
  ~ (forall hostRegExp hostToString readFileSync resolve args,
       noPathArgument args ->
       exitCode (main hostRegExp hostToString readFileSync resolve args) = 1%Z) /\
  ~ (forall hostRegExp hostToString readFileSync resolve args,
       (exists arg, In arg args /\ startsWith arg "--" = true /\ ~ In arg knownOptions) ->
       exitCode (main hostRegExp hostToString readFileSync resolve args) = 1%Z).
Proof.
  split; intros H.
  - specialize (H (fun _ => None) (fun _ => "") (fun _ => None)
                  (fun _ => ([], Missing)) []).
    assert (Hno : noPathArgument []) by (intros arg []).
    specialize (H Hno). discriminate H.
  - specialize (H (fun _ => None) (fun _ => "") (fun _ => None)
                  (fun _ => ([], Missing)) ["--bogus"; "--help"]).
    assert (E : exists arg, In arg ["--bogus"; "--help"] /\
                            startsWith arg "--" = true /\ ~ In arg knownOptions).
    { exists "--bogus". split; [now left|]. split; [reflexivity|].
      intros Hin. repeat (destruct Hin as [Hin | Hin]; [discriminate Hin|]).
      exact Hin. }
    specialize (H E). discriminate H.
Qed.

(** ** Instances *)



Lemma scanDirectory_depth_bound_witness :
  let options := setBaseDir (setDepth defaults (Finite 1)) ["root"] in
  let file :=
    fileInfo (fun _ => "") "d.txt" ["root"; "c"; "d.txt"] 5 0 0 options in
  depth options = Finite 1 /\
  In file (fst (scanDirectory (fun _ => None) (fun _ => "") (fun _ => None)
                  sampleTree (baseDir options) 0 options)) /\
  (inject_Z (Z.of_nat (pathDepth file)) <= 1)%Q.
Proof.
  intros options file.
  assert (Hd : depth options = Finite 1) by reflexivity.
  assert (Hin : In file (fst (scanDirectory (fun _ => None) (fun _ => "") (fun _ => None)
                                sampleTree (baseDir options) 0 options)))
    by (right; right; left; reflexivity).
  split; [exact Hd|]. split; [exact Hin|].
  exact (proj1 (@scanDirectory_depth_bound (fun _ => None) (fun _ => "") (fun _ => None)
                  options 1 Hd) sampleTree file Hin).
Defined.

Lemma read_failure_is_a_non_match_witness :
  let options := setBaseDir (setSearchText defaults (Some "ERROR")) ["root"] in
  let readFileSync :=
    fun filePath : path =>
      match filePath with
      | [_; "a.txt"] => None
      | _ => Some "an error was logged"
      end in
  truthy (searchText options) = true /\
  containsSearchText readFileSync ["root"; "a.txt"] (searchText options)
  = (false, [ReadFile ["root"; "a.txt"]]) /\
  accessible sampleTree = true /\
  fst (scanDirectory (fun _ => None) (fun _ => "") readFileSync sampleTree
         ["root"] 0 options)
  = filter (passes (fun _ => None) readFileSync options)
      (regularFiles (fun _ => "") sampleTree ["root"] 0 options) /\
  map name (filter (passes (fun _ => None) readFileSync options)
              (regularFiles (fun _ => "") sampleTree ["root"] 0 options))
  = ["b.log"; "d.txt"; "deep.txt"].
Proof.
  intros options readFileSync.
  assert (Ht : truthy (searchText options) = true) by reflexivity.
  assert (Ha : accessible sampleTree = true) by reflexivity.
  destruct (@read_failure_is_a_non_match (fun _ => None) (fun _ => "")
              readFileSync options Ht) as (Hfail & _ & _ & _ & Hall & _).
  split; [exact Ht|].
  split; [exact (Hfail ["root"; "a.txt"] eq_refl)|].
  split; [exact Ha|].
  split; [exact (Hall sampleTree ["root"] 0%nat Ha) | reflexivity].
Defined.

Lemma main_exit_codes_witness :
  isHelpRequested ["--stats"] = false /\
  noPathArgument ["--stats"] /\
  exitCode (main (fun _ => None) (fun _ => "") (fun _ => None)
              (fun _ => (["root"], sampleTree)) ["--stats"]) = 1%Z /\
  isHelpRequested ["dir"; "--depth"; "abc"] = false /\
  configurationError ["dir"; "--depth"; "abc"] /\
  exitCode (main (fun _ => None) (fun _ => "") (fun _ => None)
              (fun _ => (["root"], sampleTree)) ["dir"; "--depth"; "abc"]) = 1%Z.
Proof.
  assert (Hhelp : isHelpRequested ["--stats"] = false) by reflexivity.
  assert (Hno : noPathArgument ["--stats"]).
  { intros arg [<- | []]. reflexivity. }
  assert (Hhelp' : isHelpRequested ["dir"; "--depth"; "abc"] = false) by reflexivity.
  assert (Herr' : configurationError ["dir"; "--depth"; "abc"]).
  { right. right. left. exists ["dir"], "abc", []. split; [reflexivity|].
    left. reflexivity. }
  split; [exact Hhelp|]. split; [exact Hno|].
  destruct (@main_exit_codes (fun _ => None) (fun _ => "") (fun _ => None)
              (fun _ => (["root"], sampleTree)) ["--stats"]) as (_ & _ & Herr & _).
  split; [exact (proj1 (Herr Hhelp (or_intror (or_introl Hno))))|].
  split; [exact Hhelp'|]. split; [exact Herr'|].
  destruct (@main_exit_codes (fun _ => None) (fun _ => "") (fun _ => None)
              (fun _ => (["root"], sampleTree)) ["dir"; "--depth"; "abc"])
    as (_ & _ & _ & _ & Hconf & _).
  exact (proj1 (Hconf Hhelp' Herr')).
Defined.

(** * Further properties *)

(** ** Size filters *)

(** X1.  [parseSizeFilter] succeeds exactly on the strings made of one of
    six operators, a number and an optional unit, and then returns that
    operator with the number multiplied by the unit; on every other string
    it throws the invalid-format message. *)
Theorem parseSizeFilter_characterisation (s : string) :
  (forall filter,
     parseSizeFilter s = Ok filter <->
     exists op num u,
       In op acceptedOperators /\ sizeNumber num /\ sizeUnit u /\
       s = op ++ num ++ u /\
       filter = {| operator := op; bytes := thresholdOf num u |}) /\
  ((exists filter, parseSizeFilter s = Ok filter) \/
   parseSizeFilter s = Throw invalidSizeFilter).
Proof.
  split.
  - intros filter. split.
    + apply parseSizeFilter_inv.
    + intros (op & num & u & Hop & Hnum & Hu & -> & ->).
      now apply parseSizeFilter_accepts.
  - unfold parseSizeFilter. destruct (sizeFilterMatch s) as [[[op num] unit]|].
    + left. now eexists.
    + right. reflexivity.
Qed.

Lemma Qcompare_inject_Z (a b : Z) : (inject_Z a ?= inject_Z b)%Q = (a ?= b)%Z.
Proof. unfold Qcompare, inject_Z. simpl. now rewrite !Z.mul_1_r. Qed.

Lemma lt_integers (a b : Z) :
  lt (Finite (inject_Z a)) (Finite (inject_Z b)) = (a <? b)%Z.
Proof. unfold lt. rewrite Qcompare_inject_Z. reflexivity. Qed.

Lemma strictEq_integers (a b : Z) :
  strictEq (Finite (inject_Z a)) (Finite (inject_Z b)) = (a =? b)%Z.
Proof.
  unfold strictEq.
  destruct (Z.eqb_spec a b) as [-> | Hne].
  - apply Qeq_bool_iff. reflexivity.
  - destruct (Qeq_bool (inject_Z a) (inject_Z b)) eqn:E; [|reflexivity].
    apply Qeq_bool_eq in E. apply -> inject_Z_injective in E. contradiction.
Qed.

Lemma le_integers (a b : Z) :
  le (Finite (inject_Z a)) (Finite (inject_Z b)) = (a <=? b)%Z.
Proof.
  unfold le. rewrite lt_integers, strictEq_integers.
  destruct (Z.ltb_spec a b), (Z.eqb_spec a b), (Z.leb_spec a b);
    try reflexivity; lia.
Qed.

(** X2.  With an integer threshold each of the five operators compares the
    file size with the threshold as it reads; against an infinite threshold
    (a number too long for a double) nothing is greater and everything is
    smaller. *)
Theorem matchesSizeFilter_compares (fileSize threshold : Z) :
  matchesSizeFilter fileSize (sizeFilterOf ">" threshold) = (threshold <? fileSize)%Z /\
  matchesSizeFilter fileSize (sizeFilterOf "<" threshold) = (fileSize <? threshold)%Z /\
  matchesSizeFilter fileSize (sizeFilterOf "=" threshold) = (fileSize =? threshold)%Z /\
  matchesSizeFilter fileSize (sizeFilterOf ">=" threshold) = (threshold <=? fileSize)%Z /\
  matchesSizeFilter fileSize (sizeFilterOf "<=" threshold) = (fileSize <=? threshold)%Z /\
  matchesSizeFilter fileSize
    (Some {| operator := ">"; bytes := Infinity false |}) = false /\
  matchesSizeFilter fileSize
    (Some {| operator := "<"; bytes := Infinity false |}) = true.
Proof.
  unfold sizeFilterOf, matchesSizeFilter, ofZ.
  cbn [String.eqb Ascii.eqb Bool.eqb]. cbv iota.
  unfold ge, gt. rewrite !lt_integers, !le_integers, strictEq_integers.
  repeat split.
Qed.

(** ** Records of a scan *)

Lemma toLowerChar_idempotent (c : ascii) : toLowerChar (toLowerChar c) = toLowerChar c.
Proof. destruct c as [[] [] [] [] [] [] [] []]; reflexivity. Qed.

Lemma toLowerCase_idempotent (s : string) : lowercase (toLowerCase s).
Proof.
  unfold lowercase, toLowerCase. induction s as [|c s IH]; simpl; [reflexivity|].
  now rewrite toLowerChar_idempotent, IH.
Qed.

(** A regular file of a tree lies below the directory the tree is found
    at, and its path ends with its name. *)
Lemma fileAt_below node dirPath filePath item size :
  fileAt node dirPath filePath item size ->
  exists rest,
    filePath = (dirPath ++ rest)%list /\ rest <> [] /\ last rest "" = item.
Proof.
  induction 1 as [readable items dirPath item size mtime birthtime Hin
                 | readable items dirPath item child filePath name size Hin Hat IH].
  - exists [item]. repeat split. discriminate.
  - destruct IH as (rest & -> & Hne & Hlast).
    exists (item :: rest). unfold join. rewrite <- app_assoc.
    repeat split; [discriminate|].
    destruct rest as [|segment rest]; [contradiction | exact Hlast].
Qed.

Section MoreScanProperties.

Local Open Scope list_scope.

Variable hostRegExp : string -> option (string -> bool).
Variable hostToString : Q -> string.
Variable readFileSync : path -> option string.

#[local] Abbreviation scan := (scanDirectory hostRegExp hostToString readFileSync).
#[local] Abbreviation loop := (forLoop hostRegExp hostToString readFileSync).
#[local] Abbreviation filters := (applyFilters hostRegExp readFileSync).
#[local] Abbreviation info := (fileInfo hostToString).
#[local] Abbreviation throwing := (throwing hostRegExp).

(** Every record is the [fileInfo] of a regular file of the tree. *)
Lemma scanDirectory_records (o : Options) (file : FileRecord) (node : fsnode) :
  forall dirPath d,
    In file (fst (scan node dirPath d o)) ->
    fileAt node dirPath (path_ file) (name file) (size file) /\
    file = info (name file) (path_ file) (size file) (modified file) (created file) o.
Proof.
  induction node as [ | readable items IH | | ] using fsnode_ind;
    intros dirPath d; rewrite scanDirectory_unfold;
    destruct (gt (ofNat d) (depth o)); try (intros []).
  destruct readable; [|intros []].
  enough (H : forall log results,
             In file (fst (loop (fun child itemPath => scan child itemPath (S d) o)
                             dirPath o items results log)) ->
             In file results \/
             (fileAt (Dir true items) dirPath (path_ file) (name file) (size file) /\
              file = info (name file) (path_ file) (size file)
                       (modified file) (created file) o)).
  { intros Hin. destruct (H _ _ Hin) as [[] | Hfile]. exact Hfile. }
  assert (Hlater : forall entry rest,
             fileAt (Dir true rest) dirPath (path_ file) (name file) (size file) /\
             file = info (name file) (path_ file) (size file)
                      (modified file) (created file) o ->
             fileAt (Dir true (entry :: rest)) dirPath (path_ file) (name file)
               (size file) /\
             file = info (name file) (path_ file) (size file)
                      (modified file) (created file) o).
  { intros entry rest [Hat Heq]. split; [now apply fileAt_later | exact Heq]. }
  induction IH as [|[item child] rest Hchild Hrest IHrest]; intros log results; simpl.
  - now left.
  - destruct child as [size mtime birthtime | readable' items' | | ].
    + destruct (filters item (join dirPath item) size o) as [[[|]|] calls]; simpl.
      * intros Hin. destruct (IHrest _ _ Hin) as [Hres | Hfile];
          [|right; now apply Hlater].
        apply in_app_or in Hres as [Hres | [<- | []]]; [now left|].
        right. split; [|reflexivity]. cbn [path_ name Scanner.size fileInfo].
        eapply fileHere. left. reflexivity.
      * intros Hin. destruct (IHrest _ _ Hin) as [Hres | Hfile];
          [now left | right; now apply Hlater].
      * now left.
    + cbn [snd] in Hchild. specialize (Hchild (join dirPath item) (S d)).
      destruct (scan (Dir readable' items') (join dirPath item) (S d) o)
        as [sub calls].
      simpl in Hchild. intros Hin.
      destruct (IHrest _ _ Hin) as [Hres | Hfile]; [|right; now apply Hlater].
      apply in_app_or in Hres as [Hres | Hsub]; [now left|].
      right. destruct (Hchild Hsub) as [Hat Heq]. split; [|exact Heq].
      eapply fileBelow; [left; reflexivity | exact Hat].
    + intros Hin. destruct (IHrest _ _ Hin) as [Hres | Hfile];
        [now left | right; now apply Hlater].
    + now left.
Qed.

(** X3.  Every record of a scan started at the root describes a regular
    file of the tree: its path is the root followed by its relative path,
    which ends with its name; its extension is the lower-cased extension of
    the name; its readable size is [formatBytes] of its size; and its size
    and times are those of the file. *)
Theorem scanDirectory_records_describe_files (options : Options) (root : fsnode)
  (file : FileRecord) :
  In file (fst (scan root (baseDir options) 0 options)) ->
  fileAt root (baseDir options) (path_ file) (name file) (size file) /\
  path_ file = baseDir options ++ relativePath file /\
  relativePath file <> [] /\
  last (relativePath file) ""%string = name file /\
  extension file = toLowerCase (extnameBase (name file)) /\
  lowercase (extension file) /\
  sizeHuman file = formatBytes hostToString (inject_Z (size file)).
Proof.
  intros Hin. destruct (scanDirectory_records _ _ _ _ _ Hin) as [Hat Heq].
  destruct (fileAt_below Hat) as (rest & Hpath & Hne & Hlast).
  assert (Hrel : relativePath file = rest).
  { rewrite Heq. cbn [relativePath fileInfo]. rewrite Hpath.
    apply relative_extension. }
  split; [exact Hat|]. rewrite Hrel. repeat split; try assumption.
  - rewrite Heq. reflexivity.
  - rewrite Heq. cbn [extension fileInfo]. apply toLowerCase_idempotent.
  - rewrite Heq. reflexivity.
Qed.

Lemma filter_In_passes (o : Options) (node : fsnode) (dirPath : path) (d : nat)
  (file : FileRecord) :
  In file (fst (scan node dirPath d o)) ->
  passes hostRegExp readFileSync o file = true.
Proof.
  rewrite scanDirectory_filters. intros Hin. now apply filter_In in Hin.
Qed.

(** X4.  Every record a scan returns passes the four filters of the
    configuration: its extension is in the list (or the list is empty), the
    name pattern compiles and matches its name, its size satisfies the size
    filter and, under a search text, its content could be read and contains
    the text. *)
Theorem scanDirectory_records_pass_filters (options : Options) (node : fsnode)
  (dirPath : path) (currentDepth : nat) (file : FileRecord) :
  In file (fst (scan node dirPath currentDepth options)) ->
  matchesExtension (path_ file) (extensions options) = true /\
  matchesNamePattern hostRegExp (name file) (namePattern options) = Some true /\
  matchesSizeFilter (size file) (sizeFilter options) = true /\
  (truthy (searchText options) = true ->
   exists content text,
     readFileSync (path_ file) = Some content /\
     searchText options = Some text /\
     includes (toLowerCase content) (toLowerCase text) = true).
Proof.
  intros Hin. apply filter_In_passes in Hin. unfold passes in Hin.
  apply andb_prop in Hin as [Hin Hsearch].
  apply andb_prop in Hin as [Hin Hsize].
  apply andb_prop in Hin as [Hext Hname].
  split; [exact Hext|]. split.
  { destruct (matchesNamePattern hostRegExp (name file) (namePattern options))
      as [[|]|]; try discriminate Hname. reflexivity. }
  split; [exact Hsize|].
  intros Ht. unfold containsSearchText in Hsearch.
  destruct (searchText options) as [[|c text]|]; try discriminate Ht.
  destruct (readFileSync (path_ file)) as [content|]; [|discriminate Hsearch].
  exists content, (String c text). now repeat split.
Qed.

(** *** The depth bound as a parameter *)

Lemma scanDirectory_depth_monotone (o : Options) (d1 d2 : number) (node : fsnode) :
  (forall k, gt (ofNat k) d2 = true -> gt (ofNat k) d1 = true) ->
  forall dirPath k,
    incl (fst (scan node dirPath k (setDepth o d1)))
         (fst (scan node dirPath k (setDepth o d2))).
Proof.
  intros Hd.
  induction node as [ | readable items IH | | ] using fsnode_ind;
    intros dirPath k; rewrite !scanDirectory_unfold;
    change (depth (setDepth o d1)) with d1; change (depth (setDepth o d2)) with d2;
    (destruct (gt (ofNat k) d1) eqn:E1; [apply incl_nil_l|]);
    (destruct (gt (ofNat k) d2) eqn:E2; [apply Hd in E2; congruence|]);
    try apply incl_refl.
  destruct readable; [|apply incl_refl].
  enough (H : forall log1 log2 results1 results2,
             incl results1 results2 ->
             incl (fst (loop (fun child itemPath =>
                                scan child itemPath (S k) (setDepth o d1))
                          dirPath (setDepth o d1) items results1 log1))
                  (fst (loop (fun child itemPath =>
                                scan child itemPath (S k) (setDepth o d2))
                          dirPath (setDepth o d2) items results2 log2)))
    by (apply H, incl_refl).
  induction IH as [|[item child] rest Hchild Hrest IHrest];
    intros log1 log2 results1 results2 Hincl; simpl.
  - exact Hincl.
  - destruct child as [size mtime birthtime | readable' items' | | ].
    + change (filters item (join dirPath item) size (setDepth o d2))
        with (filters item (join dirPath item) size (setDepth o d1)).
      change (info item (join dirPath item) size mtime birthtime (setDepth o d2))
        with (info item (join dirPath item) size mtime birthtime (setDepth o d1)).
      destruct (filters item (join dirPath item) size (setDepth o d1))
        as [[[|]|] calls]; simpl.
      * apply IHrest. apply incl_app; [now apply incl_appl | now apply incl_appr].
      * now apply IHrest.
      * exact Hincl.
    + cbn [snd] in Hchild. specialize (Hchild (join dirPath item) (S k)).
      destruct (scan (Dir readable' items') (join dirPath item) (S k) (setDepth o d1))
        as [sub1 calls1].
      destruct (scan (Dir readable' items') (join dirPath item) (S k) (setDepth o d2))
        as [sub2 calls2].
      apply IHrest. simpl in Hchild.
      apply incl_app; [now apply incl_appl | now apply incl_appr].
    + now apply IHrest.
    + exact Hincl.
Qed.

(** X5.  Raising the depth bound never loses a record: what a scan finds
    with a bound is found with any larger bound, and with no bound at all. *)
Theorem raising_depth_keeps_records (options : Options) (node : fsnode)
  (dirPath : path) (currentDepth : nat) :
  (forall a b : Q,
     (a <= b)%Q ->
     incl (fst (scan node dirPath currentDepth (setDepth options (Finite a))))
          (fst (scan node dirPath currentDepth (setDepth options (Finite b))))) /\
  (forall bound : number,
     incl (fst (scan node dirPath currentDepth (setDepth options bound)))
          (fst (scan node dirPath currentDepth (setDepth options (Infinity false))))).
Proof.
  split.
  - intros a b Hab. apply scanDirectory_depth_monotone.
    intros k Hk. apply gt_ofNat_Finite. apply gt_ofNat_Finite in Hk.
    now apply Qle_lt_trans with b.
  - intros bound. apply scanDirectory_depth_monotone.
    intros k Hk. discriminate Hk.
Qed.

(** *** What a scan logs *)

Lemma scanDirectory_log (o : Options) (node : fsnode) :
  forall dirPath d e,
    In e (snd (scan node dirPath d o)) -> scanEvent (truthy (searchText o)) e.
Proof.
  induction node as [ | readable items IH | | ] using fsnode_ind;
    intros dirPath d e; rewrite scanDirectory_unfold;
    destruct (gt (ofNat d) (depth o));
    try (intros [<- | [<- | []]]; exact I); try (intros []).
  destruct readable; [|intros [<- | [<- | []]]; exact I].
  revert e.
  enough (H : forall log results,
             (forall e, In e log -> scanEvent (truthy (searchText o)) e) ->
             forall e,
               In e (snd (loop (fun child itemPath => scan child itemPath (S d) o)
                            dirPath o items results log)) ->
               scanEvent (truthy (searchText o)) e).
  { apply H. intros e [<- | []]. exact I. }
  induction IH as [|[item child] rest Hchild Hrest IHrest];
    intros log results Hlog; simpl.
  - apply Hlog.
  - assert (Hstat : forall e, In e (log ++ [Stat (join dirPath item)]) ->
                              scanEvent (truthy (searchText o)) e).
    { intros e He. apply in_app_or in He as [He | [<- | []]];
        [now apply Hlog | exact I]. }
    destruct child as [size mtime birthtime | readable' items' | | ].
    + pose proof (@applyFilters_calls hostRegExp readFileSync o item (join dirPath item) size)
        as Hcalls.
      assert (Hboth : forall e,
                 In e ((log ++ [Stat (join dirPath item)])
                       ++ snd (filters item (join dirPath item) size o)) ->
                 scanEvent (truthy (searchText o)) e).
      { intros e He. apply in_app_or in He as [He | He]; [now apply Hstat|].
        destruct (Hcalls e He) as [-> Ht]. exact Ht. }
      destruct (filters item (join dirPath item) size o) as [[[|]|] calls];
        cbn [snd] in Hboth.
      * now apply IHrest.
      * now apply IHrest.
      * intros e Hin. rewrite app_assoc in Hin.
        apply in_app_or in Hin as [Hin | [<- | []]]; [now apply Hboth | exact I].
    + cbn [snd] in Hchild. specialize (Hchild (join dirPath item) (S d)).
      destruct (scan (Dir readable' items') (join dirPath item) (S d) o)
        as [sub calls].
      cbn [snd] in Hchild. apply IHrest.
      intros e He. apply in_app_or in He as [He | He];
        [now apply Hstat | now apply Hchild].
    + now apply IHrest.
    + intros e Hin. apply in_app_or in Hin as [Hin | [<- | []]];
        [now apply Hstat | exact I].
Qed.

(** X6.  A scan only lists directories, examines entries, warns, and reads
    file contents; without a search text it never reads the content of any
    file. *)
Theorem scan_without_search_reads_nothing (options : Options) (node : fsnode)
  (dirPath : path) (currentDepth : nat) :
  truthy (searchText options) = false ->
  forall filePath,
    ~ In (ReadFile filePath) (snd (scan node dirPath currentDepth options)).
Proof.
  intros Ht filePath Hin. apply scanDirectory_log in Hin.
  simpl in Hin. congruence.
Qed.

(** *** Warnings *)

(** X7.  Scanning a directory tree in which every directory can be listed
    and every entry examined, with a name pattern that compiles, prints no
    warning. *)
Theorem healthy_tree_scans_without_warning (options : Options) (node : fsnode) :
  ~ throwing options ->
  accessible node = true -> isDirectory node = true ->
  forall dirPath currentDepth warned,
    ~ In (Warn warned) (snd (scan node dirPath currentDepth options)).
Proof.
  intros Hn Hacc Hdir dirPath currentDepth warned.
  now apply scanDirectory_no_warning.
Qed.

(** *** Entries that fail *)

(** A listing that ends with an entry [statSync] fails on gives the records
    of the listing without it, and a warning for the directory. *)
Lemma forLoop_missing_last recurse dirPath (o : Options) item before :
  forall results log,
    fst (loop recurse dirPath o (before ++ [(item, Missing)]) results log)
    = fst (loop recurse dirPath o before results log) /\
    In (Warn dirPath)
      (snd (loop recurse dirPath o (before ++ [(item, Missing)]) results log)).
Proof.
  induction before as [|[entry child] before IH]; intros results log; simpl.
  - split; [reflexivity|]. apply in_or_app. right. now left.
  - destruct child as [size mtime birthtime | readable items | | ].
    + destruct (filters entry (join dirPath entry) size o) as [[[|]|] calls]; simpl.
      * apply IH.
      * apply IH.
      * split; [reflexivity|]. apply in_or_app. right.
        apply in_or_app. right. now left.
    + destruct (recurse (Dir readable items) (join dirPath entry)) as [sub calls].
      apply IH.
    + apply IH.
    + split; [reflexivity|]. apply in_or_app. right. now left.
Qed.

(** X8.  An entry that cannot be examined costs exactly the entries listed
    after it: the records are those of the listing cut before that entry,
    and, unless the directory lies beyond the depth bound, a warning names
    the directory. *)
Theorem stat_failure_keeps_earlier_records (options : Options) (dirPath : path)
  (currentDepth : nat) (before after : list (string * fsnode)) (item : string) :
  fst (scan (Dir true (before ++ (item, Missing) :: after)) dirPath currentDepth options)
  = fst (scan (Dir true before) dirPath currentDepth options) /\
  (gt (ofNat currentDepth) (depth options) = false ->
   In (Warn dirPath)
     (snd (scan (Dir true (before ++ (item, Missing) :: after)) dirPath currentDepth
             options))).
Proof.
  rewrite !scanDirectory_unfold.
  destruct (gt (ofNat currentDepth) (depth options)).
  - split; [reflexivity | discriminate].
  - rewrite stat_failure_ends_loop.
    destruct (@forLoop_missing_last
                (fun child itemPath => scan child itemPath (S currentDepth) options)
                dirPath options item before [] [Readdir dirPath]) as [Hfst Hwarn].
    split; [exact Hfst | intros _; exact Hwarn].
Qed.

(** *** Extension lists *)

Lemma startsWith_dot (s : string) :
  startsWith s "." = true <-> exists t, s = String "." t.
Proof.
  unfold startsWith. destruct s as [|c s]; cbn [String.prefix].
  - split; [discriminate | intros [t Ht]; discriminate Ht].
  - destruct (ascii_dec "." c) as [<- | Hne].
    + split; [now exists s | intros _; now destruct s].
    + split; [discriminate | intros [t [= Hc _]]; now contradiction Hne].
Qed.

Lemma lastDot_dot (s e : string) : lastDot s = Some e -> startsWith e "." = true.
Proof.
  revert e. induction s as [|c s IH]; intros e; simpl; [discriminate|].
  destruct (lastDot s) as [e'|].
  - intros [= <-]. now apply IH.
  - destruct (Ascii.eqb_spec c "."); [|discriminate].
    intros [= <-]. subst c. apply startsWith_dot. now exists s.
Qed.

(** What [path.extname] returns is empty or starts with a dot. *)
Lemma extnameBase_shape (base : string) :
  extnameBase base = "" \/ startsWith (extnameBase base) "." = true.
Proof.
  unfold extnameBase. destruct (lastDot base) as [e|] eqn:E; [|now left].
  destruct (String.eqb e base); [now left|].
  destruct (String.eqb base ".."); [now left|].
  right. now apply lastDot_dot with base.
Qed.

Lemma toLowerCase_dot (s : string) :
  startsWith s "." = true -> startsWith (toLowerCase s) "." = true.
Proof.
  intros H. apply startsWith_dot in H as [t ->]. apply startsWith_dot.
  now exists (toLowerCase t).
Qed.

Lemma matchesExtension_dotless (filePath : path) (extensions : list string) :
  extensions <> [] -> (forall ext, In ext extensions -> dotless ext) ->
  matchesExtension filePath extensions = false.
Proof.
  intros Hne Hall. unfold matchesExtension.
  destruct extensions as [|ext0 rest]; [contradiction|].
  destruct (existsb _ (ext0 :: rest)) eqn:E; [|reflexivity].
  apply existsb_exists in E as (ext & Hin & Heq).
  apply String.eqb_eq in Heq. subst ext.
  destruct (Hall _ Hin) as [Hnonempty Hdot].
  unfold extname in *.
  destruct (extnameBase_shape (last filePath "")) as [Hshape | Hshape].
  - rewrite Hshape in Hnonempty. now contradiction Hnonempty.
  - apply toLowerCase_dot in Hshape. congruence.
Qed.

(** X9.  Extensions given without their leading dot select nothing: a scan
    whose extension list is not empty and has only entries that are not
    empty and do not start with a dot returns no record. *)
Theorem dotless_extensions_select_nothing (options : Options) (node : fsnode)
  (dirPath : path) (currentDepth : nat) :
  extensions options <> [] ->
  (forall ext, In ext (extensions options) -> dotless ext) ->
  (forall filePath, matchesExtension filePath (extensions options) = false) /\
  fst (scan node dirPath currentDepth options) = [].
Proof.
  intros Hne Hall.
  assert (H : forall filePath, matchesExtension filePath (extensions options) = false)
    by (intros filePath; now apply matchesExtension_dotless).
  split; [exact H|].
  rewrite scanDirectory_filters. apply filter_none.
  intros file. unfold passes. now rewrite H.
Qed.

(** *** Depth bounds that are not whole numbers *)

Lemma scanDirectory_depth_ext (o : Options) (d1 d2 : number) (node : fsnode) :
  (forall k, gt (ofNat k) d1 = gt (ofNat k) d2) ->
  forall dirPath k,
    scan node dirPath k (setDepth o d1) = scan node dirPath k (setDepth o d2).
Proof.
  intros Hd.
  induction node as [ | readable items IH | | ] using fsnode_ind;
    intros dirPath k; rewrite !scanDirectory_unfold;
    change (depth (setDepth o d1)) with d1; change (depth (setDepth o d2)) with d2;
    rewrite Hd; destruct (gt (ofNat k) d2); try reflexivity.
  destruct readable; [|reflexivity].
  generalize (@nil FileRecord) [Readdir dirPath].
  induction IH as [|[item child] rest Hchild Hrest IHrest]; intros results log; simpl.
  - reflexivity.
  - destruct child as [size mtime birthtime | readable' items' | | ].
    + change (filters item (join dirPath item) size (setDepth o d2))
        with (filters item (join dirPath item) size (setDepth o d1)).
      change (info item (join dirPath item) size mtime birthtime (setDepth o d2))
        with (info item (join dirPath item) size mtime birthtime (setDepth o d1)).
      destruct (filters item (join dirPath item) size (setDepth o d1))
        as [[[|]|] calls]; simpl; [apply IHrest | apply IHrest | reflexivity].
    + cbn [snd] in Hchild. rewrite (Hchild (join dirPath item) (S k)).
      destruct (scan (Dir readable' items') (join dirPath item) (S k) (setDepth o d2))
        as [sub calls].
      apply IHrest.
    + apply IHrest.
    + reflexivity.
Qed.

Lemma Qfloor_lt_nat (q : Q) (k : nat) :
  (q < inject_Z (Z.of_nat k))%Q <-> (inject_Z (Qfloor q) < inject_Z (Z.of_nat k))%Q.
Proof.
  split; intros H.
  - apply Qle_lt_trans with q; [apply Qfloor_le | exact H].
  - rewrite <- Zlt_Qlt in H.
    apply Qlt_le_trans with (inject_Z (Qfloor q + 1)); [apply Qlt_floor|].
    rewrite <- Zle_Qle. lia.
Qed.

(** X10.  A depth bound that is not a whole number acts as the whole number
    below it: the records and the calls of a scan are those of the scan
    with the bound rounded down. *)
Theorem fractional_depth_is_rounded_down (options : Options) (node : fsnode)
  (dirPath : path) (currentDepth : nat) (bound : Q) :
  scan node dirPath currentDepth (setDepth options (Finite bound))
  = scan node dirPath currentDepth
      (setDepth options (Finite (inject_Z (Qfloor bound)))).
Proof.
  apply scanDirectory_depth_ext. intros k.
  destruct (gt (ofNat k) (Finite bound)) eqn:E1,
           (gt (ofNat k) (Finite (inject_Z (Qfloor bound)))) eqn:E2;
    try reflexivity.
  - apply gt_ofNat_Finite in E1. apply Qfloor_lt_nat in E1.
    apply gt_ofNat_Finite in E1. congruence.
  - apply gt_ofNat_Finite in E2. apply Qfloor_lt_nat in E2.
    apply gt_ofNat_Finite in E2. congruence.
Qed.

End MoreScanProperties.

(** ** Name patterns *)

Section PatternProperties.

Variable hostRegExp : string -> option (string -> bool).

Lemma parseSimple_cons (c : ascii) (rest : string) :
  parseSimple (String c rest)
  = match (if Ascii.eqb c "." then Some AnyChar
           else if isSyntaxChar c then None else Some (Lit c)) with
    | None => None
    | Some a =>
        match afterChar "*" rest with
        | Some rest' => option_map (cons (a, true)) (parseSimple rest')
        | None => option_map (cons (a, false)) (parseSimple rest)
        end
    end.
Proof.
  destruct rest as [|c' rest]; [reflexivity|].
  destruct c' as [[] [] [] [] [] [] [] []]; reflexivity.
Qed.

Lemma translate_cons (c : ascii) (pattern : string) :
  translate (String c pattern)
  = if Ascii.eqb c "*" then String "." (String "*" (translate pattern))
    else if Ascii.eqb c "?" then String "." (translate pattern)
    else String c (translate pattern).
Proof.
  unfold translate. cbn [replaceAll].
  destruct (Ascii.eqb c "*"); [reflexivity|]. cbn [replaceAll].
  destruct (Ascii.eqb c "?"); reflexivity.
Qed.

(** The translation never starts with a star. *)
Lemma translate_head (pattern : string) : afterChar "*" (translate pattern) = None.
Proof.
  destruct pattern as [|c pattern]; [reflexivity|]. rewrite translate_cons.
  destruct (Ascii.eqb c "*") eqn:Estar; [reflexivity|].
  destruct (Ascii.eqb c "?"); [reflexivity|].
  unfold afterChar. now rewrite Estar.
Qed.

Lemma wildcardPattern_cons (c : ascii) (pattern : string) :
  wildcardPattern (String c pattern) ->
  (isSyntaxChar c = false \/ c = "*"%char \/ c = "?"%char \/ c = "."%char) /\
  wildcardPattern pattern.
Proof.
  intros H. split; [apply H; now left|].
  intros c' Hin. apply H. now right.
Qed.

(** The translation of a pattern of ordinary characters, dots and wildcards
    lies in the fragment [RegExp] interprets. *)
Lemma parseSimple_translate (pattern : string) :
  wildcardPattern pattern -> parseSimple (translate pattern) = Some (atomsOf pattern).
Proof.
  induction pattern as [|c pattern IH]; intros Hw; [reflexivity|].
  apply wildcardPattern_cons in Hw as [Hc Hw]. specialize (IH Hw).
  rewrite translate_cons. cbn [atomsOf].
  destruct (Ascii.eqb_spec c "*") as [-> | Hstar].
  { rewrite parseSimple_cons. cbn. now rewrite IH. }
  destruct (Ascii.eqb_spec c "?") as [-> | Hmark].
  { rewrite parseSimple_cons, translate_head. cbn. now rewrite IH. }
  rewrite parseSimple_cons, translate_head.
  destruct (Ascii.eqb_spec c ".") as [-> | Hdot].
  { cbn. now rewrite IH. }
  destruct Hc as [Hc | [Hc | [Hc | Hc]]]; try contradiction.
  rewrite Hc. cbn. now rewrite IH.
Qed.

Lemma matchesNamePattern_wildcards (pattern fileName : string) :
  wildcardPattern pattern ->
  matchesNamePattern hostRegExp fileName (Some pattern)
  = Some (search (atomsOf pattern) fileName).
Proof.
  intros Hw. unfold matchesNamePattern, RegExp.
  destruct pattern as [|c pattern]; [now destruct fileName|].
  fold (translate (String c pattern)). now rewrite parseSimple_translate.
Qed.

(** *** Patterns without wildcards *)

Lemma upper_of_lower (c : ascii) : toUpperChar (toLowerChar c) = toUpperChar c.
Proof. destruct c as [[] [] [] [] [] [] [] []]; reflexivity. Qed.

Lemma lower_of_upper (c : ascii) : toLowerChar (toUpperChar c) = toLowerChar c.
Proof. destruct c as [[] [] [] [] [] [] [] []]; reflexivity. Qed.

Lemma same_letter (c d : ascii) :
  Ascii.eqb (toUpperChar c) (toUpperChar d) = true <-> toLowerChar c = toLowerChar d.
Proof.
  rewrite Ascii.eqb_eq. split; intros H.
  - rewrite <- (lower_of_upper c), <- (lower_of_upper d). now rewrite H.
  - rewrite <- (upper_of_lower c), <- (upper_of_lower d). now rewrite H.
Qed.

Lemma plain_cons (c : ascii) (pattern : string) :
  plain (String c pattern) -> isSyntaxChar c = false /\ plain pattern.
Proof.
  intros H. split; [apply H; now left|].
  intros c' Hin. apply H. now right.
Qed.

Lemma plain_wildcardPattern (pattern : string) : plain pattern -> wildcardPattern pattern.
Proof. intros H c Hin. left. now apply H. Qed.

Lemma matchHere_plain (pattern : string) :
  plain pattern ->
  forall s,
    matchHere (atomsOf pattern) s
    = String.prefix (toLowerCase pattern) (toLowerCase s).
Proof.
  induction pattern as [|c pattern IH]; intros Hp s.
  - now destruct s.
  - apply plain_cons in Hp as [Hc Hp]. specialize (IH Hp).
    cbn [atomsOf].
    destruct (Ascii.eqb_spec c "*") as [-> | _]; [discriminate Hc|].
    destruct (Ascii.eqb_spec c "?") as [-> | _]; [discriminate Hc|].
    destruct (Ascii.eqb_spec c ".") as [-> | _]; [discriminate Hc|].
    destruct s as [|d s]; [reflexivity|].
    cbn [orb matchHere atomMatches toLowerCase mapString String.prefix].
    fold (toLowerCase pattern). fold (toLowerCase s).
    destruct (ascii_dec (toLowerChar c) (toLowerChar d)) as [Heq | Hne].
    + apply same_letter in Heq. rewrite Heq. apply IH.
    + destruct (Ascii.eqb (toUpperChar c) (toUpperChar d)) eqn:E; [|reflexivity].
      apply same_letter in E. contradiction.
Qed.

Lemma search_plain (pattern : string) :
  plain pattern ->
  forall s,
    search (atomsOf pattern) s = includes (toLowerCase s) (toLowerCase pattern).
Proof.
  intros Hp s. induction s as [|d s IH].
  - cbn [search includes toLowerCase mapString]. now rewrite matchHere_plain.
  - cbn [search includes toLowerCase mapString]. fold (toLowerCase s).
    rewrite IH, matchHere_plain by assumption. reflexivity.
Qed.

(** X11.  For a name and a pattern of ASCII characters, on which the
    case folding of the expression and that of [toLowerCase] are the ones
    modelled, a pattern without wildcards and without characters special in
    a regular expression selects exactly the names that contain it, letter
    case ignored: it need not match the whole name. *)
Theorem plain_pattern_is_substring_search (pattern fileName : string) :
  asciiOnly pattern -> asciiOnly fileName ->
  plain pattern ->
  matchesNamePattern hostRegExp fileName (Some pattern)
  = Some (includes (toLowerCase fileName) (toLowerCase pattern)).
Proof.
  intros _ _ Hp.
  rewrite matchesNamePattern_wildcards by now apply plain_wildcardPattern.
  now rewrite search_plain.
Qed.

(** *** Wildcards at the ends *)

Lemma matchHere_star (a : atom) (its : list (atom * bool)) (s : string) :
  matchHere ((a, true) :: its) s = starMatch a its s.
Proof.
  induction s as [|d s IH]; [reflexivity|].
  cbn [starMatch]. rewrite <- IH. reflexivity.
Qed.

Lemma starMatch_search (a : atom) (its : list (atom * bool)) (s : string) :
  starMatch a its s = true -> search its s = true.
Proof.
  induction s as [|d s IH]; cbn [starMatch search].
  - now rewrite !orb_false_r.
  - intros H. apply orb_prop in H as [H | H]; [now rewrite H|].
    apply andb_prop in H as [_ H]. rewrite (IH H). apply orb_true_r.
Qed.

Lemma search_star_first (a : atom) (its : list (atom * bool)) (s : string) :
  search ((a, true) :: its) s = search its s.
Proof.
  induction s as [|d s IH].
  - cbn [search]. rewrite matchHere_star. cbn [starMatch].
    now rewrite !orb_false_r.
  - cbn [search]. rewrite IH, matchHere_star. cbn [starMatch].
    destruct (matchHere its (String d s)); [reflexivity|].
    destruct (atomMatches a d); [|reflexivity].
    destruct (starMatch a its s) eqn:E; [|reflexivity].
    now rewrite (starMatch_search _ _ _ E).
Qed.

Lemma matchHere_star_last (a : atom) (its : list (atom * bool)) :
  forall s, matchHere (its ++ [(a, true)]) s = matchHere its s.
Proof.
  induction its as [|[b [|]] its IH]; intros s.
  - cbn [app]. rewrite matchHere_star. now destruct s.
  - cbn [app]. rewrite !matchHere_star.
    induction s as [|d s IHs]; cbn [starMatch].
    + now rewrite IH.
    + now rewrite IH, IHs.
  - cbn [app]. destruct s as [|d s]; [reflexivity|].
    cbn [matchHere]. now rewrite IH.
Qed.

Lemma search_star_last (a : atom) (its : list (atom * bool)) (s : string) :
  search (its ++ [(a, true)]) s = search its s.
Proof.
  induction s as [|d s IH]; cbn [search]; rewrite matchHere_star_last.
  - reflexivity.
  - now rewrite IH.
Qed.

Lemma atomsOf_app (p q : string) :
  atomsOf (p ++ q) = (atomsOf p ++ atomsOf q)%list.
Proof.
  induction p as [|c p IH]; [reflexivity|].
  cbn [String.append atomsOf app]. now rewrite IH.
Qed.

Lemma wildcardPattern_app (p q : string) :
  wildcardPattern p -> wildcardPattern q -> wildcardPattern (p ++ q).
Proof.
  intros Hp Hq. induction p as [|c p IH]; [exact Hq|].
  apply wildcardPattern_cons in Hp as [Hc Hp].
  intros c' [<- | Hin]; [exact Hc | now apply IH].
Qed.

Lemma wildcardPattern_star : wildcardPattern "*".
Proof. intros c [<- | []]. right. now left. Qed.

(** X12.  A [*] at the start or at the end of a pattern of ordinary
    characters, dots and wildcards changes nothing: the pattern is searched
    for anywhere in the name, with or without it. *)
Theorem wildcard_at_an_end_is_redundant (pattern fileName : string) :
  wildcardPattern pattern ->
  matchesNamePattern hostRegExp fileName (Some ("*" ++ pattern))
  = matchesNamePattern hostRegExp fileName (Some pattern) /\
  matchesNamePattern hostRegExp fileName (Some (pattern ++ "*"))
  = matchesNamePattern hostRegExp fileName (Some pattern).
Proof.
  intros Hw.
  rewrite !matchesNamePattern_wildcards;
    try assumption;
    try (apply wildcardPattern_app; [assumption | apply wildcardPattern_star]);
    try (apply wildcardPattern_app; [apply wildcardPattern_star | assumption]).
  rewrite atomsOf_app. split.
  - cbn [atomsOf app Ascii.eqb Bool.eqb]. cbv iota. now rewrite search_star_first.
  - rewrite atomsOf_app. cbn [atomsOf Ascii.eqb Bool.eqb]. cbv iota.
    now rewrite search_star_last.
Qed.

End PatternProperties.

(** ** The options parseArguments builds *)

Lemma not_an_option (s v : string) :
  startsWith v "--" = false -> startsWith s "--" = true -> String.eqb s v = false.
Proof.
  intros Hv Hs. destruct (String.eqb_spec s v) as [-> | _]; [congruence | reflexivity].
Qed.

Lemma changed_refl {A : Type} (x : A) (P : A -> Prop) : changed x x P.
Proof. now left. Qed.

Lemma changed_trans {A : Type} (x y z : A) (P Q R : A -> Prop) :
  (forall a, P a -> R a) -> (forall a, Q a -> R a) ->
  changed x y P -> changed y z Q -> changed x z R.
Proof.
  intros HP HQ [-> | Hy] [-> | Hz].
  - now left.
  - right. now apply HQ.
  - right. now apply HP.
  - right. now apply HQ.
Qed.

Lemma optionValue_app_l (l1 l2 : list string) (v : string) :
  optionValue l1 v -> optionValue (l1 ++ l2)%list v.
Proof. intros (Hin & H). split; [apply in_or_app; now left | exact H]. Qed.

Lemma optionValue_app_r (l1 l2 : list string) (v : string) :
  optionValue l2 v -> optionValue (l1 ++ l2)%list v.
Proof. intros (Hin & H). split; [apply in_or_app; now right | exact H]. Qed.

Create HintDb args.

#[local] Hint Resolve optionValue_app_l optionValue_app_r : args.

Lemma fromArguments_refl (o : Options) : fromArguments [] o o.
Proof.
  unfold fromArguments. cbn [existsb]. rewrite !orb_false_r.
  repeat split; apply changed_refl.
Qed.

Lemma fromArguments_trans (l1 l2 : list string) (o1 o2 o3 : Options) :
  fromArguments l1 o1 o2 -> fromArguments l2 o2 o3 ->
  fromArguments (l1 ++ l2)%list o1 o3.
Proof.
  intros (Hd1 & Hp1 & He1 & Hn1 & Hs1 & Ht1 & Ha1 & Hb1 & Hc1 & Hf1 & Hg1)
         (Hd2 & Hp2 & He2 & Hn2 & Hs2 & Ht2 & Ha2 & Hb2 & Hc2 & Hf2 & Hg2).
  unfold fromArguments. rewrite !existsb_app.
  rewrite Ha2, Ha1, Hb2, Hb1, Hc2, Hc1, Hf2, Hf1, Hg2, Hg1, !orb_assoc.
  repeat split; try reflexivity;
    match goal with
    | H1 : changed ?x ?y _, H2 : changed ?y ?z _ |- changed ?x ?z _ =>
        refine (@changed_trans _ _ _ _ _ _ _ _ _ H1 H2); cbv beta
    end.
  - intros a (d & -> & Hin & Hs). exists d. repeat split; auto using in_or_app.
  - intros a (d & -> & Hin & Hs). exists d. repeat split; auto using in_or_app.
  - intros a (v & Hv & H). exists v. split; auto with args.
  - intros a (v & Hv & H). exists v. split; auto with args.
  - intros a (v & Hv & H). exists v. split; auto with args.
  - intros a (v & Hv & H). exists v. split; auto with args.
  - intros a (v & Hv & H). exists v. split; auto with args.
  - intros a (v & Hv & H). exists v. split; auto with args.
  - intros a (v & g & Hv & H). exists v, g. split; auto with args.
  - intros a (v & g & Hv & H). exists v, g. split; auto with args.
  - intros a (v & Hv & H). exists v. split; auto with args.
  - intros a (v & Hv & H). exists v. split; auto with args.
Qed.

(** One option, with the argument it consumes if it does. *)
Lemma parseOption_fromArguments (arg : string) (next : option string)
  (o o' : Options) (consumed : bool) :
  startsWith arg "--" = true ->
  parseOption arg next o = Ok (o', consumed) ->
  if consumed
  then exists v, next = Some v /\ fromArguments [arg; v] o o'
  else fromArguments [arg] o o'.
Proof.
  intros Harg. unfold parseOption, bind.
  repeat match goal with
         | |- context [String.eqb arg ?s] =>
             destruct (String.eqb_spec arg s) as [-> | ?]
         end;
    try discriminate;
    try (destruct (valueOf next _) as [v|] eqn:Ev; [|discriminate];
         apply valueOf_value in Ev as (-> & Hne & Hs));
    try (destruct (isNaN (Number v) || lt (Number v) (Finite 0)) eqn:Ed;
         [discriminate|]);
    try (destruct (parseSizeFilter v) as [g|] eqn:Eg; [|discriminate]);
    intros [= <- <-];
    try (exists v; split; [reflexivity|]);
    unfold fromArguments;
    cbn [existsb dirPath depth extensions namePattern sizeFilter searchText
           showTree showStats outputJson outputCsv baseDir
           setDepth setExtensions setNamePattern setSizeFilter setSearchText
           setShowTree setShowStats setOutputJson setOutputCsv];
    rewrite ?(@not_an_option "--tree" v), ?(@not_an_option "--stats" v),
      ?(@not_an_option "--json" v), ?(@not_an_option "--csv" v) by easy;
    repeat match goal with
           | |- context [String.eqb ?a ?b] =>
               destruct (String.eqb_spec a b); try congruence
           end;
    cbn [orb]; rewrite ?orb_false_r, ?orb_true_r;
    repeat split; try apply changed_refl; right;
    first [exists v, g | exists v]; unfold optionValue; cbn [In];
    repeat split; auto.
Qed.

Lemma parseLoop_fromArguments :
  forall n args o o',
    (List.length args <= n)%nat ->
    parseLoop args o = Ok o' -> fromArguments args o o'.
Proof.
  induction n as [|n IH]; intros args o o' Hlen.
  - destruct args; [|simpl in Hlen; lia]. intros [= <-]. apply fromArguments_refl.
  - destruct args as [|arg rest]; [intros [= <-]; apply fromArguments_refl|].
    simpl in Hlen. cbn [parseLoop].
    destruct (startsWith arg "--") eqn:Harg.
    + destruct (parseOption arg (hd_error rest) o) as [[o1 consumed]|message] eqn:Ep;
        [|discriminate].
      apply (@parseOption_fromArguments _ _ _ _ _ Harg) in Ep.
      destruct consumed.
      * destruct Ep as (v & Hv & Hstep).
        destruct rest as [|v' rest']; [discriminate Hv|].
        injection Hv as ->. intros Hl.
        apply (@fromArguments_trans _ rest' _ _ _ Hstep). apply IH; [simpl in Hlen; lia | exact Hl].
      * intros Hl. apply (@fromArguments_trans [arg] rest _ _ _ Ep).
        apply IH; [lia | exact Hl].
    + destruct (negb (truthy (dirPath o))); [|discriminate].
      intros Hl. apply (@fromArguments_trans [arg] rest o (setDirPath o (Some arg))).
      * unfold fromArguments.
        cbn [existsb dirPath depth extensions namePattern sizeFilter searchText
               showTree showStats outputJson outputCsv baseDir setDirPath].
        rewrite !(@not_an_option _ arg Harg) by reflexivity.
        cbn [orb]. rewrite !orb_false_r.
        repeat split; try apply changed_refl.
        right. exists arg. repeat split; [now left | exact Harg].
      * apply IH; [lia | exact Hl].
Qed.

(** *** Extension lists are trimmed and lower-cased *)

Lemma isWhiteSpace_lower (c : ascii) : isWhiteSpace (toLowerChar c) = isWhiteSpace c.
Proof. destruct c as [[] [] [] [] [] [] [] []]; reflexivity. Qed.

Lemma trimStart_lower (s : string) :
  trimStart (toLowerCase s) = toLowerCase (trimStart s).
Proof.
  induction s as [|c s IH]; [reflexivity|].
  cbn [toLowerCase mapString trimStart]. rewrite isWhiteSpace_lower.
  destruct (isWhiteSpace c); [exact IH | reflexivity].
Qed.

Lemma trimEnd_lower (s : string) :
  trimEnd (toLowerCase s) = toLowerCase (trimEnd s).
Proof.
  induction s as [|c s IH]; [reflexivity|].
  cbn [toLowerCase mapString trimEnd]. fold (toLowerCase s). rewrite IH.
  rewrite isWhiteSpace_lower.
  destruct (trimEnd s); [now destruct (isWhiteSpace c) | reflexivity].
Qed.

Lemma trimEnd_idempotent (s : string) : trimEnd (trimEnd s) = trimEnd s.
Proof.
  induction s as [|c s IH]; [reflexivity|]. cbn [trimEnd].
  destruct (trimEnd s) as [|a t] eqn:E.
  - destruct (isWhiteSpace c) eqn:Ec; [reflexivity|]. cbn [trimEnd]. now rewrite Ec.
  - cbn [trimEnd]. cbn [trimEnd] in IH. now rewrite IH.
Qed.

Lemma trimStart_shape (s : string) :
  trimStart s = "" \/ exists c t, trimStart s = String c t /\ isWhiteSpace c = false.
Proof.
  induction s as [|c s IH]; [now left|]. cbn [trimStart].
  destruct (isWhiteSpace c) eqn:Ec; [exact IH|]. right. now exists c, s.
Qed.

Lemma trim_idempotent (s : string) : trim (trim s) = trim s.
Proof.
  unfold trim.
  assert (H : trimStart (trimEnd (trimStart s)) = trimEnd (trimStart s)).
  { destruct (trimStart_shape s) as [-> | (c & t & -> & Hc)]; [reflexivity|].
    cbn [trimEnd]. destruct (trimEnd t); rewrite ?Hc; cbn [trimStart]; now rewrite Hc. }
  rewrite H. apply trimEnd_idempotent.
Qed.

Lemma extension_entry (entry : string) :
  lowercase (toLowerCase (trim entry)) /\
  trim (toLowerCase (trim entry)) = toLowerCase (trim entry).
Proof.
  split; [apply toLowerCase_idempotent|].
  unfold trim at 1. rewrite trimStart_lower, trimEnd_lower.
  fold (trim (trim entry)). now rewrite trim_idempotent.
Qed.

Lemma parseArguments_fromArguments (args : list string) (options : Options) :
  parseArguments args = Ok options -> fromArguments args defaults options.
Proof.
  unfold parseArguments, bind.
  destruct (parseLoop args defaults) as [o|] eqn:El; [|discriminate].
  destruct (negb (truthy (dirPath o))); [discriminate|].
  intros [= <-].
  now apply (@parseLoop_fromArguments (List.length args) args defaults o (le_n _)).
Qed.

(** X13.  The options [parseArguments] returns come from the arguments: the
    directory path is an argument that is not empty and is no option; the
    depth is no NaN and not negative, and unless it is the default it is the
    number written in an argument; every extension is lower-cased and has
    no white space around it; the name pattern and the search text are
    arguments that are not empty and are no options; the size filter is
    [parseSizeFilter] of an argument; and each of the four flags is set
    exactly when its option is among the arguments. *)
Theorem parseArguments_well_formed (args : list string) (options : Options) :
  parseArguments args = Ok options ->
  (exists d, dirPath options = Some d /\ d <> "" /\ In d args /\
             startsWith d "--" = false) /\
  validDepth options /\
  (depth options = Infinity false \/
   exists v, optionValue args v /\ depth options = Number v) /\
  (forall ext, In ext (extensions options) -> lowercase ext /\ trim ext = ext) /\
  (forall pattern, namePattern options = Some pattern -> optionValue args pattern) /\
  (forall text, searchText options = Some text -> optionValue args text) /\
  (forall filter, sizeFilter options = Some filter ->
     exists v, optionValue args v /\ parseSizeFilter v = Ok filter) /\
  showTree options = existsb (String.eqb "--tree") args /\
  showStats options = existsb (String.eqb "--stats") args /\
  outputJson options = existsb (String.eqb "--json") args /\
  outputCsv options = existsb (String.eqb "--csv") args.
Proof.
  intros Hparse. destruct (parseArguments_ok _ Hparse) as [Hpath Hdepth].
  destruct (parseArguments_fromArguments _ Hparse)
    as (Hd & Hp & He & Hn & Hs & Ht & Ha & Hb & Hc & Hf & _).
  cbn [defaults dirPath depth extensions namePattern sizeFilter searchText
         showTree showStats outputJson outputCsv orb] in *.
  split.
  { destruct Hd as [Hd | (d & Hd & Hin & Hopt)].
    - rewrite Hd in Hpath. discriminate Hpath.
    - exists d. repeat split; try assumption.
      intros ->. rewrite Hd in Hpath. discriminate Hpath. }
  split; [exact Hdepth|]. split.
  { destruct Hp as [Hp | (v & Hv & Hp & _)]; [now left|]. right. now exists v. }
  split.
  { intros ext H.
    destruct He as [He | (v & _ & He)]; [rewrite He in H; destruct H|].
    rewrite He in H. apply in_map_iff in H as (entry & <- & _).
    apply extension_entry. }
  split.
  { intros pattern H. destruct Hn as [Hn | (v & Hv & Hn)]; [congruence|].
    rewrite Hn in H. injection H as <-. exact Hv. }
  split.
  { intros text H. destruct Ht as [Ht | (v & Hv & Ht)]; [congruence|].
    rewrite Ht in H. injection H as <-. exact Hv. }
  split.
  { intros filter H. destruct Hs as [Hs | (v & g & Hv & Hg & Hs)]; [congruence|].
    rewrite Hs in H. injection H as <-. now exists v. }
  repeat split; assumption.
Qed.

(** ** A whole run *)

Section MoreMainProperties.

Local Open Scope list_scope.

Variable hostRegExp : string -> option (string -> bool).
Variable hostToString : Q -> string.
Variable readFileSync : path -> option string.
Variable resolve : string -> path * fsnode.

#[local] Abbreviation run := (main hostRegExp hostToString readFileSync resolve).
#[local] Abbreviation scan := (scanDirectory hostRegExp hostToString readFileSync).

(** A run that gets to the scan: no help request, arguments that parse, and
    a directory at the resolved path. *)
Lemma main_scans (args : list string) (options : Options) (d : string) :
  isHelpRequested args = false ->
  parseArguments args = Ok options ->
  dirPath options = Some d ->
  isDirectory (snd (resolve d)) = true ->
  exitCode (run args) = 0%Z /\
  files (run args)
  = fst (scan (snd (resolve d)) (fst (resolve d)) 0
           (setBaseDir options (fst (resolve d)))).
Proof.
  intros Hhelp Hparse Hd Hdir. unfold main. rewrite Hhelp, Hparse, Hd.
  destruct (resolve d) as [absolutePath root]. cbn [fst snd] in *.
  destruct root as [size mtime birthtime | readable items | | ];
    try discriminate Hdir.
  destruct (scan (Dir readable items) absolutePath 0 (setBaseDir options absolutePath))
    as [found calls]. now split.
Qed.

(** Records come from a run that got to the scan. *)
Lemma main_files (args : list string) (file : FileRecord) :
  In file (files (run args)) ->
  isHelpRequested args = false /\
  exists options d,
    parseArguments args = Ok options /\ dirPath options = Some d /\
    isDirectory (snd (resolve d)) = true.
Proof.
  unfold main. destruct (isHelpRequested args); [intros []|].
  destruct (parseArguments args) as [options|message] eqn:Ep; [|intros []].
  destruct (parseArguments_ok args Ep) as [Ht _].
  destruct (dirPath options) as [d|] eqn:Ed; [|discriminate Ht].
  destruct (resolve d) as [absolutePath root] eqn:Er.
  destruct root as [size mtime birthtime | readable items | | ]; try (intros []).
  intros _. split; [reflexivity|]. exists options, d.
  rewrite Er. now repeat split.
Qed.

(** X14.  Whatever a run reports was found by a scan: there was no help
    request, the arguments parsed, the path resolved to a directory, and
    every record describes a regular file below that directory which passes
    the four filters of the parsed options. *)
Theorem main_reports_matching_files (args : list string) (file : FileRecord) :
  In file (files (run args)) ->
  isHelpRequested args = false /\
  exitCode (run args) = 0%Z /\
  exists options d,
    parseArguments args = Ok options /\ dirPath options = Some d /\
    isDirectory (snd (resolve d)) = true /\
    fileAt (snd (resolve d)) (fst (resolve d)) (path_ file) (name file) (size file) /\
    path_ file = fst (resolve d) ++ relativePath file /\
    passes hostRegExp readFileSync options file = true.
Proof.
  intros Hin.
  destruct (main_files _ _ Hin) as (Hhelp & options & d & Hparse & Hd & Hdir).
  destruct (@main_scans _ _ _ Hhelp Hparse Hd Hdir) as [Hcode Hfiles].
  split; [exact Hhelp|]. split; [exact Hcode|].
  exists options, d. rewrite Hfiles in Hin.
  destruct (scanDirectory_records _ _ _ _ _ _ _ _ Hin) as [Hat Heq].
  repeat split; try assumption.
  - destruct (fileAt_below Hat) as (rest & Hpath & _).
    rewrite Hpath at 1. f_equal. rewrite Heq. cbn [relativePath fileInfo baseDir setBaseDir].
    rewrite Hpath. symmetry. apply relative_extension.
  - apply filter_In_passes in Hin. exact Hin.
Qed.

(** X15.  A name pattern that does not compile is not reported as an
    error: the run ends with code 0 and no record, as if nothing matched. *)
Theorem invalid_pattern_is_not_an_error (args : list string) (options : Options)
  (d : string) :
  isHelpRequested args = false ->
  parseArguments args = Ok options ->
  dirPath options = Some d ->
  isDirectory (snd (resolve d)) = true ->
  throwing hostRegExp options ->
  exitCode (run args) = 0%Z /\ files (run args) = [].
Proof.
  intros Hhelp Hparse Hd Hdir Hthrow.
  destruct (@main_scans _ _ _ Hhelp Hparse Hd Hdir) as [Hcode Hfiles].
  split; [exact Hcode|]. rewrite Hfiles.
  now apply throwing_results_nil.
Qed.

End MoreMainProperties.

(** ** Whole numbers are read exactly *)

Lemma Qred_inject_Z (n : Z) : Qred (inject_Z n) = inject_Z n.
Proof.
  unfold Qred, inject_Z.
  pose proof (Z.ggcd_correct_divisors n 1) as Hd.
  pose proof (Z.ggcd_gcd n 1) as Hg. rewrite Z.gcd_1_r in Hg.
  destruct (Z.ggcd n 1) as [g [aa bb]]. cbn [fst] in Hg. subst g.
  destruct Hd as [Ha Hb]. rewrite !Z.mul_1_l in *. now subst aa bb.
Qed.

Lemma Qpow2_nonneg (e : Z) : (0 <= e)%Z -> Qpow2 e = inject_Z (2 ^ e).
Proof. intros H. unfold Qpow2. now rewrite (proj2 (Z.leb_le 0 e) H). Qed.

(** Scaling by [2^k] and back. *)
Lemma Qpow2_scale (k : Z) (n : Z) :
  (0 <= k)%Z ->
  (inject_Z n / Qpow2 (- k) == inject_Z (n * 2 ^ k))%Q /\
  (inject_Z (n * 2 ^ k) * Qpow2 (- k) == inject_Z n)%Q.
Proof.
  intros Hk.
  assert (Hpos : (0 < 2 ^ k)%Z) by (apply Z.pow_pos_nonneg; lia).
  assert (Hp : (Qpow2 (- k) == 1 / inject_Z (2 ^ k))%Q).
  { unfold Qpow2. destruct (Z.leb_spec 0 (- k)) as [Hle | Hlt].
    - replace k with 0%Z by lia. reflexivity.
    - rewrite Z.opp_involutive. unfold Qeq, Qdiv, Qmult, Qinv, inject_Z. simpl.
      destruct (2 ^ k)%Z as [|p|p] eqn:E; try lia. simpl. reflexivity. }
  assert (Hne : ~ (inject_Z (2 ^ k) == 0)%Q).
  { intros H. unfold Qeq in H. simpl in H. lia. }
  rewrite Hp, inject_Z_mult. split; field; exact Hne.
Qed.

Lemma roundHalfEven_integer (m : Q) (z : Z) : (m == inject_Z z)%Q -> roundHalfEven m = z.
Proof.
  intros H. unfold roundHalfEven.
  assert (Hf : Qfloor m = z) by (rewrite H; apply Qfloor_Z).
  rewrite Hf.
  assert (Hc : (m - inject_Z z ?= 1 # 2)%Q = Lt).
  { rewrite <- Qlt_alt. rewrite H. unfold Qlt, Qminus, Qplus, Qopp, inject_Z. simpl. lia. }
  now rewrite Hc.
Qed.

Lemma floorLog2_integer (n : Z) : (0 < n)%Z -> floorLog2 (inject_Z n) = Z.log2 n.
Proof.
  intros Hn. unfold floorLog2. cbn [Qnum Qden inject_Z].
  change (Z.log2 1) with 0%Z. rewrite Z.sub_0_r.
  assert (H : Qle_bool (Qpow2 (Z.log2 n)) (inject_Z n) = true).
  { rewrite Qpow2_nonneg by apply Z.log2_nonneg.
    apply Qle_bool_iff. rewrite <- Zle_Qle. now apply Z.log2_spec. }
  now rewrite H.
Qed.

(** A whole number below [2^53] is a double. *)
Lemma roundDouble_integer (n : Z) :
  (0 <= n < 2 ^ 53)%Z -> roundDouble (inject_Z n) = Finite (inject_Z n).
Proof.
  intros [Hlo Hhi]. unfold roundDouble.
  destruct (Z.eq_dec n 0) as [-> | Hne]; [reflexivity|].
  assert (Hpos : (0 < n)%Z) by lia.
  assert (Hc : (inject_Z n ?= 0)%Q = Gt).
  { rewrite <- Qgt_alt. change 0%Q with (inject_Z 0). now rewrite <- Zlt_Qlt. }
  rewrite Hc. unfold roundPositive. rewrite floorLog2_integer by assumption.
  assert (He : (0 <= Z.log2 n < 53)%Z).
  { split; [apply Z.log2_nonneg | apply Z.log2_lt_pow2; lia]. }
  set (k := (52 - Z.log2 n)%Z).
  replace (Z.max (Z.log2 n - 52) (-1074)) with (- k)%Z by (unfold k; lia).
  destruct (@Qpow2_scale k n ltac:(unfold k; lia)) as [Hdiv Hmul].
  rewrite (roundHalfEven_integer Hdiv).
  assert (Hsmall : Qle_bool (Qpow2 1024) (inject_Z (n * 2 ^ k) * Qpow2 (- k)) = false).
  { apply Qle_bool_false. rewrite Hmul. rewrite Qpow2_nonneg by lia.
    rewrite <- Zlt_Qlt. apply Z.lt_trans with (2 ^ 53)%Z; [exact Hhi|].
    apply Z.pow_lt_mono_r; lia. }
  rewrite Hsmall. f_equal.
  rewrite (Qred_complete _ _ Hmul). apply Qred_inject_Z.
Qed.

Lemma digit_not_white (c : ascii) : isDigit c = true -> isWhiteSpace c = false.
Proof. destruct c as [[] [] [] [] [] [] [] []]; try reflexivity; discriminate. Qed.

Lemma trimEnd_digits (s : string) : allDigits s = true -> trimEnd s = s.
Proof.
  induction s as [|c s IH]; [reflexivity|]. cbn [allDigits trimEnd].
  intros H. apply andb_prop in H as [Hc Hs]. rewrite (IH Hs).
  destruct s; [now rewrite (digit_not_white _ Hc) | reflexivity].
Qed.

Lemma trim_digits (s : string) : allDigits s = true -> trim s = s.
Proof.
  intros H. unfold trim.
  assert (Hs : trimStart s = s).
  { destruct s as [|c s]; [reflexivity|]. cbn [allDigits] in H.
    apply andb_prop in H as [Hc _]. cbn [trimStart].
    now rewrite (digit_not_white _ Hc). }
  rewrite Hs. now apply trimEnd_digits.
Qed.

Lemma append_empty (s : string) : s ++ "" = s.
Proof. induction s as [|c s IH]; [reflexivity|]. cbn [String.append]. now rewrite IH. Qed.

Lemma parseUnsignedDecimal_digits (i : string) :
  digits i ->
  parseUnsignedDecimal i = Some (roundDouble (inject_Z (digitsValue i))).
Proof.
  intros [Hne Hd]. unfold parseUnsignedDecimal.
  destruct (String.eqb_spec i "Infinity") as [-> | _]; [discriminate Hd|].
  pose proof (@span_digits i "" Hd I) as Hspan. rewrite append_empty in Hspan.
  rewrite Hspan, append_empty.
  destruct i as [|c i]; [now contradiction Hne|].
  cbn [parseExponent]. unfold decimalValue. rewrite append_empty.
  do 2 f_equal. unfold Qmult, inject_Z, Qpow10. cbn. now rewrite Z.mul_1_r.
Qed.

(** [Number] on a string of decimal digits. *)
Lemma Number_digits (i : string) :
  digits i -> Number i = roundDouble (inject_Z (digitsValue i)).
Proof.
  intros Hi. pose proof (parseUnsignedDecimal_digits Hi) as Hp.
  destruct Hi as [Hne Hd]. unfold Number. rewrite (trim_digits _ Hd).
  destruct i as [|c r]; [now contradiction Hne|].
  transitivity (orNaN (parseUnsignedDecimal (String c r))); [|now rewrite Hp].
  clear Hp.
  cbn [allDigits] in Hd. apply andb_prop in Hd as [Hc Hr].
  destruct c as [[] [] [] [] [] [] [] []]; try discriminate Hc; try reflexivity.
  destruct r as [|c2 r2]; [reflexivity|].
  cbn [allDigits] in Hr. apply andb_prop in Hr as [Hc2 _].
  destruct c2 as [[] [] [] [] [] [] [] []]; try discriminate Hc2; reflexivity.
Qed.

Lemma digitsIn_nonneg (s : string) :
  forall acc v, (0 <= acc)%Z -> digitsIn 10 s acc = Some v -> (0 <= v)%Z.
Proof.
  induction s as [|c s IH]; intros acc v Hacc; cbn [digitsIn].
  - intros [= <-]. exact Hacc.
  - destruct (digitVal c) as [d|] eqn:Ed; [|discriminate].
    destruct (d <? 10)%Z; [|discriminate].
    apply IH.
    assert (0 <= d)%Z; [|lia].
    unfold digitVal in Ed.
    destruct (isDigit c) eqn:E1; [|destruct (between 97 102 c) eqn:E2;
                                   [|destruct (between 65 70 c) eqn:E3; [|discriminate]]];
      injection Ed as <-; unfold isDigit, between in *;
      apply andb_prop in E1 || apply andb_prop in E2 || apply andb_prop in E3.
    all: match goal with H : _ /\ _ |- _ => destruct H as [H1 H2] end;
      apply N.leb_le in H1; lia.
Qed.

Lemma digitsValue_nonneg (s : string) : (0 <= digitsValue s)%Z.
Proof.
  unfold digitsValue. destruct (digitsIn 10 s 0) as [v|] eqn:E; [|lia].
  now apply (@digitsIn_nonneg s 0 v).
Qed.

Lemma multiplierOf_positive (u : string) : sizeUnit u -> (0 < multiplierOf u)%Z.
Proof.
  intros Hu. destruct (multiplierOf_units u) as (H0 & H1 & H2 & H3 & H4).
  destruct Hu as [Hu | [Hu | [Hu | [Hu | [Hu | []]]]]].
  - rewrite (H0 Hu). lia.
  - rewrite (H2 (eq_sym Hu)). lia.
  - rewrite (H3 (eq_sym Hu)). lia.
  - rewrite (H4 (eq_sym Hu)). lia.
  - rewrite (H1 (eq_sym Hu)). lia.
Qed.

(** X16.  A size filter with a whole number is read exactly as long as the
    threshold stays below 2^53 bytes: [parseSizeFilter] returns the operator
    with the number times 1, 1024, 1024^2 or 1024^3 according to the unit,
    with no rounding. *)
Theorem whole_size_filters_are_exact (op i u : string) :
  In op acceptedOperators -> digits i -> sizeUnit u ->
  (digitsValue i * multiplierOf u < 2 ^ 53)%Z ->
  parseSizeFilter (op ++ i ++ u)
  = Ok {| operator := op;
          bytes := Finite (inject_Z (digitsValue i * multiplierOf u)) |}.
Proof.
  intros Hop Hi Hu Hbound.
  rewrite (@parseSizeFilter_accepts op i u Hop (whole Hi) Hu).
  do 2 f_equal. unfold thresholdOf.
  pose proof (digitsValue_nonneg i) as Hn.
  pose proof (multiplierOf_positive Hu) as Hm.
  rewrite (Number_digits Hi), roundDouble_integer by nia.
  unfold mul, ofZ.
  replace (inject_Z (digitsValue i) * inject_Z (multiplierOf u))%Q
    with (inject_Z (digitsValue i * multiplierOf u))
    by (unfold Qmult, inject_Z; reflexivity).
  apply roundDouble_integer. nia.
Qed.

(** ** What is printed *)

(** *** The file list *)

Lemma digitsIn_uint_acc (d : Decimal.uint) :
  forall acc : positive,
    digitsIn 10 (NilEmpty.string_of_uint d) (Zpos acc)
    = Some (Zpos (Pos.of_uint_acc d acc)).
Proof.
  induction d as [|d IH|d IH|d IH|d IH|d IH|d IH|d IH|d IH|d IH|d IH];
    intros acc; [reflexivity|..];
    cbn [NilEmpty.string_of_uint]; unfold digitsIn; fold digitsIn;
    cbn [digitVal isDigit between code N_of_ascii N_of_digits N.leb N.compare
           Pos.compare Pos.compare_cont andb N.add N.mul Pos.add Pos.mul Pos.succ
           Z.of_N Z.sub Z.add Z.opp Z.pos_sub Z.succ_double Z.pred_double Z.double
           Pos.pred_double Z.ltb Z.compare];
    cbn [Pos.of_uint_acc]; rewrite <- IH; f_equal; lia.
Qed.

Lemma digitsIn_uint (d : Decimal.uint) :
  digitsIn 10 (NilEmpty.string_of_uint d) 0 = Some (Z.of_N (N.of_uint d)).
Proof.
  induction d as [|d IH|d IH|d IH|d IH|d IH|d IH|d IH|d IH|d IH|d IH];
    [reflexivity | exact IH | ..];
    cbn [NilEmpty.string_of_uint]; unfold digitsIn; fold digitsIn;
    cbn [digitVal isDigit between code N_of_ascii N_of_digits N.leb N.compare
           Pos.compare Pos.compare_cont andb N.add N.mul Pos.add Pos.mul Pos.succ
           Z.of_N Z.sub Z.add Z.opp Z.pos_sub Z.succ_double Z.pred_double Z.double
           Pos.pred_double Z.ltb Z.compare Z.mul];
    rewrite digitsIn_uint_acc; reflexivity.
Qed.

(** Reading back what [String] writes. *)
Lemma digitsValue_decimalString (n : Z) : (0 <= n)%Z -> digitsValue (decimalString n) = n.
Proof.
  intros Hn. unfold digitsValue, decimalString.
  assert (H : digitsIn 10 (NilZero.string_of_uint (N.to_uint (Z.to_N n))) 0
              = Some (Z.of_N (N.of_uint (N.to_uint (Z.to_N n))))).
  { destruct (N.to_uint (Z.to_N n)) eqn:E; rewrite <- digitsIn_uint; reflexivity. }
  rewrite H, DecimalN.Unsigned.of_to. now apply Z2N.id.
Qed.

Lemma digitsIn_zeros (k : nat) (s : string) :
  digitsIn 10 (string_of_list_ascii (repeat "0"%char k) ++ s) 0 = digitsIn 10 s 0.
Proof. induction k as [|k IH]; [reflexivity | exact IH]. Qed.

Lemma length_zeros (k : nat) (c : ascii) :
  String.length (string_of_list_ascii (repeat c k)) = k.
Proof. induction k as [|k IH]; [reflexivity|]. simpl. now rewrite IH. Qed.

Lemma length_append (s t : string) :
  String.length (s ++ t) = (String.length s + String.length t)%nat.
Proof. induction s as [|c s IH]; [reflexivity|]. simpl. now rewrite IH. Qed.

Lemma lineNumber_value (index : nat) :
  digitsValue (Rendering.lineNumber index) = (Z.of_nat index + 1)%Z.
Proof.
  unfold Rendering.lineNumber, Rendering.padStart, digitsValue.
  rewrite digitsIn_zeros. apply digitsValue_decimalString. lia.
Qed.

Lemma lineNumber_length (index : nat) :
  (3 <= String.length (Rendering.lineNumber index))%nat.
Proof.
  unfold Rendering.lineNumber, Rendering.padStart.
  rewrite length_append, length_zeros. lia.
Qed.

Lemma lineNumber_three (index : nat) :
  (index < 999)%nat -> String.length (Rendering.lineNumber index) = 3%nat.
Proof.
  intros H.
  assert (Hall : forallb (fun i => (String.length (Rendering.lineNumber i) =? 3)%nat)
                   (seq 0 999) = true) by (vm_compute; reflexivity).
  rewrite forallb_forall in Hall. apply Nat.eqb_eq. apply Hall.
  apply in_seq. lia.
Qed.

Lemma forEach_nth {A B : Type} (f : A -> nat -> B) (l : list A) :
  forall first index,
    nth_error (Rendering.forEach f l first) index
    = option_map (fun x => f x (first + index)%nat) (nth_error l index).
Proof.
  induction l as [|x l IH]; intros first index.
  - now destruct index.
  - destruct index as [|index]; cbn [Rendering.forEach nth_error option_map].
    + now rewrite Nat.add_0_r.
    + rewrite IH. now rewrite Nat.add_succ_r.
Qed.

Lemma forEach_length {A B : Type} (f : A -> nat -> B) (l : list A) :
  forall first, List.length (Rendering.forEach f l first) = List.length l.
Proof.
  induction l as [|x l IH]; intros first; [reflexivity|].
  cbn [Rendering.forEach List.length]. now rewrite IH.
Qed.

(** X17.  The file list has one line per record, in the order of the
    records; the line of the record at index i starts with i + 1 written
    with at least three digits (exactly three up to 999), which reads back
    as i + 1, so that no two lines share a number; with no record the list
    is the one line that nothing was found. *)
Theorem fileList_numbers_the_records (files : list FileRecord) :
  (files = [] ->
   Rendering.fileList files = ["No files found matching the criteria."]) /\
  (files <> [] -> List.length (Rendering.fileList files) = List.length files) /\
  (forall index file,
     nth_error files index = Some file ->
     nth_error (Rendering.fileList files) index
     = Some (Rendering.lineNumber index ++ ": "
             ++ Rendering.pathString (relativePath file)
             ++ " (" ++ sizeHuman file ++ ")")) /\
  (forall index,
     digitsValue (Rendering.lineNumber index) = (Z.of_nat index + 1)%Z /\
     (3 <= String.length (Rendering.lineNumber index))%nat /\
     ((index < 999)%nat -> String.length (Rendering.lineNumber index) = 3%nat)) /\
  (forall i j, Rendering.lineNumber i = Rendering.lineNumber j -> i = j).
Proof.
  split; [now intros ->|]. split.
  { destruct files as [|file files]; [now intros H|]. intros _.
    unfold Rendering.fileList. apply forEach_length. }
  split.
  { intros index file Hnth. destruct files as [|file0 files]; [now destruct index|].
    unfold Rendering.fileList. now rewrite forEach_nth, Hnth. }
  split.
  { intros index. split; [apply lineNumber_value|].
    split; [apply lineNumber_length | apply lineNumber_three]. }
  intros i j H. apply (f_equal digitsValue) in H.
  rewrite !lineNumber_value in H. lia.
Qed.

(** *** The sections of the output *)

Lemma existsb_In (s : string) (args : list string) :
  existsb (String.eqb s) args = true <-> In s args.
Proof.
  rewrite existsb_exists. split.
  - intros (x & Hin & Heq). apply String.eqb_eq in Heq. now subst x.
  - intros Hin. exists s. split; [exact Hin | apply String.eqb_refl].
Qed.

(** X18.  Which sections a run prints follows from the arguments: the tree
    with [--tree], the statistics with [--stats], the JSON output with
    [--json], the CSV output with [--csv] unless [--json] is there as well,
    and the file list exactly when none of the four is given. *)
Theorem outputs_follow_the_arguments (args : list string) (options : Options) :
  parseArguments args = Ok options ->
  (In Rendering.TreeOutput (Rendering.outputs options) <-> In "--tree" args) /\
  (In Rendering.StatsOutput (Rendering.outputs options) <-> In "--stats" args) /\
  (In Rendering.JsonOutput (Rendering.outputs options) <-> In "--json" args) /\
  (In Rendering.CsvOutput (Rendering.outputs options)
   <-> In "--csv" args /\ ~ In "--json" args) /\
  (In Rendering.FileListOutput (Rendering.outputs options)
   <-> ~ In "--tree" args /\ ~ In "--stats" args /\
       ~ In "--json" args /\ ~ In "--csv" args).
Proof.
  intros Hparse.
  destruct (parseArguments_fromArguments _ Hparse)
    as (_ & _ & _ & _ & _ & _ & Ha & Hb & Hc & Hf & _).
  cbn [defaults showTree showStats outputJson outputCsv orb] in *.
  rewrite <- !existsb_In. unfold Rendering.outputs.
  rewrite Ha, Hb, Hc, Hf.
  destruct (existsb (String.eqb "--tree") args),
           (existsb (String.eqb "--stats") args),
           (existsb (String.eqb "--json") args),
           (existsb (String.eqb "--csv") args);
    cbn [app In negb andb];
    repeat split; intros; intuition (discriminate || auto).
Qed.

(** *** The CSV rows *)

Lemma split_length (sep : ascii) (s : string) :
  List.length (split sep s) = S (Rendering.occurrences sep s).
Proof.
  induction s as [|c s IH]; [reflexivity|].
  cbn [split Rendering.occurrences].
  destruct (Ascii.eqb c sep); cbn [List.length Nat.add].
  - now rewrite IH.
  - destruct (split sep s) as [|h t]; [discriminate IH | exact IH].
Qed.

Lemma occurrences_append (c : ascii) (s t : string) :
  Rendering.occurrences c (s ++ t)
  = (Rendering.occurrences c s + Rendering.occurrences c t)%nat.
Proof.
  induction s as [|a s IH]; [reflexivity|].
  cbn [String.append Rendering.occurrences]. rewrite IH. lia.
Qed.

Lemma occurrences_quoted (s : string) :
  Rendering.occurrences "," (Rendering.quoted s) = Rendering.occurrences "," s.
Proof.
  unfold Rendering.quoted. cbn [Rendering.occurrences].
  rewrite occurrences_append. cbn. lia.
Qed.

Lemma occurrences_uint (d : Decimal.uint) :
  Rendering.occurrences "," (NilEmpty.string_of_uint d) = 0%nat.
Proof. induction d; cbn; assumption || reflexivity. Qed.

Lemma occurrences_decimalString (n : Z) :
  Rendering.occurrences "," (decimalString n) = 0%nat.
Proof.
  unfold decimalString, NilZero.string_of_uint.
  destruct (N.to_uint (Z.to_N n)) eqn:E; try (rewrite <- E; apply occurrences_uint);
    try reflexivity; apply (occurrences_uint (_ u)).
Qed.

(** X19.  The CSV output is the header and one row per record, and the
    fields of a row are joined as they are: cut at its commas, a row has six
    fields and one more for every comma in the name, the relative path, the
    extension or the dates. *)
Theorem outputCsv_joins_fields_as_they_are (toISOString : Z -> string)
  (files : list FileRecord) :
  List.length (Rendering.outputCsv toISOString files) = S (List.length files) /\
  split "," (hd "" (Rendering.outputCsv toISOString files))
  = ["name"; "relativePath"; "size"; "extension"; "modified"; "created"] /\
  (forall index file,
     nth_error files index = Some file ->
     nth_error (Rendering.outputCsv toISOString files) (S index)
     = Some (Rendering.csvRow toISOString file)) /\
  (forall file,
     List.length (split "," (Rendering.csvRow toISOString file))
     = (6 + Rendering.occurrences "," (name file)
        + Rendering.occurrences "," (Rendering.pathString (relativePath file))
        + Rendering.occurrences "," (extension file)
        + Rendering.occurrences "," (toISOString (modified file))
        + Rendering.occurrences "," (toISOString (created file)))%nat).
Proof.
  split; [unfold Rendering.outputCsv; cbn [List.length]; now rewrite length_map|].
  split; [reflexivity|]. split.
  { intros index file Hnth. unfold Rendering.outputCsv. cbn [nth_error].
    now rewrite nth_error_map, Hnth. }
  intros file. rewrite split_length. unfold Rendering.csvRow.
  cbn [String.concat].
  rewrite !occurrences_append, !occurrences_quoted, occurrences_decimalString.
  cbn [Rendering.occurrences Ascii.eqb Bool.eqb]. cbv iota. lia.
Qed.

(** *** The extension table *)

Lemma insertByCount_permutation (entry : string * nat) (l : list (string * nat)) :
  Permutation (Rendering.insertByCount entry l) (entry :: l).
Proof.
  induction l as [|e l IH]; [reflexivity|]. cbn [Rendering.insertByCount].
  destruct (snd e <=? snd entry)%nat; [reflexivity|].
  rewrite IH. apply perm_swap.
Qed.

Lemma sortByCount_permutation (l : list (string * nat)) :
  Permutation (Rendering.sortByCount l) l.
Proof.
  induction l as [|e l IH]; [reflexivity|]. cbn [Rendering.sortByCount fold_right].
  fold (Rendering.sortByCount l). rewrite insertByCount_permutation. now rewrite IH.
Qed.

Lemma insertByCount_sorted (entry : string * nat) (l : list (string * nat)) :
  StronglySorted (fun a b => (snd b <= snd a)%nat) l ->
  StronglySorted (fun a b => (snd b <= snd a)%nat) (Rendering.insertByCount entry l).
Proof.
  induction l as [|e l IH]; intros Hs; cbn [Rendering.insertByCount].
  - constructor; constructor.
  - inversion Hs as [|? ? Hl He]; subst.
    destruct (Nat.leb_spec (snd e) (snd entry)) as [Hle | Hlt].
    + constructor; [exact Hs|]. constructor; [exact Hle|].
      eapply Forall_impl; [|exact He]. cbv beta. intros b Hb. lia.
    + constructor; [now apply IH|].
      eapply Permutation_Forall; [symmetry; apply insertByCount_permutation|].
      constructor; [lia | exact He].
Qed.

Lemma sortByCount_sorted (l : list (string * nat)) :
  StronglySorted (fun a b => (snd b <= snd a)%nat) (Rendering.sortByCount l).
Proof.
  induction l as [|e l IH]; [constructor|].
  cbn [Rendering.sortByCount fold_right]. now apply insertByCount_sorted.
Qed.

Lemma insertByCount_stable (count : nat) (entry : string * nat) (l : list (string * nat)) :
  filter (fun e => (snd e =? count)%nat) (Rendering.insertByCount entry l)
  = filter (fun e => (snd e =? count)%nat) (entry :: l).
Proof.
  induction l as [|e l IH]; [reflexivity|]. cbn [Rendering.insertByCount].
  destruct (Nat.leb_spec (snd e) (snd entry)) as [Hle | Hlt]; [reflexivity|].
  cbn [filter] in *. rewrite IH.
  destruct (Nat.eqb_spec (snd e) count), (Nat.eqb_spec (snd entry) count);
    try reflexivity; lia.
Qed.

Lemma sortByCount_stable (count : nat) (l : list (string * nat)) :
  filter (fun e => (snd e =? count)%nat) (Rendering.sortByCount l)
  = filter (fun e => (snd e =? count)%nat) l.
Proof.
  induction l as [|e l IH]; [reflexivity|].
  cbn [Rendering.sortByCount fold_right]. fold (Rendering.sortByCount l).
  rewrite insertByCount_stable. cbn [filter]. now rewrite IH.
Qed.

Lemma increment_keys_cases (ext : string) (l : list (string * nat)) :
  map fst (increment ext l) = map fst l \/
  (~ In ext (map fst l) /\ map fst (increment ext l) = (map fst l ++ [ext])%list).
Proof.
  induction l as [|[k v] l IH]; [right; now split|]. cbn [increment].
  destruct (String.eqb_spec k ext) as [-> | Hne]; [now left|].
  destruct IH as [IH | [Hnot IH]]; cbn [map fst]; rewrite IH.
  - now left.
  - right. split; [|reflexivity]. intros [H | H]; [now apply Hne | now apply Hnot].
Qed.

Lemma increment_keys (ext : string) (acc : list (string * nat)) :
  NoDup (map fst acc) -> NoDup (map fst (increment ext acc)).
Proof.
  intros Hnd. destruct (increment_keys_cases ext acc) as [-> | [Hnot ->]]; [exact Hnd|].
  apply NoDup_app; [exact Hnd | constructor; [intros [] | constructor] |].
  intros k Hk [<- | []]. contradiction.
Qed.

Lemma histogram_keys (files : list FileRecord) :
  forall acc,
    NoDup (map fst acc) ->
    let entries := fold_left (fun acc file => increment (label file) acc) files acc in
    NoDup (map fst entries) /\
    forall key, In key (map fst entries) ->
                In key (map fst acc) \/ exists file, In file files /\ label file = key.
Proof.
  induction files as [|file files IH]; intros acc Hacc; cbn [fold_left].
  - split; [exact Hacc | intros key Hin; now left].
  - destruct (IH (increment (label file) acc) (@increment_keys (label file) acc Hacc))
      as [Hnd Hkeys].
    split; [exact Hnd|]. intros key Hin.
    destruct (Hkeys key Hin) as [Hk | (file' & Hin' & Hl)].
    + destruct (increment_keys_cases (label file) acc) as [E | [_ E]];
        rewrite E in Hk; [now left|].
      apply in_app_or in Hk as [Hk | [<- | []]]; [now left|].
      right. exists file. split; [now left | reflexivity].
    + right. exists file'. split; [now right | exact Hl].
Qed.

(** The keys of the histogram: those it had, then the new labels, each
    once, in the order of their first record. *)
Lemma histogram_order (files : list FileRecord) :
  forall acc,
    map fst (fold_left (fun acc file => increment (label file) acc) files acc)
    = (map fst acc
       ++ filter (fun y => negb (existsb (String.eqb y) (map fst acc)))
            (firstSeen (map label files)))%list.
Proof.
  induction files as [|file files IH]; intros acc; cbn [fold_left map firstSeen].
  - now rewrite app_nil_r.
  - rewrite IH. cbn [filter].
    assert (Hfilter : forall (keys : list string) (l : list string),
               filter (fun y => negb (existsb (String.eqb y) (keys ++ [label file])))
                 l
               = filter (fun y => negb (existsb (String.eqb y) keys))
                   (filter (fun y => negb (String.eqb y (label file))) l)).
    { intros keys l. induction l as [|y l IHl]; [reflexivity|].
      cbn [filter]. rewrite existsb_app. cbn [existsb]. rewrite orb_false_r.
      destruct (String.eqb y (label file)); cbn [negb].
      - rewrite orb_true_r. exact IHl.
      - rewrite orb_false_r. cbn [filter].
        destruct (existsb (String.eqb y) keys); cbn [negb]; now rewrite IHl. }
    destruct (increment_keys_cases (label file) acc) as [E | [Hnot E]]; rewrite E.
    + assert (Hin : existsb (String.eqb (label file)) (map fst acc) = true).
      { destruct (existsb (String.eqb (label file)) (map fst acc)) eqn:Ex;
          [reflexivity|]. exfalso.
        assert (Hlen : List.length (map fst (increment (label file) acc))
                       = List.length (map fst acc)) by now rewrite E.
        clear - Ex Hlen. revert Ex Hlen.
        induction acc as [|[k v] acc IHacc]; [discriminate|].
        cbn [map fst existsb increment]. rewrite String.eqb_sym.
        destruct (String.eqb k (label file)); [discriminate|].
        cbn [orb map fst List.length]. intros Ex Hlen. apply IHacc; [exact Ex | lia]. }
      rewrite Hin. cbn [negb]. f_equal.
      clear - Hin. induction (firstSeen (map label files)) as [|y l IHl];
        [reflexivity|].
      cbn [filter]. destruct (String.eqb_spec y (label file)) as [-> | Hne]; cbn [negb].
      * rewrite Hin. cbn [negb]. exact IHl.
      * cbn [filter]. now rewrite IHl.
    + assert (Hout : existsb (String.eqb (label file)) (map fst acc) = false).
      { destruct (existsb (String.eqb (label file)) (map fst acc)) eqn:Ex;
          [|reflexivity].
        apply existsb_exists in Ex as (k & Hk & Heq).
        apply String.eqb_eq in Heq. subst k. contradiction. }
      rewrite Hout. cbn [negb]. rewrite <- app_assoc. cbn [app]. f_equal. f_equal.
      apply Hfilter.
Qed.

Lemma firstSeen_In (l : list string) (x : string) : In x (firstSeen l) <-> In x l.
Proof.
  induction l as [|y l IH]; [reflexivity|]. cbn [firstSeen In].
  rewrite filter_In, IH. split.
  - intros [H | [H _]]; [now left | now right].
  - intros [H | H]; [now left|].
    destruct (String.eqb_spec x y) as [-> | Hne]; [now left|]. right.
    split; [exact H | reflexivity].
Qed.

(** An entry of a table with distinct keys is what [property] finds. *)
Lemma property_In (entries : list (string * nat)) (key : string) (n : nat) :
  NoDup (map fst entries) -> In (key, n) entries -> property key entries = Some n.
Proof.
  induction entries as [|[k v] entries IH]; intros Hnd Hin; [destruct Hin|].
  cbn [map fst] in Hnd. inversion Hnd as [|? ? Hnot Hnd']; subst.
  cbn [property]. destruct Hin as [[= -> ->] | Hin].
  - now rewrite String.eqb_refl.
  - destruct (String.eqb_spec k key) as [-> | Hne]; [|now apply IH].
    exfalso. apply Hnot. apply in_map_iff. now exists (key, n).
Qed.

(** X20.  For records whose extension is empty or starts with a dot, as
    those of a scan are, the extension table lists every extension of the
    records once, under a key that is "(no extension)" or starts with a
    dot, with the number of records that have it; the entries stand in the
    order of the first record of each extension, and the lines are the
    entries by descending count, those with the same count in that order. *)
Theorem extension_table_is_sorted (files : list FileRecord) :
  (forall file, In file files ->
     extension file = "" \/ startsWith (extension file) "." = true) ->
  let entries := extensionCounts (displayStats files) in
  let table := Rendering.sortByCount entries in
  NoDup (map fst entries) /\
  (forall key, In key (map fst entries) ->
     (key = "(no extension)" \/ startsWith key "." = true) /\
     exists file, In file files /\ label file = key) /\
  Permutation table entries /\
  StronglySorted (fun a b => (snd b <= snd a)%nat) table /\
  (forall count,
     filter (fun e => (snd e =? count)%nat) table
     = filter (fun e => (snd e =? count)%nat) entries) /\
  Rendering.extensionLines files
  = map (fun entry => fst entry ++ ": " ++ decimalString (Z.of_nat (snd entry))
                      ++ " files") table /\
  entries
  = map (fun key => (key, countLabel key files)) (firstSeen (map label files)) /\
  (forall file, In file files ->
     In (label file, countLabel (label file) files) table).
Proof.
  intros Hext entries table.
  destruct (@histogram_keys files [] (NoDup_nil _)) as [Hnd Hkeys].
  cbn zeta in Hnd, Hkeys.
  assert (He : entries
               = fold_left (fun acc file => increment (label file) acc) files [])
    by reflexivity.
  rewrite <- He in Hnd, Hkeys.
  assert (Hentries : entries
            = map (fun key => (key, countLabel key files))
                (firstSeen (map label files))).
  { assert (Horder : map fst entries = firstSeen (map label files)).
    { rewrite He, histogram_order. cbn [map app existsb negb].
      clear. induction (firstSeen (map label files)) as [|y l IHl]; [reflexivity|].
      cbn [filter]. now rewrite IHl. }
    rewrite <- Horder. rewrite map_map.
    assert (Hcount : forall e, In e entries -> e = (fst e, countLabel (fst e) files)).
    { intros [k n] Hin. cbn [fst]. f_equal.
      pose proof (property_In entries k n Hnd Hin) as Hp.
      destruct (histogram_fold files []) as [_ Hfold]. cbn zeta in Hfold.
      specialize (Hfold k). rewrite <- He, Hp in Hfold. exact Hfold. }
    clear - Hcount. induction entries as [|e entries IH]; [reflexivity|].
    cbn [map]. rewrite <- (Hcount e (or_introl eq_refl)). f_equal.
    apply IH. intros e' Hin. apply Hcount. now right. }
  split; [exact Hnd|]. split.
  { intros key Hin. destruct (Hkeys key Hin) as [[] | (file & Hfile & Hl)].
    split; [|now exists file].
    subst key. unfold label.
    destruct (Hext file Hfile) as [-> | Hdot]; [now left|].
    right. destruct (extension file); [discriminate Hdot | exact Hdot]. }
  split; [apply sortByCount_permutation|].
  split; [apply sortByCount_sorted|].
  split; [intros count; apply sortByCount_stable|].
  split; [reflexivity|]. split; [exact Hentries|].
  intros file Hfile.
  apply (Permutation_in _ (Permutation_sym (sortByCount_permutation entries))).
  rewrite Hentries. apply in_map_iff. exists (label file). split; [reflexivity|].
  apply firstSeen_In. apply in_map_iff. now exists file.
Qed.

(** *** The depth option *)

Lemma digits_no_option (i : string) : digits i -> startsWith i "--" = false.
Proof.
  intros [Hne Hd]. destruct i as [|c r]; [reflexivity|].
  cbn [allDigits] in Hd. apply andb_prop in Hd as [Hc _].
  unfold startsWith. cbn [String.prefix].
  destruct (ascii_dec "-" c) as [<- | _]; [discriminate Hc | reflexivity].
Qed.

(** X21.  [--depth] followed by a whole number below 2^53 sets the depth
    bound to exactly that number, and the loop goes on after the number. *)
Theorem depth_option_reads_whole_numbers (i : string) (rest : list string)
  (options : Options) :
  digits i -> (digitsValue i < 2 ^ 53)%Z ->
  parseLoop ("--depth" :: i :: rest) options
  = parseLoop rest (setDepth options (Finite (inject_Z (digitsValue i)))).
Proof.
  intros Hi Hbound. pose proof (digitsValue_nonneg i) as Hn.
  cbn [parseLoop hd_error].
  change (startsWith "--depth" "--") with true. cbv iota.
  unfold parseOption. change (String.eqb "--depth" "--depth") with true. cbv iota.
  unfold valueOf. rewrite (digits_no_option Hi).
  destruct Hi as [Hne Hd].
  assert (Ht : truthy (Some i) = true) by (destruct i; [now contradiction Hne | reflexivity]).
  rewrite Ht. cbn [negb orb bind].
  rewrite (Number_digits (conj Hne Hd)), roundDouble_integer by lia.
  change (Finite 0) with (Finite (inject_Z 0)). rewrite lt_integers.
  cbn [isNaN orb]. destruct (Z.ltb_spec (digitsValue i) 0); [lia | reflexivity].
Qed.

(** ** formatBytes on whole multiples of a unit *)

Lemma scaled_multiple (n : Z) (k j : nat) :
  (j <= k)%nat ->
  (scaled (inject_Z (n * 1024 ^ Z.of_nat k)) j
   == inject_Z (n * 1024 ^ Z.of_nat (k - j)))%Q.
Proof.
  induction j as [|j IH]; intros Hj.
  - rewrite Nat.sub_0_r. reflexivity.
  - cbn [scaled]. rewrite IH by lia.
    replace (k - j)%nat with (S (k - S j)) by lia.
    rewrite Nat2Z.inj_succ, Z.pow_succ_r by lia.
    replace (n * (1024 * 1024 ^ Z.of_nat (k - S j)))%Z
      with (n * 1024 ^ Z.of_nat (k - S j) * 1024)%Z by ring.
    rewrite inject_Z_mult. change (inject_Z 1024) with 1024%Q. field.
Qed.

Lemma toFixed2Small_comp (x y : Q) : (x == y)%Q -> toFixed2Small x = toFixed2Small y.
Proof.
  intros H. unfold toFixed2Small.
  assert (E : Qfloor (x * 100 + (1 # 2)) = Qfloor (y * 100 + (1 # 2)))
    by now rewrite H.
  now rewrite E.
Qed.

Lemma toFixed2Small_whole (n : Z) :
  toFixed2Small (inject_Z n) = decimalString n ++ ".00".
Proof.
  unfold toFixed2Small.
  assert (E : Qfloor (inject_Z n * 100 + (1 # 2)) = (n * 100)%Z).
  { unfold Qfloor, Qplus, Qmult, inject_Z. cbn [Qnum Qden].
    change (Z.pos (1 * 1 * 2)) with 2%Z. change (Z.pos (1 * 1)) with 1%Z.
    symmetry. apply Z.div_unique with 1%Z; lia. }
  rewrite E, Z.div_mul, Z.mod_mul by lia.
  replace (n * 100 mod 10)%Z with 0%Z
    by (symmetry; replace (n * 100)%Z with (n * 10 * 10)%Z by ring;
        apply Z.mod_mul; lia).
  reflexivity.
Qed.

(** X22.  [formatBytes] prints a whole multiple of a unit exactly: for a
    whole number n below 1024 (and at least 1 unless the unit is B), n
    times 1, 1024, 1024^2 or 1024^3 bytes is printed as n with two zero
    decimals and the unit B, KB, MB or GB. *)
Theorem formatBytes_whole_units (hostToString : Q -> string) (n : Z) (k : nat) :
  (k <= 3)%nat -> (0 <= n < 1024)%Z -> (k = 0%nat \/ 1 <= n)%Z ->
  formatBytes hostToString (inject_Z (n * 1024 ^ Z.of_nat k))
  = decimalString n ++ ".00 " ++ nth k units "".
Proof.
  intros Hk Hn Hpos. set (b := inject_Z (n * 1024 ^ Z.of_nat k)).
  destruct (formatBytesLoop_spec b (List.length units - 1) 0)
    as (k' & Hloop & Hrange & Hbelow & Hlast).
  change (scaled b 0) with b in Hloop. cbn in Hrange, Hlast.
  assert (Hsame : k' = k).
  { destruct (Nat.lt_trichotomy k' k) as [Hlt | [Heq | Hgt]]; [|exact Heq|].
    - exfalso. destruct Hlast as [Hlast | ->]; [|lia].
      unfold b in Hlast. rewrite scaled_multiple in Hlast by lia.
      change 1024%Q with (inject_Z 1024) in Hlast. rewrite <- Zlt_Qlt in Hlast.
      assert (1024 <= 1024 ^ Z.of_nat (k - k'))%Z.
      { replace (k - k')%nat with (S (k - k' - 1)) by lia.
        rewrite Nat2Z.inj_succ, Z.pow_succ_r by lia.
        assert (0 < 1024 ^ Z.of_nat (k - k' - 1))%Z by (apply Z.pow_pos_nonneg; lia).
        lia. }
      nia.
    - exfalso. specialize (Hbelow k ltac:(lia)).
      unfold b in Hbelow. rewrite scaled_multiple in Hbelow by lia.
      rewrite Nat.sub_diag in Hbelow. change (1024 ^ Z.of_nat 0)%Z with 1%Z in Hbelow.
      change 1024%Q with (inject_Z 1024) in Hbelow. rewrite <- Zle_Qle in Hbelow. lia. }
  subst k'.
  assert (Hq : (scaled b k == inject_Z n)%Q).
  { unfold b. rewrite scaled_multiple by lia. rewrite Nat.sub_diag.
    now rewrite Z.mul_1_r. }
  unfold formatBytes. rewrite Hloop.
  rewrite toFixed2_small.
  - rewrite (toFixed2Small_comp Hq), toFixed2Small_whole.
    rewrite !append_assoc. reflexivity.
  - rewrite Hq. change 0%Q with (inject_Z 0). rewrite <- Zle_Qle. lia.
  - rewrite Hq. rewrite <- Zlt_Qlt. lia.
Qed.

(** *** Instances *)

Lemma scanDirectory_records_describe_files_witness :
  let options := setBaseDir defaults ["root"] in
  let file := fileInfo (fun _ => "") "d.txt" ["root"; "c"; "d.txt"] 5 0 0 options in
  In file (fst (scanDirectory (fun _ => None) (fun _ => "") (fun _ => None)
                  sampleTree (baseDir options) 0 options)) /\
  relativePath file = ["c"; "d.txt"] /\
  path_ file = (baseDir options ++ relativePath file)%list /\
  extension file = toLowerCase (extnameBase (name file)).
Proof.
  intros options file.
  assert (Hin : In file (fst (scanDirectory (fun _ => None) (fun _ => "") (fun _ => None)
                                sampleTree (baseDir options) 0 options)))
    by (right; right; left; reflexivity).
  split; [exact Hin|]. split; [reflexivity|].
  destruct (@scanDirectory_records_describe_files (fun _ => None) (fun _ => "")
              (fun _ => None) options sampleTree file Hin)
    as (_ & Hpath & _ & _ & Hext & _).
  split; [exact Hpath | exact Hext].
Defined.

Lemma scanDirectory_records_pass_filters_witness :
  let options := setExtensions (setBaseDir defaults ["root"]) [".txt"] in
  let file := fileInfo (fun _ => "") "a.txt" ["root"; "a.txt"] 10 0 0 options in
  In file (fst (scanDirectory (fun _ => None) (fun _ => "") (fun _ => None)
                  sampleTree ["root"] 0 options)) /\
  matchesExtension (path_ file) (extensions options) = true.
Proof.
  intros options file.
  assert (Hin : In file (fst (scanDirectory (fun _ => None) (fun _ => "") (fun _ => None)
                                sampleTree ["root"] 0 options)))
    by (left; reflexivity).
  split; [exact Hin|].
  exact (proj1 (@scanDirectory_records_pass_filters (fun _ => None) (fun _ => "")
                  (fun _ => None) options sampleTree ["root"] 0%nat file Hin)).
Defined.

Lemma raising_depth_keeps_records_witness :
  (1 <= 2)%Q /\
  incl (fst (scanDirectory (fun _ => None) (fun _ => "") (fun _ => None) sampleTree
               ["root"] 0 (setDepth defaults (Finite 1))))
       (fst (scanDirectory (fun _ => None) (fun _ => "") (fun _ => None) sampleTree
               ["root"] 0 (setDepth defaults (Finite 2)))).
Proof.
  assert (H : (1 <= 2)%Q) by (unfold Qle; simpl; lia).
  split; [exact H|].
  exact (proj1 (@raising_depth_keeps_records (fun _ => None) (fun _ => "")
                  (fun _ => None) defaults sampleTree ["root"] 0%nat) 1 2 H).
Defined.

Lemma scan_without_search_reads_nothing_witness :
  truthy (searchText defaults) = false /\
  ~ In (ReadFile ["root"; "a.txt"])
      (snd (scanDirectory (fun _ => None) (fun _ => "") (fun _ => Some "text")
              sampleTree ["root"] 0 defaults)).
Proof.
  assert (H : truthy (searchText defaults) = false) by reflexivity.
  split; [exact H|].
  exact (@scan_without_search_reads_nothing (fun _ => None) (fun _ => "")
           (fun _ => Some "text") defaults sampleTree ["root"] 0%nat H
           ["root"; "a.txt"]).
Defined.

Lemma healthy_tree_scans_without_warning_witness :
  accessible sampleTree = true /\ isDirectory sampleTree = true /\
  ~ In (Warn ["root"])
      (snd (scanDirectory (fun _ => None) (fun _ => "") (fun _ => None)
              sampleTree ["root"] 0 defaults)).
Proof.
  assert (Hn : ~ throwing (fun _ => None) defaults) by discriminate.
  assert (Ha : accessible sampleTree = true) by reflexivity.
  assert (Hd : isDirectory sampleTree = true) by reflexivity.
  split; [exact Ha|]. split; [exact Hd|].
  exact (@healthy_tree_scans_without_warning (fun _ => None) (fun _ => "")
           (fun _ => None) defaults sampleTree Hn Ha Hd ["root"] 0%nat ["root"]).
Defined.

Lemma dotless_extensions_select_nothing_witness :
  let options := setExtensions defaults ["txt"; "log"] in
  extensions options <> [] /\
  fst (scanDirectory (fun _ => None) (fun _ => "") (fun _ => None) sampleTree
         ["root"] 0 options) = [].
Proof.
  intros options.
  assert (Hne : extensions options <> []) by discriminate.
  assert (Hall : forall ext, In ext (extensions options) -> dotless ext).
  { intros ext [<- | [<- | []]]; (split; [discriminate | reflexivity]). }
  split; [exact Hne|].
  exact (proj2 (@dotless_extensions_select_nothing (fun _ => None) (fun _ => "")
                  (fun _ => None) options sampleTree ["root"] 0%nat Hne Hall)).
Defined.

Lemma plain_pattern_is_substring_search_witness :
  asciiOnly "app" /\ asciiOnly "SnApp.js" /\ plain "app" /\
  matchesNamePattern (fun _ => None) "SnApp.js" (Some "app")
  = Some (includes (toLowerCase "SnApp.js") (toLowerCase "app")).
Proof.
  assert (Ha : asciiOnly "app").
  { intros c Hin. cbn [list_ascii_of_string In] in Hin.
    repeat (destruct Hin as [<- | Hin]; [reflexivity|]). destruct Hin. }
  assert (Hn : asciiOnly "SnApp.js").
  { intros c Hin. cbn [list_ascii_of_string In] in Hin.
    repeat (destruct Hin as [<- | Hin]; [reflexivity|]). destruct Hin. }
  assert (Hp : plain "app") by (intros c [<- | [<- | [<- | []]]]; reflexivity).
  split; [exact Ha|]. split; [exact Hn|]. split; [exact Hp|].
  exact (@plain_pattern_is_substring_search (fun _ => None) "app" "SnApp.js" Ha Hn Hp).
Defined.

Lemma wildcard_at_an_end_is_redundant_witness :
  wildcardPattern "a?c" /\
  matchesNamePattern (fun _ => None) "xabcx" (Some ("*" ++ "a?c"))
  = matchesNamePattern (fun _ => None) "xabcx" (Some "a?c").
Proof.
  assert (Hw : wildcardPattern "a?c").
  { intros c [<- | [<- | [<- | []]]];
      [left; reflexivity | right; right; left; reflexivity | left; reflexivity]. }
  split; [exact Hw|].
  exact (proj1 (@wildcard_at_an_end_is_redundant (fun _ => None) "a?c" "xabcx" Hw)).
Defined.

Lemma parseArguments_well_formed_witness :
  let args := ["dir"; "--ext"; " .JS,.ts"; "--tree"; "--depth"; "2"] in
  exists options,
    parseArguments args = Ok options /\
    showTree options = existsb (String.eqb "--tree") args /\
    validDepth options.
Proof.
  intros args.
  destruct (parseArguments args) as [options|message] eqn:E; [|discriminate E].
  exists options. split; [reflexivity|].
  destruct (@parseArguments_well_formed args options E)
    as (_ & Hdepth & _ & _ & _ & _ & _ & Htree & _).
  split; [exact Htree | exact Hdepth].
Defined.

Lemma main_reports_matching_files_witness :
  let resolve := fun _ : string => (["root"], sampleTree) in
  let file :=
    fileInfo (fun _ => "") "a.txt" ["root"; "a.txt"] 10 0 0
      (setBaseDir (setDirPath defaults (Some "dir")) ["root"]) in
  In file (files (main (fun _ => None) (fun _ => "") (fun _ => None) resolve ["dir"])) /\
  exitCode (main (fun _ => None) (fun _ => "") (fun _ => None) resolve ["dir"]) = 0%Z.
Proof.
  intros resolve file.
  assert (Hin : In file (files (main (fun _ => None) (fun _ => "") (fun _ => None)
                                  resolve ["dir"])))
    by (left; reflexivity).
  split; [exact Hin|].
  exact (proj1 (proj2 (@main_reports_matching_files (fun _ => None) (fun _ => "")
                         (fun _ => None) resolve ["dir"] file Hin))).
Defined.

Lemma invalid_pattern_is_not_an_error_witness :
  let resolve := fun _ : string => (["root"], sampleTree) in
  let args := ["dir"; "--name"; "("] in
  throwing (fun _ => None) (setNamePattern defaults (Some "(")) /\
  exitCode (main (fun _ => None) (fun _ => "") (fun _ => None) resolve args) = 0%Z /\
  files (main (fun _ => None) (fun _ => "") (fun _ => None) resolve args) = [].
Proof.
  intros resolve args.
  assert (Ht : throwing (fun _ => None) (setNamePattern defaults (Some "(")))
    by reflexivity.
  split; [exact Ht|].
  exact (@invalid_pattern_is_not_an_error (fun _ => None) (fun _ => "") (fun _ => None)
           resolve args
           (setNamePattern (setDirPath defaults (Some "dir")) (Some "("))
           "dir" eq_refl eq_refl eq_refl eq_refl Ht).
Defined.

Lemma whole_size_filters_are_exact_witness :
  (digitsValue "10" * multiplierOf "kb" < 2 ^ 53)%Z /\
  parseSizeFilter (">=" ++ "10" ++ "kb")
  = Ok {| operator := ">=";
          bytes := Finite (inject_Z (digitsValue "10" * multiplierOf "kb")) |}.
Proof.
  assert (Hop : In ">=" acceptedOperators) by (right; right; right; left; reflexivity).
  assert (Hi : digits "10") by (split; [discriminate | reflexivity]).
  assert (Hu : sizeUnit "kb") by (right; left; reflexivity).
  assert (Hb : (digitsValue "10" * multiplierOf "kb" < 2 ^ 53)%Z) by reflexivity.
  split; [exact Hb|].
  exact (@whole_size_filters_are_exact ">=" "10" "kb" Hop Hi Hu Hb).
Defined.

Lemma depth_option_reads_whole_numbers_witness :
  digits "12" /\
  parseLoop ["--depth"; "12"; "dir"] defaults
  = parseLoop ["dir"] (setDepth defaults (Finite (inject_Z (digitsValue "12")))).
Proof.
  assert (Hi : digits "12") by (split; [discriminate | reflexivity]).
  assert (Hb : (digitsValue "12" < 2 ^ 53)%Z) by reflexivity.
  split; [exact Hi|].
  exact (@depth_option_reads_whole_numbers "12" ["dir"] defaults Hi Hb).
Defined.

Lemma outputs_follow_the_arguments_witness :
  let args := ["dir"; "--csv"; "--json"] in
  exists options,
    parseArguments args = Ok options /\
    (In Rendering.CsvOutput (Rendering.outputs options)
     <-> In "--csv" args /\ ~ In "--json" args).
Proof.
  intros args.
  destruct (parseArguments args) as [options|message] eqn:E; [|discriminate E].
  exists options. split; [reflexivity|].
  destruct (@outputs_follow_the_arguments args options E) as (_ & _ & _ & Hcsv & _).
  exact Hcsv.
Defined.

Lemma extension_table_is_sorted_witness :
  let files :=
    fst (scanDirectory (fun _ => None) (fun _ => "") (fun _ => None) sampleTree
           ["root"] 0 (setBaseDir defaults ["root"])) in
  (forall file, In file files ->
     extension file = "" \/ startsWith (extension file) "." = true) /\
  Permutation (Rendering.sortByCount (extensionCounts (displayStats files)))
    (extensionCounts (displayStats files)) /\
  extensionCounts (displayStats files)
  = map (fun key => (key, countLabel key files)) (firstSeen (map label files)) /\
  firstSeen (map label files) = [".txt"; ".log"] /\
  Rendering.extensionLines files = [".txt: 3 files"; ".log: 1 files"].
Proof.
  intros files.
  assert (H : forall file, In file files ->
                extension file = "" \/ startsWith (extension file) "." = true).
  { intros file [<- | [<- | [<- | [<- | []]]]]; right; reflexivity. }
  split; [exact H|].
  destruct (@extension_table_is_sorted files H) as (_ & _ & Hperm & _ & _ & _ & Hord & _).
  split; [exact Hperm|]. split; [exact Hord|]. split; reflexivity.
Defined.

Lemma formatBytes_whole_units_witness :
  (2 <= 3)%nat /\
  formatBytes (fun _ => "") (inject_Z (5 * 1024 ^ Z.of_nat 2)) = "5.00 MB".
Proof.
  assert (Hk : (2 <= 3)%nat) by lia.
  assert (Hn : (0 <= 5 < 1024)%Z) by lia.
  assert (Hp : (2%nat = 0%nat \/ 1 <= 5)%Z) by (right; lia).
  split; [exact Hk|].
  exact (@formatBytes_whole_units (fun _ => "") 5 2 Hk Hn Hp).
Defined.
